(** * Non-maximum suppression kernels of [python/tvm/topi/cuda/nms.py]

    A shallow embedding of the IR-builder kernels of the CUDA NMS operator.

    Modelling conventions.
    - A buffer pointer ([ib.buffer_ptr]) is a flat, unchecked array: a total
      function from the flat index to the element ([buf]).  Indices are
      computed exactly as in the source ([(i * num_anchors + j) * elem_length
      + k] and the like); index arithmetic is taken in [Z].
    - [int32] elements are [Z] with the wrap-around of [+=] written out
      ([add32]).
    - In the kernels a floating-point element is held as its value, a
      rational ([Q]); the kernels copy, compare and overwrite these values,
      which is exact on finite floats.  The one place where they compute
      with them is the IoU: inside the kernels [calculate_overlap] is the
      formula in exact arithmetic, and the theorems about the kernels hold
      whatever value it returns (the examples on concrete boxes compare
      IoUs that are a power of two or well away from the threshold).  The
      floating-point computation of the IoU is
      [IEEE754.calculate_overlap], on the Standard Library's specification
      of IEEE 754 arithmetic; symmetry, sign and bounds of the IoU are
      stated of it.
    - A kernel launch ([ib.new_scope] with [thread_extent] attributes) runs
      its body once per thread index; the embedding runs the threads one
      after the other ([launch]).  Every kernel below is race free (each
      thread writes locations no other thread of the launch touches), which
      the lemmas establish where it matters. *)

From Stdlib Require Import ZArith QArith Qminmax Lia Lra Psatz List Bool String.
From Stdlib Require Import SpecFloat Qpower.
Import ListNotations.
Local Open Scope Z_scope.

(** ** Buffers *)

Definition buf (A : Type) : Type := Z -> A.

Definition store {A} (b : buf A) (i : Z) (x : A) : buf A :=
  fun k => if Z.eqb k i then x else b k.

Lemma store_eq {A} (b : buf A) i x : store b i x i = x.
Proof. unfold store. now rewrite Z.eqb_refl. Qed.

Lemma store_neq {A} (b : buf A) i x k : k <> i -> store b i x k = b k.
Proof. unfold store. intros H. apply Z.eqb_neq in H. now rewrite H. Qed.

(** Signed 32-bit wrap-around, for [int32] accumulation. *)
Definition wrap32 (z : Z) : Z := (z + 2 ^ 31) mod 2 ^ 32 - 2 ^ 31.
Definition add32 (x y : Z) : Z := wrap32 (x + y).

Lemma wrap32_small z : - 2 ^ 31 <= z < 2 ^ 31 -> wrap32 z = z.
Proof. intros H. unfold wrap32. rewrite Z.mod_small; lia. Qed.

(** ** Loops and launches *)

Fixpoint iter_from {S : Type} (k : nat) (i : Z) (body : Z -> S -> S) (s : S) : S :=
  match k with
  | O => s
  | Datatypes.S k' => iter_from k' (i + 1) body (body i s)
  end.

(** [ib.for_range(lo, hi)]: the body at [lo], [lo+1], ..., [hi-1]. *)
Definition for_range {S : Type} (lo hi : Z) (body : Z -> S -> S) (s : S) : S :=
  iter_from (Z.to_nat (hi - lo)) lo body s.

(** A launch with extents [nby], [nbx], [ntx] for [blockIdx.y], [blockIdx.x]
    and [threadIdx.x]. *)
Definition launch {S : Type} (nby nbx ntx : Z) (body : Z -> Z -> Z -> S -> S) (s : S) : S :=
  for_range 0 nby (fun by_ =>
    for_range 0 nbx (fun bx =>
      for_range 0 ntx (fun tx => body by_ bx tx))) s.

(** [ceil_div]: [tvm.tir.indexdiv(a + b - 1, b)], for operands whose sum
    [a + b - 1] stays within [int32] (see [ceil_div_int32] for the range). *)
Definition ceil_div (a b : Z) : Z := (a + b - 1) / b.

(** ** Exact-rational comparisons as booleans *)

Definition Qgtb (x y : Q) : bool := negb (Qle_bool x y).
Definition Qgeb (x y : Q) : bool := Qle_bool y x.
Definition Qeqb (x y : Q) : bool := Qeq_bool x y.

Lemma Qgtb_true x y : Qgtb x y = true <-> (y < x)%Q.
Proof.
  unfold Qgtb. rewrite negb_true_iff. split; intros H.
  - apply Qnot_le_lt. intros C. apply Qle_bool_iff in C. congruence.
  - destruct (Qle_bool x y) eqn:E; [|reflexivity].
    apply Qle_bool_iff in E. exfalso. revert E. now apply Qlt_not_le.
Qed.

Lemma Qgtb_false x y : Qgtb x y = false <-> (x <= y)%Q.
Proof.
  unfold Qgtb. rewrite negb_false_iff. apply Qle_bool_iff.
Qed.

Lemma Qgeb_true x y : Qgeb x y = true <-> (y <= x)%Q.
Proof. unfold Qgeb. apply Qle_bool_iff. Qed.

Lemma Qgeb_false x y : Qgeb x y = false <-> (x < y)%Q.
Proof.
  unfold Qgeb. split; intros H.
  - apply Qnot_le_lt. intros C. apply Qle_bool_iff in C. congruence.
  - destruct (Qle_bool y x) eqn:E; [|reflexivity].
    apply Qle_bool_iff in E. exfalso. revert E. now apply Qlt_not_le.
Qed.

(** ** Generic loop lemmas *)

Lemma iter_from_app {S} (k1 k2 : nat) i (body : Z -> S -> S) s :
  iter_from (k1 + k2) i body s =
  iter_from k2 (i + Z.of_nat k1) body (iter_from k1 i body s).
Proof.
  revert i s. induction k1 as [|k1 IH]; intros i s.
  - simpl. now rewrite Z.add_0_r.
  - simpl Nat.add. cbn [iter_from]. rewrite IH. f_equal. lia.
Qed.

Lemma for_range_empty {S} lo hi (body : Z -> S -> S) s :
  hi <= lo -> for_range lo hi body s = s.
Proof.
  intros H. unfold for_range.
  replace (Z.to_nat (hi - lo)) with O by lia. reflexivity.
Qed.

Lemma for_range_snoc {S} lo hi (body : Z -> S -> S) s :
  lo <= hi ->
  for_range lo (hi + 1) body s = body hi (for_range lo hi body s).
Proof.
  intros H. unfold for_range.
  replace (Z.to_nat (hi + 1 - lo)) with (Z.to_nat (hi - lo) + 1)%nat by lia.
  rewrite iter_from_app. cbn [iter_from]. f_equal. lia.
Qed.

(** Invariant rule: [P i s] holds before iteration [i]. *)
Lemma for_range_ind {S} (P : Z -> S -> Prop) lo hi (body : Z -> S -> S) s :
  lo <= hi ->
  P lo s ->
  (forall i s', lo <= i < hi -> P i s' -> P (i + 1) (body i s')) ->
  P hi (for_range lo hi body s).
Proof.
  intros Hle H0 Hstep.
  assert (G : forall n : nat, lo + Z.of_nat n <= hi ->
              P (lo + Z.of_nat n) (for_range lo (lo + Z.of_nat n) body s)).
  { induction n as [|n IH]; intros Hn.
    - rewrite Z.add_0_r. now rewrite for_range_empty by lia.
    - replace (lo + Z.of_nat (Datatypes.S n)) with (lo + Z.of_nat n + 1) by lia.
      rewrite for_range_snoc by lia. apply Hstep; [lia|]. apply IH. lia. }
  specialize (G (Z.to_nat (hi - lo))).
  replace (lo + Z.of_nat (Z.to_nat (hi - lo))) with hi in G by lia.
  apply G. lia.
Qed.

(** A property kept by every iteration is kept by the loop. *)
Lemma for_range_keep {S} (R : S -> Prop) lo hi (body : Z -> S -> S) s :
  R s ->
  (forall i s', lo <= i < hi -> R s' -> R (body i s')) ->
  R (for_range lo hi body s).
Proof.
  intros H0 Hstep.
  destruct (Z_le_gt_dec lo hi) as [Hle|Hgt].
  - apply (for_range_ind (fun _ s' => R s') lo hi body s Hle H0). auto.
  - rewrite for_range_empty by lia. exact H0.
Qed.

Lemma for_range_ext {S} lo hi (f g : Z -> S -> S) s :
  (forall i s', lo <= i < hi -> f i s' = g i s') ->
  for_range lo hi f s = for_range lo hi g s.
Proof.
  intros H.
  destruct (Z_le_gt_dec lo hi) as [Hle|Hgt].
  - apply (for_range_ind (fun i s' => s' = for_range lo i g s) lo hi f s Hle).
    + now rewrite for_range_empty by lia.
    + intros i s' Hi ->. rewrite for_range_snoc by lia. now apply H.
  - now rewrite !for_range_empty by lia.
Qed.

(** Threads with disjoint footprints: running them in sequence gives, on
    each thread's footprint, what that thread alone computes from the start
    buffer; everything outside all footprints is untouched.  Every thread may
    also read a [shared] region that no thread writes. *)
Section RaceFree.
Context {A : Type}.
Variable body : Z -> buf A -> buf A.
Variable own : Z -> Z -> Prop.
Variable shared : Z -> Prop.
Variables lo hi : Z.

Hypothesis writes_own :
  forall t b p, lo <= t < hi -> ~ own t p -> body t b p = b p.
Hypothesis reads_own :
  forall t b b' p, lo <= t < hi ->
    (forall q, own t q \/ shared q -> b q = b' q) -> own t p -> body t b p = body t b' p.
Hypothesis disjoint :
  forall t t' p, lo <= t < hi -> lo <= t' < hi -> t <> t' -> own t p -> ~ own t' p.
Hypothesis shared_unowned :
  forall t p, lo <= t < hi -> shared p -> ~ own t p.

Lemma for_range_race_free_shared b :
  forall p,
    (forall t, lo <= t < hi -> own t p -> for_range lo hi body b p = body t b p) /\
    ((forall t, lo <= t < hi -> ~ own t p) -> for_range lo hi body b p = b p).
Proof.
  intros p.
  destruct (Z_le_gt_dec lo hi) as [Hle|Hgt].
  2:{ split; [intros t Ht; lia|]. intros _. now rewrite for_range_empty by lia. }
  pose (P := fun (i : Z) (s : buf A) =>
    forall q,
      (forall t, lo <= t < i -> own t q -> s q = body t b q) /\
      ((forall t, lo <= t < i -> ~ own t q) -> s q = b q)).
  assert (HP : P hi (for_range lo hi body b)).
  { apply for_range_ind; [exact Hle| |].
    - intros q. split; [intros t Ht; lia|reflexivity].
    - intros i s' Hi IH q. split.
      + intros t Ht Hown.
        destruct (Z.eq_dec t i) as [->|Hne].
        * apply reads_own; [lia| |exact Hown].
          intros q' [Hq'|Hq']; apply (proj2 (IH q')); intros t' Ht' C.
          -- apply (disjoint i t' q'); try lia; assumption.
          -- apply (shared_unowned t' q'); try lia; assumption.
        * rewrite writes_own; [|lia|].
          -- apply (proj1 (IH q)); [lia|exact Hown].
          -- apply (disjoint t i q); try lia; assumption.
      + intros Hnone. rewrite writes_own; [|lia|apply Hnone; lia].
        apply (proj2 (IH q)). intros t Ht. apply Hnone. lia. }
  split.
  - intros t Ht Hown. apply (proj1 (HP p)); assumption.
  - intros Hnone. apply (proj2 (HP p)). exact Hnone.
Qed.
End RaceFree.

Lemma for_range_race_free {A} (body : Z -> buf A -> buf A) (own : Z -> Z -> Prop) lo hi :
  (forall t b p, lo <= t < hi -> ~ own t p -> body t b p = b p) ->
  (forall t b b' p, lo <= t < hi ->
     (forall q, own t q -> b q = b' q) -> own t p -> body t b p = body t b' p) ->
  (forall t t' p, lo <= t < hi -> lo <= t' < hi -> t <> t' -> own t p -> ~ own t' p) ->
  forall b p,
    (forall t, lo <= t < hi -> own t p -> for_range lo hi body b p = body t b p) /\
    ((forall t, lo <= t < hi -> ~ own t p) -> for_range lo hi body b p = b p).
Proof.
  intros Hw Hr Hd b p.
  apply (for_range_race_free_shared body own (fun _ => False) lo hi); auto.
Qed.

(** [bx * ntx + tx] for [bx < nbx], [tx < ntx] enumerates [0 .. nbx*ntx-1]. *)
Lemma grid_flatten {S} (nbx ntx : Z) (f : Z -> S -> S) s :
  0 <= nbx -> 0 < ntx ->
  for_range 0 nbx (fun bx => for_range 0 ntx (fun tx => f (bx * ntx + tx))) s =
  for_range 0 (nbx * ntx) f s.
Proof.
  intros Hb Ht.
  apply (for_range_ind
           (fun i s' => s' = for_range 0 (i * ntx) f s) 0 nbx _ s Hb).
  - now rewrite for_range_empty by lia.
  - intros i s' Hi ->.
    assert (Hin : 0 <= i * ntx) by nia.
    replace ((i + 1) * ntx) with (i * ntx + ntx) by lia.
    apply (for_range_ind
             (fun j s'' => s'' = for_range 0 (i * ntx + j) f s) 0 ntx _ _).
    + lia.
    + now rewrite Z.add_0_r.
    + intros j s'' Hj ->. rewrite Z.add_assoc.
      rewrite for_range_snoc by lia. reflexivity.
Qed.

(** ** Index arithmetic *)

Lemma row_index_inj n i i' k k' :
  0 <= k < n -> 0 <= k' < n -> i * n + k = i' * n + k' -> i = i' /\ k = k'.
Proof.
  intros Hk Hk' E.
  assert (i = i') by nia. subst i'. split; [reflexivity|lia].
Qed.

Lemma row_index_neq n i i' k k' :
  0 <= k < n -> 0 <= k' < n -> i <> i' \/ k <> k' -> i * n + k <> i' * n + k'.
Proof.
  intros Hk Hk' H E. destruct (row_index_inj n i i' k k' Hk Hk' E). lia.
Qed.

Lemma ceil_div_covers n m k :
  0 < m -> 0 <= k < n -> k < ceil_div n m * m.
Proof.
  intros Hm Hk. unfold ceil_div.
  pose proof (Z.div_mod (n + m - 1) m ltac:(lia)) as E.
  pose proof (Z.mod_pos_bound (n + m - 1) m Hm) as B.
  nia.
Qed.

Lemma ceil_div_ge n m : 0 < m -> n <= ceil_div n m * m.
Proof.
  intros Hm. unfold ceil_div.
  pose proof (Z.div_mod (n + m - 1) m ltac:(lia)) as E.
  pose proof (Z.mod_pos_bound (n + m - 1) m Hm) as B.
  nia.
Qed.

Lemma ceil_div_nonneg n m : 0 < m -> 0 <= n -> 0 <= ceil_div n m.
Proof. intros Hm Hn. unfold ceil_div. apply Z.div_pos; lia. Qed.

(** An element-wise kernel: thread [(by, tid)] with [tid < n] stores a value
    that depends on the thread alone at [by * n + tid]. *)
Definition elementwise {A} (n mt : Z) (g : Z -> Z -> A) (by_ bx tx : Z) (b : buf A) : buf A :=
  let tid := bx * mt + tx in
  if tid <? n then store b (by_ * n + tid) (g by_ tid) else b.

Lemma elementwise_row {A} n mt nbx (g : Z -> Z -> A) i b :
  0 < mt -> 0 <= nbx -> n <= nbx * mt ->
  let row := for_range 0 nbx
               (fun bx => for_range 0 mt (fun tx => elementwise n mt g i bx tx)) b in
  (forall j, 0 <= j < n -> row (i * n + j) = g i j) /\
  (forall p, (forall j, 0 <= j < n -> p <> i * n + j) -> row p = b p).
Proof.
  intros Hmt Hnbx Hcov row. subst row.
  pose (f := fun tid (b' : buf A) =>
               if tid <? n then store b' (i * n + tid) (g i tid) else b').
  change (fun bx => for_range 0 mt (fun tx => elementwise n mt g i bx tx))
    with (fun bx => for_range 0 mt (fun tx => f (bx * mt + tx))).
  rewrite (grid_flatten nbx mt f b Hnbx Hmt).
  set (N := nbx * mt) in *.
  assert (RF : forall b0 p,
    (forall t, 0 <= t < N -> t < n /\ p = i * n + t -> for_range 0 N f b0 p = f t b0 p) /\
    ((forall t, 0 <= t < N -> ~ (t < n /\ p = i * n + t)) -> for_range 0 N f b0 p = b0 p)).
  { apply (for_range_race_free f (fun t p => t < n /\ p = i * n + t) 0 N).
    - intros t b0 p Ht Hown. unfold f. destruct (t <? n) eqn:E; [|reflexivity].
      apply Z.ltb_lt in E. apply store_neq. intros ->. apply Hown. split; [lia|reflexivity].
    - intros t b0 b1 p Ht Hq [Hlt ->]. unfold f.
      apply Z.ltb_lt in Hlt. rewrite Hlt. now rewrite !store_eq.
    - intros t t' p Ht Ht' Hne [Hlt ->] [Hlt' E]. lia. }
  split.
  - intros j Hj.
    rewrite (proj1 (RF b (i * n + j)) j).
    + unfold f. replace (j <? n) with true by (symmetry; apply Z.ltb_lt; lia).
      apply store_eq.
    + lia.
    + split; [lia|reflexivity].
  - intros p Hp. apply (proj2 (RF b p)).
    intros t Ht [Hlt ->]. apply (Hp t); [lia|reflexivity].
Qed.

Lemma elementwise_launch {A} batch n mt nbx (g : Z -> Z -> A) b :
  0 < mt -> 0 <= nbx -> n <= nbx * mt ->
  let r := launch batch nbx mt (elementwise n mt g) b in
  (forall i j, 0 <= i < batch -> 0 <= j < n -> r (i * n + j) = g i j) /\
  (forall p, (forall i j, 0 <= i < batch -> 0 <= j < n -> p <> i * n + j) -> r p = b p).
Proof.
  intros Hmt Hnbx Hcov r. subst r. unfold launch.
  set (rowf := fun i (b' : buf A) =>
     for_range 0 nbx
       (fun bx => for_range 0 mt (fun tx => elementwise n mt g i bx tx)) b').
  assert (RF : forall b0 p,
    (forall t, 0 <= t < batch -> (exists j, 0 <= j < n /\ p = t * n + j) ->
               for_range 0 batch rowf b0 p = rowf t b0 p) /\
    ((forall t, 0 <= t < batch -> ~ (exists j, 0 <= j < n /\ p = t * n + j)) ->
               for_range 0 batch rowf b0 p = b0 p)).
  { apply (for_range_race_free rowf
             (fun i p => exists j, 0 <= j < n /\ p = i * n + j) 0 batch).
    - intros t b0 p Ht Hown. unfold rowf.
      apply (proj2 (elementwise_row n mt nbx g t b0 Hmt Hnbx Hcov)).
      intros j Hj ->. apply Hown. exists j. auto.
    - intros t b0 b1 p Ht Hq [j [Hj ->]]. unfold rowf.
      rewrite (proj1 (elementwise_row n mt nbx g t b0 Hmt Hnbx Hcov) j Hj).
      now rewrite (proj1 (elementwise_row n mt nbx g t b1 Hmt Hnbx Hcov) j Hj).
    - intros t t' p Ht Ht' Hne [j [Hj ->]] [j' [Hj' E]].
      destruct (row_index_inj n t t' j j' Hj Hj' E). lia. }
  split.
  - intros i j Hi Hj.
    rewrite (proj1 (RF b (i * n + j)) i Hi) by (exists j; auto).
    unfold rowf. apply (proj1 (elementwise_row n mt nbx g i b Hmt Hnbx Hcov) j Hj).
  - intros p Hp. apply (proj2 (RF b p)).
    intros t Ht [j [Hj ->]]. apply (Hp t j Ht Hj). reflexivity.
Qed.

(** ** [cuda_atomic_add_rule] *)

Inductive PrimExpr : Type :=
  | Var (name : string)
  | call_pure_extern (dtype func : string) (a b : PrimExpr).

(** The call being lowered: its dtype and its argument array ([op.args]). *)
Record Call : Type := mkCall { call_dtype : string; call_args : list PrimExpr }.

Inductive exn : Type :=
  | RuntimeError (msg : string)
  | IndexError.

Inductive result (A : Type) : Type :=
  | Ok (a : A)
  | Raise (e : exn).
Arguments Ok {A} a.
Arguments Raise {A} e.

(** [op.args[0]], [op.args[1]] passed on to [call_pure_extern]. *)
Definition extern_atomicAdd (dtype : string) (op : Call) : result PrimExpr :=
  match nth_error (call_args op) 0, nth_error (call_args op) 1 with
  | Some x, Some y => Ok (call_pure_extern dtype "atomicAdd" x y)
  | _, _ => Raise IndexError
  end.

Definition cuda_atomic_add_rule (op : Call) : result PrimExpr :=
  if String.eqb (call_dtype op) "float32" then extern_atomicAdd "float32" op
  else if String.eqb (call_dtype op) "float64" then extern_atomicAdd "float64" op
  else if String.eqb (call_dtype op) "int32" then extern_atomicAdd "int32" op
  else Raise (RuntimeError "only support int32, float32 and float64").

(** ** [get_valid_boxes_ir] *)

(** One thread of the kernel; [valid_boxes] is the buffer being written. *)
Definition get_valid_boxes_thread (data : buf Q) (score_threshold : Q)
    (id_index score_index : Z) (num_anchors elem_length max_threads : Z)
    (by_ bx tx : Z) (valid_boxes : buf Z) : buf Z :=
  let tid := bx * max_threads + tx in
  if tid <? num_anchors then
    let i := by_ in
    let j := tid in
    let score := data ((i * num_anchors + j) * elem_length + score_index) in
    if Qgtb score score_threshold
       && ((id_index <? 0)
           || Qgeb (data ((i * num_anchors + j) * elem_length + id_index)) 0)
    then store valid_boxes (i * num_anchors + j) 1
    else store valid_boxes (i * num_anchors + j) 0
  else valid_boxes.

Definition get_valid_boxes_ir (data : buf Q) (valid_boxes : buf Z)
    (score_threshold : Q) (id_index score_index : Z)
    (batch_size num_anchors elem_length max_threads : Z) : buf Z :=
  let nthread_tx := max_threads in
  let nthread_bx := ceil_div num_anchors max_threads in
  let nthread_by := batch_size in
  launch nthread_by nthread_bx nthread_tx
    (get_valid_boxes_thread data score_threshold id_index score_index
       num_anchors elem_length max_threads)
    valid_boxes.

(** The flag thread [(i, j)] computes. *)
Definition valid_flag (data : buf Q) (score_threshold : Q)
    (id_index score_index num_anchors elem_length i j : Z) : Z :=
  if Qgtb (data ((i * num_anchors + j) * elem_length + score_index)) score_threshold
     && ((id_index <? 0)
         || Qgeb (data ((i * num_anchors + j) * elem_length + id_index)) 0)
  then 1 else 0.

Lemma launch_ext {S} nby nbx ntx (f g : Z -> Z -> Z -> S -> S) s :
  (forall by_ bx tx s', f by_ bx tx s' = g by_ bx tx s') ->
  launch nby nbx ntx f s = launch nby nbx ntx g s.
Proof.
  intros H. unfold launch.
  apply for_range_ext. intros by_ s1 _.
  apply for_range_ext. intros bx s2 _.
  apply for_range_ext. intros tx s3 _. apply H.
Qed.

Lemma get_valid_boxes_ir_flag data vb thr id_index score_index batch n elem mt i j :
  0 < mt -> 0 <= i < batch -> 0 <= j < n ->
  get_valid_boxes_ir data vb thr id_index score_index batch n elem mt (i * n + j)
  = valid_flag data thr id_index score_index n elem i j.
Proof.
  intros Hmt Hi Hj. unfold get_valid_boxes_ir.
  rewrite (launch_ext _ _ _ _
             (elementwise n mt (valid_flag data thr id_index score_index n elem))).
  - apply (proj1 (elementwise_launch batch n mt (ceil_div n mt) _ vb Hmt
                    (ceil_div_nonneg n mt Hmt ltac:(lia)) (ceil_div_ge n mt Hmt)));
      assumption.
  - intros by_ bx tx s'. unfold get_valid_boxes_thread, elementwise, valid_flag.
    destruct (bx * mt + tx <? n); [|reflexivity].
    match goal with |- context [if ?c then store _ _ 1 else _] => destruct c end;
      reflexivity.
Qed.

(** ** Kernels whose threads own a block of a row

    Thread [(by, tid)] reads and writes only the positions [by * n + k] with
    [k] in the block [width * tid <= k < width * tid + width], [k < n]. *)

Lemma div_block w t k : 0 < w -> w * t <= k < w * t + w -> k / w = t.
Proof. intros Hw Hk. symmetry. apply (Z.div_unique k w t (k - w * t)); lia. Qed.

Lemma block_of w k : 0 < w -> w * (k / w) <= k < w * (k / w) + w.
Proof.
  intros Hw. pose proof (Z.div_mod k w ltac:(lia)).
  pose proof (Z.mod_pos_bound k w Hw). lia.
Qed.

Section BlockKernel.
Variables n mt w batch : Z.
Variable g : Z -> Z -> buf Z -> buf Z.
Hypothesis mt_pos : 0 < mt.
Hypothesis w_pos : 0 < w.
Hypothesis n_nonneg : 0 <= n.

Hypothesis g_writes : forall i t b p, 0 <= t ->
  (forall k, 0 <= k < n -> w * t <= k < w * t + w -> p <> i * n + k) ->
  g i t b p = b p.
Hypothesis g_reads : forall i t b b' k, 0 <= t ->
  0 <= k < n -> w * t <= k < w * t + w ->
  (forall k', 0 <= k' < n -> w * t <= k' < w * t + w -> b (i * n + k') = b' (i * n + k')) ->
  g i t b (i * n + k) = g i t b' (i * n + k).

Definition block_row (i : Z) (b : buf Z) : buf Z :=
  for_range 0 (ceil_div n (mt * w))
    (fun bx => for_range 0 mt (fun tx => g i (bx * mt + tx))) b.

Lemma block_row_spec i b :
  (forall k, 0 <= k < n -> block_row i b (i * n + k) = g i (k / w) b (i * n + k)) /\
  (forall p, (forall k, 0 <= k < n -> p <> i * n + k) -> block_row i b p = b p).
Proof.
  unfold block_row.
  assert (Hc : 0 <= ceil_div n (mt * w)) by (apply ceil_div_nonneg; nia).
  rewrite (grid_flatten (ceil_div n (mt * w)) mt (g i) b Hc mt_pos).
  set (N := ceil_div n (mt * w) * mt).
  pose (own := fun t p => exists k, 0 <= k < n /\ w * t <= k < w * t + w /\ p = i * n + k).
  assert (RF : forall b0 p,
    (forall t, 0 <= t < N -> own t p -> for_range 0 N (g i) b0 p = g i t b0 p) /\
    ((forall t, 0 <= t < N -> ~ own t p) -> for_range 0 N (g i) b0 p = b0 p)).
  { apply for_range_race_free.
    - intros t b0 p Ht Hown. apply g_writes; [lia|].
      intros k Hk Hb ->. apply Hown. exists k. auto.
    - intros t b0 b1 p Ht Hq [k [Hk [Hb ->]]]. apply g_reads; try lia.
      intros k' Hk' Hb'. apply Hq. exists k'. auto.
    - intros t t' p Ht Ht' Hne [k [Hk [Hb ->]]] [k' [Hk' [Hb' E]]].
      destruct (row_index_inj n i i k k' Hk Hk' E) as [_ ->]. nia. }
  split.
  - intros k Hk. apply (proj1 (RF b (i * n + k))).
    + pose proof (block_of w k w_pos).
      split; [apply Z.div_pos; lia|].
      apply Z.div_lt_upper_bound; [lia|].
      pose proof (ceil_div_covers n (mt * w) k ltac:(nia) Hk). unfold N. nia.
    + exists k. pose proof (block_of w k w_pos). auto.
  - intros p Hp. apply (proj2 (RF b p)).
    intros t Ht [k [Hk [_ ->]]]. apply (Hp k Hk). reflexivity.
Qed.

Lemma block_launch_spec b :
  let r := launch batch (ceil_div n (mt * w)) mt
             (fun by_ bx tx => g by_ (bx * mt + tx)) b in
  (forall i k, 0 <= i < batch -> 0 <= k < n ->
     r (i * n + k) = g i (k / w) b (i * n + k)) /\
  (forall p, (forall i k, 0 <= i < batch -> 0 <= k < n -> p <> i * n + k) -> r p = b p).
Proof.
  intros r. subst r. unfold launch. fold block_row.
  change (fun by_ => for_range 0 (ceil_div n (mt * w))
            (fun bx => for_range 0 mt (fun tx => g by_ (bx * mt + tx))))
    with block_row.
  pose (own := fun i p => exists k, 0 <= k < n /\ p = i * n + k).
  assert (RF : forall b0 p,
    (forall t, 0 <= t < batch -> own t p -> for_range 0 batch block_row b0 p = block_row t b0 p) /\
    ((forall t, 0 <= t < batch -> ~ own t p) -> for_range 0 batch block_row b0 p = b0 p)).
  { apply for_range_race_free.
    - intros t b0 p Ht Hown. apply (proj2 (block_row_spec t b0)).
      intros k Hk ->. apply Hown. exists k. auto.
    - intros t b0 b1 p Ht Hq [k [Hk ->]].
      rewrite (proj1 (block_row_spec t b0) k Hk).
      rewrite (proj1 (block_row_spec t b1) k Hk).
      pose proof (block_of w k w_pos).
      apply g_reads; try lia.
      + apply Z.div_pos; lia.
      + intros k' Hk' _. apply Hq. exists k'. auto.
    - intros t t' p Ht Ht' Hne [k [Hk ->]] [k' [Hk' E]].
      destruct (row_index_inj n t t' k k' Hk Hk' E). lia. }
  split.
  - intros i k Hi Hk.
    rewrite (proj1 (RF b (i * n + k)) i Hi) by (exists k; auto).
    apply (proj1 (block_row_spec i b) k Hk).
  - intros p Hp. apply (proj2 (RF b p)).
    intros t Ht [k [Hk ->]]. apply (Hp t k Ht Hk). reflexivity.
Qed.
End BlockKernel.

(** ** [get_valid_indices_ir] *)

(** "Copy boxes to valid_indices". *)
Definition copy_thread (valid_boxes : buf Z) (num_anchors nthread_tx : Z)
    (by_ bx tx : Z) (valid_indices : buf Z) : buf Z :=
  let tid := bx * nthread_tx + tx in
  if tid <? num_anchors then
    store valid_indices (by_ * num_anchors + tid) (valid_boxes (by_ * num_anchors + tid))
  else valid_indices.

(** One thread of an up-sweep level. *)
Definition up_sweep_thread (num_anchors nthread_tx width : Z)
    (by_ bx tx : Z) (valid_indices : buf Z) : buf Z :=
  let tid := bx * nthread_tx + tx in
  let start := width * tid in
  if start <? num_anchors then
    let middle := start + width / 2 in
    let end_ := Z.min (start + width) num_anchors in
    if middle <? num_anchors then
      store valid_indices (by_ * num_anchors + end_ - 1)
        (add32 (valid_indices (by_ * num_anchors + end_ - 1))
               (valid_indices (by_ * num_anchors + middle - 1)))
    else valid_indices
  else valid_indices.

(** The thread between the sweeps: save the row total, zero the last slot. *)
Definition total_thread (batch_size num_anchors : Z) (bx : Z)
    (s : buf Z * buf Z) : buf Z * buf Z :=
  let '(valid_count, valid_indices) := s in
  if bx <? batch_size then
    (store valid_count bx (valid_indices ((bx + 1) * num_anchors - 1)),
     store valid_indices ((bx + 1) * num_anchors - 1) 0)
  else s.

(** One thread of a down-sweep level. *)
Definition down_sweep_thread (num_anchors nthread_tx width : Z)
    (by_ bx tx : Z) (valid_indices : buf Z) : buf Z :=
  let tid := bx * nthread_tx + tx in
  let start := width * tid in
  if start <? num_anchors then
    let middle := start + width / 2 in
    let end_ := Z.min (start + width) num_anchors in
    if middle <? num_anchors then
      let tmp := valid_indices (by_ * num_anchors + middle - 1) in
      let valid_indices1 :=
        store valid_indices (by_ * num_anchors + middle - 1)
          (valid_indices (by_ * num_anchors + end_ - 1)) in
      store valid_indices1 (by_ * num_anchors + end_ - 1)
        (add32 (valid_indices1 (by_ * num_anchors + end_ - 1)) tmp)
    else valid_indices
  else valid_indices.

(** The whole routine: returns the final [(valid_count, valid_indices)].
    [lim] is [ceil(log2(num_anchors))]. *)
Definition get_valid_indices_ir (valid_boxes valid_count valid_indices : buf Z)
    (batch_size num_anchors max_threads : Z) : buf Z * buf Z :=
  if 0 <? num_anchors then
    let nthread_tx := max_threads in
    let nthread_bx := ceil_div num_anchors max_threads in
    let nthread_by := batch_size in
    let valid_indices :=
      launch nthread_by nthread_bx nthread_tx
        (copy_thread valid_boxes num_anchors nthread_tx) valid_indices in
    let lim := Z.log2_up num_anchors in
    let valid_indices :=
      for_range 0 lim (fun l2_width vi =>
        let width := Z.shiftl 2 l2_width in
        launch nthread_by (ceil_div num_anchors (max_threads * width)) nthread_tx
          (up_sweep_thread num_anchors nthread_tx width) vi) valid_indices in
    let '(valid_count, valid_indices) :=
      for_range 0 batch_size (total_thread batch_size num_anchors)
        (valid_count, valid_indices) in
    let valid_indices :=
      for_range 0 lim (fun l2_width vi =>
        let width := Z.shiftl 2 (lim - l2_width - 1) in
        launch nthread_by (ceil_div num_anchors (max_threads * width)) nthread_tx
          (down_sweep_thread num_anchors nthread_tx width) vi) valid_indices in
    (valid_count, valid_indices)
  else
    (for_range 0 batch_size (fun bx vc => if bx <? batch_size then store vc bx 0 else vc)
       valid_count,
     valid_indices).

(** *** Prefix sums and counts *)

Fixpoint sum_to (f : Z -> Z) (k : nat) : Z :=
  match k with
  | O => 0
  | Datatypes.S k' => sum_to f k' + f (Z.of_nat k')
  end.

(** [prefix_sum f j] is the sum of [f i] over [0 <= i < j]. *)
Definition prefix_sum (f : Z -> Z) (j : Z) : Z := sum_to f (Z.to_nat j).

(** Number of indices [0 <= i < j] whose flag is [1]. *)
Definition count_valid (f : Z -> Z) (j : Z) : Z :=
  Z.of_nat (List.length
    (List.filter (fun i => f i =? 1) (List.map Z.of_nat (List.seq 0 (Z.to_nat j))))).

(** Row [i] of a [batch x n] buffer. *)
Definition row_of {A} (b : buf A) (n i : Z) : Z -> A := fun k => b (i * n + k).

Lemma prefix_sum_0 f : prefix_sum f 0 = 0.
Proof. reflexivity. Qed.

Lemma prefix_sum_succ f j : 0 <= j -> prefix_sum f (j + 1) = prefix_sum f j + f j.
Proof.
  intros Hj. unfold prefix_sum.
  replace (Z.to_nat (j + 1)) with (Datatypes.S (Z.to_nat j)) by lia.
  cbn [sum_to]. now rewrite Z2Nat.id by lia.
Qed.

Lemma prefix_sum_mono f n a b :
  (forall k, 0 <= k < n -> f k = 0 \/ f k = 1) ->
  0 <= a <= b -> b <= n ->
  0 <= prefix_sum f b - prefix_sum f a <= b - a.
Proof.
  intros H01 Hab Hb.
  assert (G : forall d : nat, a + Z.of_nat d <= n ->
              0 <= prefix_sum f (a + Z.of_nat d) - prefix_sum f a <= Z.of_nat d).
  { induction d as [|d IH]; intros Hd.
    - rewrite Z.add_0_r. lia.
    - replace (a + Z.of_nat (Datatypes.S d)) with (a + Z.of_nat d + 1) by lia.
      rewrite prefix_sum_succ by lia.
      specialize (IH ltac:(lia)).
      destruct (H01 (a + Z.of_nat d) ltac:(lia)); lia. }
  specialize (G (Z.to_nat (b - a))).
  replace (a + Z.of_nat (Z.to_nat (b - a))) with b in G by lia.
  lia.
Qed.

Lemma prefix_sum_count f n j :
  (forall k, 0 <= k < n -> f k = 0 \/ f k = 1) ->
  0 <= j <= n -> prefix_sum f j = count_valid f j.
Proof.
  intros H01 Hj. unfold prefix_sum, count_valid.
  assert (G : forall d : nat, Z.of_nat d <= n ->
    sum_to f d =
    Z.of_nat (List.length (List.filter (fun i => f i =? 1)
                             (List.map Z.of_nat (List.seq 0 d))))).
  { induction d as [|d IH]; intros Hd; [reflexivity|].
    rewrite seq_S, map_app, filter_app, length_app. cbn [sum_to].
    rewrite IH by lia. cbn [Nat.add List.map List.filter].
    destruct (H01 (Z.of_nat d) ltac:(lia)) as [E|E]; rewrite E; cbn; lia. }
  apply G. lia.
Qed.

(** *** Powers of two *)

Lemma shiftl_2 l : 0 <= l -> Z.shiftl 2 l = 2 * 2 ^ l.
Proof. intros Hl. now rewrite Z.shiftl_mul_pow2 by lia. Qed.

Lemma pow2_pos l : 0 <= l -> 0 < 2 ^ l.
Proof. intros. apply Z.pow_pos_nonneg; lia. Qed.

Lemma pow2_succ l : 0 <= l -> 2 ^ (l + 1) = 2 * 2 ^ l.
Proof. intros. rewrite Z.pow_add_r by lia. lia. Qed.

Lemma pow2_odd_ne k j s u : 0 <= k < j -> 2 ^ k * (2 * s + 1) <> 2 ^ j * u.
Proof.
  intros Hk E.
  replace j with (k + ((j - k - 1) + 1)) in E by lia.
  rewrite Z.pow_add_r in E by lia.
  rewrite pow2_succ in E by lia.
  pose proof (pow2_pos k ltac:(lia)) as Hp.
  set (c := 2 ^ (j - k - 1)) in *.
  assert (E' : 2 ^ k * (2 * s + 1) = 2 ^ k * (2 * (c * u))) by lia.
  apply Z.mul_reg_l in E'; lia.
Qed.

Lemma log2_up_bound n : 0 < n -> n <= 2 ^ Z.log2_up n.
Proof.
  intros Hn. destruct (Z.eq_dec n 1) as [->|Hne]; [cbn; lia|].
  apply Z.log2_up_spec. lia.
Qed.

(** *** The invariants of the two sweeps, on one row

    [m] is the row of the mask, [v] the row of [valid_indices], [n] the row
    length.  After the levels of width [2 .. 2^l] of the up-sweep, the last
    position of every block of size [2^l] holds the block's sum, and the left
    halves of the blocks of the finished levels still hold theirs. *)

Definition seg (m : Z -> Z) (a b : Z) : Z := prefix_sum m b - prefix_sum m a.

Definition left_sums (m v : Z -> Z) (n l : Z) : Prop :=
  forall k s p, 0 <= k < l -> 0 <= s -> p = 2 ^ k * (2 * s + 1) -> p < n ->
    v (p - 1) = seg m (p - 2 ^ k) p.

Definition up_inv (m v : Z -> Z) (n l : Z) : Prop :=
  (forall t a e, 0 <= t -> a = 2 ^ l * t -> a < n -> e = Z.min (a + 2 ^ l) n ->
     v (e - 1) = seg m a e) /\
  left_sums m v n l.

Definition down_inv (m v : Z -> Z) (n l : Z) : Prop :=
  (forall t a e, 0 <= t -> a = 2 ^ l * t -> a < n -> e = Z.min (a + 2 ^ l) n ->
     v (e - 1) = prefix_sum m a) /\
  left_sums m v n l.

Definition mask01 (m : Z -> Z) (n : Z) : Prop :=
  forall k, 0 <= k < n -> m k = 0 \/ m k = 1.

Lemma up_inv_step m v v' n l :
  0 <= l -> n < 2 ^ 31 -> mask01 m n -> up_inv m v n l ->
  (forall k t, 0 <= k < n -> 0 <= t ->
     2 * 2 ^ l * t <= k < 2 * 2 ^ l * t + 2 * 2 ^ l ->
     v' k = if (2 * 2 ^ l * t + 2 ^ l <? n)
               && (k =? Z.min (2 * 2 ^ l * t + 2 * 2 ^ l) n - 1)
            then add32 (v k) (v (2 * 2 ^ l * t + 2 ^ l - 1)) else v k) ->
  up_inv m v' n (l + 1).
Proof.
  intros Hl Hn H01 [U1 U2] Hv'.
  pose proof (pow2_pos l Hl) as HB.
  unfold up_inv, left_sums. rewrite pow2_succ by lia.
  set (B := 2 ^ l) in *.
  split.
  - intros t a e Ht Ha Hlt He.
    rewrite (Hv' (e - 1) t) by lia.
    destruct (2 * B * t + B <? n) eqn:Em.
    + apply Z.ltb_lt in Em.
      replace (e - 1 =? Z.min (2 * B * t + 2 * B) n - 1) with true
        by (symmetry; apply Z.eqb_eq; lia).
      cbn [andb].
      rewrite (U1 (2 * t + 1) (a + B) e) by lia.
      replace (2 * B * t + B - 1) with ((a + B) - 1) by lia.
      rewrite (U1 (2 * t) a (a + B)) by lia.
      unfold add32, seg.
      pose proof (prefix_sum_mono m n a e H01 ltac:(lia) ltac:(lia)).
      rewrite wrap32_small by lia. lia.
    + apply Z.ltb_ge in Em. cbn [andb].
      apply (U1 (2 * t) a e); lia.
  - intros k s p Hk Hs Hp Hlt.
    pose proof (pow2_pos k ltac:(lia)) as Hpk.
    assert (Hp1 : 1 <= p) by nia.
    pose proof (block_of (2 * B) (p - 1) ltac:(lia)) as Hblk.
    assert (Ht : 0 <= (p - 1) / (2 * B)) by (apply Z.div_pos; lia).
    set (t := (p - 1) / (2 * B)) in *.
    rewrite (Hv' (p - 1) t) by lia.
    replace (p - 1 =? Z.min (2 * B * t + 2 * B) n - 1) with false.
    2:{ symmetry. apply Z.eqb_neq. intros E.
        assert (E' : p = 2 * B * t + 2 * B) by lia.
        apply (pow2_odd_ne k (l + 1) s (t + 1)); [lia|].
        rewrite pow2_succ by lia. fold B. lia. }
    rewrite andb_false_r.
    destruct (Z.eq_dec k l) as [->|Hne].
    + fold B in Hp. fold B.
      replace (p - 1) with ((p - B + B) - 1) at 1 by lia.
      replace p with (p - B + B) at 3 by lia.
      apply (U1 (2 * s) (p - B) (p - B + B)); lia.
    + apply (U2 k s p); lia.
Qed.

Lemma down_inv_step m v v' n l :
  0 <= l -> n < 2 ^ 31 -> mask01 m n -> down_inv m v n (l + 1) ->
  (forall k t, 0 <= k < n -> 0 <= t ->
     2 * 2 ^ l * t <= k < 2 * 2 ^ l * t + 2 * 2 ^ l ->
     v' k = if 2 * 2 ^ l * t + 2 ^ l <? n then
              if k =? Z.min (2 * 2 ^ l * t + 2 * 2 ^ l) n - 1
              then add32 (v k) (v (2 * 2 ^ l * t + 2 ^ l - 1))
              else if k =? 2 * 2 ^ l * t + 2 ^ l - 1
                   then v (Z.min (2 * 2 ^ l * t + 2 * 2 ^ l) n - 1)
                   else v k
            else v k) ->
  down_inv m v' n l.
Proof.
  intros Hl Hn H01 [D1 D2] Hv'.
  pose proof (pow2_pos l Hl) as HB.
  unfold down_inv, left_sums in *. rewrite pow2_succ in D1 by lia.
  set (B := 2 ^ l) in *.
  split.
  - intros t a e Ht Ha Hlt He.
    destruct (Z.Even_or_Odd t) as [[u Hu]|[u Hu]]; subst t.
    + (* left half of block [u] *)
      rewrite (Hv' (e - 1) u) by lia.
      destruct (2 * B * u + B <? n) eqn:Em.
      * apply Z.ltb_lt in Em.
        replace (e - 1 =? Z.min (2 * B * u + 2 * B) n - 1) with false
          by (symmetry; apply Z.eqb_neq; lia).
        replace (e - 1 =? 2 * B * u + B - 1) with true
          by (symmetry; apply Z.eqb_eq; lia).
        apply (D1 u a); lia.
      * apply Z.ltb_ge in Em. apply (D1 u a e); lia.
    + (* right half of block [u] *)
      rewrite (Hv' (e - 1) u) by lia.
      replace (2 * B * u + B <? n) with true by (symmetry; apply Z.ltb_lt; lia).
      replace (e - 1 =? Z.min (2 * B * u + 2 * B) n - 1) with true
        by (symmetry; apply Z.eqb_eq; lia).
      rewrite (D1 u (a - B) e) by lia.
      replace (2 * B * u + B - 1) with (a - 1) by lia.
      rewrite (D2 l u a) by (fold B; lia). fold B.
      unfold add32, seg.
      pose proof (prefix_sum_mono m n 0 a H01 ltac:(lia) ltac:(lia)).
      rewrite prefix_sum_0 in *.
      rewrite wrap32_small by lia. lia.
  - intros k s p Hk Hs Hp Hlt.
    pose proof (pow2_pos k ltac:(lia)) as Hpk.
    assert (Hp1 : 1 <= p) by nia.
    pose proof (block_of (2 * B) (p - 1) ltac:(lia)) as Hblk.
    assert (Ht : 0 <= (p - 1) / (2 * B)) by (apply Z.div_pos; lia).
    set (t := (p - 1) / (2 * B)) in *.
    rewrite (Hv' (p - 1) t) by lia.
    replace (p - 1 =? Z.min (2 * B * t + 2 * B) n - 1) with false.
    2:{ symmetry. apply Z.eqb_neq. intros E.
        assert (E' : p = 2 * B * t + 2 * B) by lia.
        apply (pow2_odd_ne k (l + 1) s (t + 1)); [lia|].
        rewrite pow2_succ by lia. fold B. lia. }
    replace (p - 1 =? 2 * B * t + B - 1) with false.
    2:{ symmetry. apply Z.eqb_neq. intros E.
        apply (pow2_odd_ne k l s (2 * t + 1)); [lia|]. fold B. lia. }
    destruct (2 * B * t + B <? n); apply (D2 k s p); lia.
Qed.

Lemma down_inv_final m v n : down_inv m v n 0 ->
  forall j, 0 <= j < n -> v j = prefix_sum m j.
Proof.
  intros [D1 _] j Hj. change (2 ^ 0) with 1 in D1.
  replace j with ((j + 1) - 1) at 1 by lia.
  apply (D1 j j (j + 1)); lia.
Qed.

(** *** The sweep threads as block kernels *)

Lemma half_width B : (2 * B) / 2 = B.
Proof. rewrite Z.mul_comm. apply Z.div_mul. lia. Qed.

Definition up_g (n w : Z) : Z -> Z -> buf Z -> buf Z :=
  fun by_ tid vi => up_sweep_thread n 1 w by_ tid 0 vi.

Definition down_g (n w : Z) : Z -> Z -> buf Z -> buf Z :=
  fun by_ tid vi => down_sweep_thread n 1 w by_ tid 0 vi.

Lemma up_sweep_thread_g n mt w by_ bx tx vi :
  up_sweep_thread n mt w by_ bx tx vi = up_g n w by_ (bx * mt + tx) vi.
Proof.
  unfold up_g, up_sweep_thread.
  replace ((bx * mt + tx) * 1 + 0) with (bx * mt + tx) by lia. reflexivity.
Qed.

Lemma down_sweep_thread_g n mt w by_ bx tx vi :
  down_sweep_thread n mt w by_ bx tx vi = down_g n w by_ (bx * mt + tx) vi.
Proof.
  unfold down_g, down_sweep_thread.
  replace ((bx * mt + tx) * 1 + 0) with (bx * mt + tx) by lia. reflexivity.
Qed.

Lemma up_g_eval n B i t b k :
  up_g n (2 * B) i t b (i * n + k) =
  if (2 * B * t <? n) && (2 * B * t + B <? n)
     && (k =? Z.min (2 * B * t + 2 * B) n - 1)
  then add32 (b (i * n + (Z.min (2 * B * t + 2 * B) n - 1)))
             (b (i * n + (2 * B * t + B - 1)))
  else b (i * n + k).
Proof.
  unfold up_g, up_sweep_thread. rewrite half_width.
  replace (t * 1 + 0) with t by lia.
  destruct (2 * B * t <? n); [|reflexivity].
  destruct (2 * B * t + B <? n); [|reflexivity].
  cbn [andb]. unfold store.
  replace (i * n + k =? i * n + Z.min (2 * B * t + 2 * B) n - 1)
    with (k =? Z.min (2 * B * t + 2 * B) n - 1).
  2:{ destruct (k =? Z.min (2 * B * t + 2 * B) n - 1) eqn:E; symmetry.
      - apply Z.eqb_eq in E. apply Z.eqb_eq. lia.
      - apply Z.eqb_neq in E. apply Z.eqb_neq. lia. }
  destruct (k =? _); [|reflexivity].
  f_equal; f_equal; lia.
Qed.

Lemma up_g_outside n B i t b p :
  0 < B -> 0 <= t ->
  (forall k, 0 <= k < n -> 2 * B * t <= k < 2 * B * t + 2 * B -> p <> i * n + k) ->
  up_g n (2 * B) i t b p = b p.
Proof.
  intros HB Ht Hp. unfold up_g, up_sweep_thread. rewrite half_width.
  replace (t * 1 + 0) with t by lia.
  destruct (2 * B * t <? n) eqn:E1; [|reflexivity].
  destruct (2 * B * t + B <? n) eqn:E2; [|reflexivity].
  apply Z.ltb_lt in E1. apply store_neq.
  assert (0 <= 2 * B * t) by nia.
  intros ->. apply (Hp (Z.min (2 * B * t + 2 * B) n - 1)); lia.
Qed.

Lemma down_g_eval n B i t b k :
  0 < B ->
  down_g n (2 * B) i t b (i * n + k) =
  if (2 * B * t <? n) && (2 * B * t + B <? n) then
    if k =? Z.min (2 * B * t + 2 * B) n - 1
    then add32 (b (i * n + (Z.min (2 * B * t + 2 * B) n - 1)))
               (b (i * n + (2 * B * t + B - 1)))
    else if k =? 2 * B * t + B - 1
         then b (i * n + (Z.min (2 * B * t + 2 * B) n - 1))
         else b (i * n + k)
  else b (i * n + k).
Proof.
  intros HB.
  unfold down_g, down_sweep_thread. rewrite half_width.
  replace (t * 1 + 0) with t by lia.
  destruct (2 * B * t <? n); [|reflexivity].
  destruct (2 * B * t + B <? n) eqn:Em; [|reflexivity].
  apply Z.ltb_lt in Em.
  cbn [andb]. unfold store.
  replace (i * n + k =? i * n + Z.min (2 * B * t + 2 * B) n - 1)
    with (k =? Z.min (2 * B * t + 2 * B) n - 1).
  2:{ destruct (k =? Z.min (2 * B * t + 2 * B) n - 1) eqn:E; symmetry.
      - apply Z.eqb_eq in E. apply Z.eqb_eq. lia.
      - apply Z.eqb_neq in E. apply Z.eqb_neq. lia. }
  replace (i * n + k =? i * n + (2 * B * t + B) - 1)
    with (k =? 2 * B * t + B - 1).
  2:{ destruct (k =? 2 * B * t + B - 1) eqn:E; symmetry.
      - apply Z.eqb_eq in E. apply Z.eqb_eq. lia.
      - apply Z.eqb_neq in E. apply Z.eqb_neq. lia. }
  replace (i * n + Z.min (2 * B * t + 2 * B) n - 1 =? i * n + (2 * B * t + B) - 1)
    with false by (symmetry; apply Z.eqb_neq; lia).
  destruct (k =? Z.min _ _ - 1).
  - f_equal; f_equal; lia.
  - destruct (k =? _); f_equal; lia.
Qed.

Lemma down_g_outside n B i t b p :
  0 < B -> 0 <= t ->
  (forall k, 0 <= k < n -> 2 * B * t <= k < 2 * B * t + 2 * B -> p <> i * n + k) ->
  down_g n (2 * B) i t b p = b p.
Proof.
  intros HB Ht Hp. unfold down_g, down_sweep_thread. rewrite half_width.
  replace (t * 1 + 0) with t by lia.
  destruct (2 * B * t <? n) eqn:E1; [|reflexivity].
  destruct (2 * B * t + B <? n) eqn:E2; [|reflexivity].
  apply Z.ltb_lt in E1. apply Z.ltb_lt in E2.
  assert (0 <= 2 * B * t) by nia.
  rewrite store_neq.
  - apply store_neq.
    intros ->. apply (Hp (2 * B * t + B - 1)); lia.
  - intros ->. apply (Hp (Z.min (2 * B * t + 2 * B) n - 1)); lia.
Qed.

Lemma up_g_reads n B i t b b' k :
  0 < B -> 0 <= t -> 0 <= k < n -> 2 * B * t <= k < 2 * B * t + 2 * B ->
  (forall k', 0 <= k' < n -> 2 * B * t <= k' < 2 * B * t + 2 * B ->
     b (i * n + k') = b' (i * n + k')) ->
  up_g n (2 * B) i t b (i * n + k) = up_g n (2 * B) i t b' (i * n + k).
Proof.
  intros HB Ht Hk Hb Hq. rewrite !up_g_eval.
  assert (0 <= 2 * B * t) by nia.
  destruct (2 * B * t <? n) eqn:E1; [|apply Hq; lia].
  destruct (2 * B * t + B <? n) eqn:E2; [|apply Hq; lia].
  apply Z.ltb_lt in E1. apply Z.ltb_lt in E2. cbn [andb].
  destruct (k =? _); [|apply Hq; lia].
  rewrite !Hq by lia. reflexivity.
Qed.

Lemma down_g_reads n B i t b b' k :
  0 < B -> 0 <= t -> 0 <= k < n -> 2 * B * t <= k < 2 * B * t + 2 * B ->
  (forall k', 0 <= k' < n -> 2 * B * t <= k' < 2 * B * t + 2 * B ->
     b (i * n + k') = b' (i * n + k')) ->
  down_g n (2 * B) i t b (i * n + k) = down_g n (2 * B) i t b' (i * n + k).
Proof.
  intros HB Ht Hk Hb Hq. rewrite !down_g_eval by assumption.
  assert (0 <= 2 * B * t) by nia.
  destruct (2 * B * t <? n) eqn:E1; [|apply Hq; lia].
  destruct (2 * B * t + B <? n) eqn:E2; [|apply Hq; lia].
  apply Z.ltb_lt in E1. apply Z.ltb_lt in E2. cbn [andb].
  destruct (k =? Z.min _ _ - 1); [rewrite !Hq by lia; reflexivity|].
  destruct (k =? _); apply Hq; lia.
Qed.

(** One up-sweep level, on every row. *)
Lemma up_level_spec n mt B batch vi :
  0 < mt -> 0 < B -> 0 <= n ->
  let r := launch batch (ceil_div n (mt * (2 * B))) mt
             (up_sweep_thread n mt (2 * B)) vi in
  forall i k t, 0 <= i < batch -> 0 <= k < n -> 0 <= t ->
    2 * B * t <= k < 2 * B * t + 2 * B ->
    r (i * n + k) =
    if (2 * B * t + B <? n) && (k =? Z.min (2 * B * t + 2 * B) n - 1)
    then add32 (vi (i * n + k)) (vi (i * n + (2 * B * t + B - 1)))
    else vi (i * n + k).
Proof.
  intros Hmt HB Hn r i k t Hi Hk Ht Hb. subst r.
  rewrite (launch_ext _ _ _ _ (fun by_ bx tx => up_g n (2 * B) by_ (bx * mt + tx)))
    by (intros; apply up_sweep_thread_g).
  rewrite (proj1 (block_launch_spec n mt (2 * B) batch (up_g n (2 * B))
                    Hmt ltac:(lia) Hn
                    (fun i t b p Ht => up_g_outside n B i t b p HB Ht)
                    (fun i t b b' k Ht => up_g_reads n B i t b b' k HB Ht)
                    vi) i k Hi Hk).
  rewrite (div_block (2 * B) t k) by lia.
  rewrite up_g_eval.
  replace (2 * B * t <? n) with true by (symmetry; apply Z.ltb_lt; lia).
  cbn [andb].
  destruct (2 * B * t + B <? n); [|reflexivity]. cbn [andb].
  destruct (k =? _) eqn:E; [|reflexivity].
  apply Z.eqb_eq in E. f_equal. f_equal. lia.
Qed.

(** One down-sweep level, on every row. *)
Lemma down_level_spec n mt B batch vi :
  0 < mt -> 0 < B -> 0 <= n ->
  let r := launch batch (ceil_div n (mt * (2 * B))) mt
             (down_sweep_thread n mt (2 * B)) vi in
  forall i k t, 0 <= i < batch -> 0 <= k < n -> 0 <= t ->
    2 * B * t <= k < 2 * B * t + 2 * B ->
    r (i * n + k) =
    if 2 * B * t + B <? n then
      if k =? Z.min (2 * B * t + 2 * B) n - 1
      then add32 (vi (i * n + k)) (vi (i * n + (2 * B * t + B - 1)))
      else if k =? 2 * B * t + B - 1
           then vi (i * n + (Z.min (2 * B * t + 2 * B) n - 1))
           else vi (i * n + k)
    else vi (i * n + k).
Proof.
  intros Hmt HB Hn r i k t Hi Hk Ht Hb. subst r.
  rewrite (launch_ext _ _ _ _ (fun by_ bx tx => down_g n (2 * B) by_ (bx * mt + tx)))
    by (intros; apply down_sweep_thread_g).
  rewrite (proj1 (block_launch_spec n mt (2 * B) batch (down_g n (2 * B))
                    Hmt ltac:(lia) Hn
                    (fun i t b p Ht => down_g_outside n B i t b p HB Ht)
                    (fun i t b b' k Ht => down_g_reads n B i t b b' k HB Ht)
                    vi) i k Hi Hk).
  rewrite (div_block (2 * B) t k) by lia.
  rewrite down_g_eval by assumption.
  replace (2 * B * t <? n) with true by (symmetry; apply Z.ltb_lt; lia).
  cbn [andb].
  destruct (2 * B * t + B <? n); [|reflexivity].
  destruct (k =? Z.min _ _ - 1) eqn:E; [|reflexivity].
  apply Z.eqb_eq in E. f_equal. f_equal. lia.
Qed.

(** *** The whole routine *)

Lemma up_inv_start m v n :
  (forall k, 0 <= k < n -> v k = m k) -> 0 <= n -> up_inv m v n 0.
Proof.
  intros Hv Hn. split.
  - intros t a e Ht Ha Hlt He. change (2 ^ 0) with 1 in *.
    assert (E : e = a + 1) by lia. clear He. subst e. unfold seg.
    rewrite prefix_sum_succ by lia. replace (a + 1 - 1) with a by lia.
    rewrite Hv by lia. lia.
  - intros k s p Hk. lia.
Qed.

Lemma copy_launch_spec mask vi batch n mt i k :
  0 < mt -> 0 <= n -> 0 <= i < batch -> 0 <= k < n ->
  launch batch (ceil_div n mt) mt (copy_thread mask n mt) vi (i * n + k)
  = mask (i * n + k).
Proof.
  intros Hmt Hn Hi Hk.
  rewrite (launch_ext _ _ _ _ (elementwise n mt (fun by_ tid => mask (by_ * n + tid))))
    by reflexivity.
  apply (proj1 (elementwise_launch batch n mt (ceil_div n mt)
                  (fun by_ tid => mask (by_ * n + tid))
                  vi Hmt (ceil_div_nonneg n mt Hmt Hn) (ceil_div_ge n mt Hmt)) i k);
    assumption.
Qed.

Lemma total_threads_spec batch n vc vi :
  0 <= batch -> 0 < n ->
  let r := for_range 0 batch (total_thread batch n) (vc, vi) in
  (forall i, 0 <= i < batch -> fst r i = vi (i * n + (n - 1))) /\
  (forall i k, 0 <= i < batch -> 0 <= k < n ->
     snd r (i * n + k) = if k =? n - 1 then 0 else vi (i * n + k)).
Proof.
  intros Hb Hn r. subst r.
  pose (P := fun (t : Z) (s : buf Z * buf Z) =>
    (forall i, 0 <= i < t -> fst s i = vi (i * n + (n - 1))) /\
    (forall i k, 0 <= i < batch -> 0 <= k < n ->
       snd s (i * n + k) = if (k =? n - 1) && (i <? t) then 0 else vi (i * n + k))).
  assert (HP : P batch (for_range 0 batch (total_thread batch n) (vc, vi))).
  { apply for_range_ind; [exact Hb| |].
    - split; [intros; lia|]. intros i k Hi Hk. cbn [snd].
      replace (i <? 0) with false by (symmetry; apply Z.ltb_ge; lia).
      now rewrite andb_false_r.
    - intros t [vc' vi'] Ht [H1 H2]. unfold total_thread. cbv beta iota.
      replace (t <? batch) with true by (symmetry; apply Z.ltb_lt; lia).
      cbn [fst snd] in *. split; cbn [fst snd].
      + intros i Hi. destruct (Z.eq_dec i t) as [->|Hne].
        * rewrite store_eq.
          replace ((t + 1) * n - 1) with (t * n + (n - 1)) by lia.
          rewrite H2 by lia.
          replace (t <? t) with false by (symmetry; apply Z.ltb_ge; lia).
          now rewrite andb_false_r.
        * rewrite store_neq by lia. apply H1. lia.
      + intros i k Hi Hk.
        replace ((t + 1) * n - 1) with (t * n + (n - 1)) by lia.
        destruct (Z.eq_dec i t) as [->|Hne].
        * destruct (Z.eq_dec k (n - 1)) as [->|Hk'].
          -- rewrite store_eq.
             replace (t <? t + 1) with true by (symmetry; apply Z.ltb_lt; lia).
             now rewrite Z.eqb_refl.
          -- rewrite store_neq by lia. rewrite H2 by lia.
             replace (k =? n - 1) with false by (symmetry; apply Z.eqb_neq; lia).
             reflexivity.
        * rewrite store_neq by (apply row_index_neq; lia).
          rewrite H2 by lia.
          replace (i <? t + 1) with (i <? t); [reflexivity|].
          destruct (i <? t) eqn:E; symmetry.
          -- apply Z.ltb_lt in E. apply Z.ltb_lt. lia.
          -- apply Z.ltb_ge in E. apply Z.ltb_ge. lia. }
  destruct HP as [H1 H2]. split; [exact H1|].
  intros i k Hi Hk. rewrite H2 by assumption.
  replace (i <? batch) with true by (symmetry; apply Z.ltb_lt; lia).
  now rewrite andb_true_r.
Qed.

(** The exclusive scan, in terms of prefix sums of the mask rows. *)
Lemma get_valid_indices_ir_prefix mask vc0 vi0 batch n mt :
  0 < mt -> 0 < n < 2 ^ 31 ->
  (forall i, 0 <= i < batch -> mask01 (row_of mask n i) n) ->
  forall i, 0 <= i < batch ->
    (forall j, 0 <= j < n ->
       snd (get_valid_indices_ir mask vc0 vi0 batch n mt) (i * n + j)
       = prefix_sum (row_of mask n i) j) /\
    fst (get_valid_indices_ir mask vc0 vi0 batch n mt) i
    = prefix_sum (row_of mask n i) n.
Proof.
  intros Hmt Hn H01 i Hi.
  unfold get_valid_indices_ir.
  replace (0 <? n) with true by (symmetry; apply Z.ltb_lt; lia).
  set (lim := Z.log2_up n).
  assert (Hlim : 0 <= lim) by apply Z.log2_up_nonneg.
  assert (Hpow : n <= 2 ^ lim) by (apply log2_up_bound; lia).
  set (vi1 := launch batch (ceil_div n mt) mt (copy_thread mask n mt) vi0).
  set (up := for_range 0 lim _ vi1).
  assert (Hup : forall i', 0 <= i' < batch ->
            up_inv (row_of mask n i') (row_of up n i') n lim).
  { unfold up.
    apply (for_range_ind
             (fun l vi => forall i', 0 <= i' < batch ->
                up_inv (row_of mask n i') (row_of vi n i') n l)); [exact Hlim| |].
    - intros i' Hi'. apply up_inv_start; [|lia].
      intros k Hk. unfold row_of, vi1. apply copy_launch_spec; lia.
    - intros l vi Hl IH i' Hi'. cbv zeta. rewrite shiftl_2 by lia.
      apply (up_inv_step (row_of mask n i') (row_of vi n i')); try lia; auto.
      intros k t Hk Ht Hb. unfold row_of.
      apply (up_level_spec n mt (2 ^ l) batch vi Hmt (pow2_pos l ltac:(lia))
               ltac:(lia) i' k t Hi' Hk Ht Hb). }
  pose proof (total_threads_spec batch n vc0 up ltac:(lia) ltac:(lia)) as Htot.
  cbv zeta in Htot.
  destruct (for_range 0 batch (total_thread batch n) (vc0, up)) as [vc3 vi3].
  cbn [fst snd] in Htot. destruct Htot as [Hvc Hvi].
  set (down := for_range 0 lim _ vi3).
  assert (Hdown : forall i', 0 <= i' < batch ->
            down_inv (row_of mask n i') (row_of down n i') n 0).
  { unfold down.
    assert (G : forall i', 0 <= i' < batch ->
      down_inv (row_of mask n i') (row_of
        (for_range 0 lim (fun l2_width vi =>
           let width := Z.shiftl 2 (lim - l2_width - 1) in
           launch batch (ceil_div n (mt * width)) mt
             (down_sweep_thread n mt width) vi) vi3) n i') n (lim - lim)).
    { apply (for_range_ind
               (fun j vi => forall i', 0 <= i' < batch ->
                  down_inv (row_of mask n i') (row_of vi n i') n (lim - j)));
        [exact Hlim| |].
      - intros i' Hi'. rewrite Z.sub_0_r.
        destruct (Hup i' Hi') as [U1 U2]. split.
        + intros t a e Ht Ha Hlt He.
          pose proof (pow2_pos lim Hlim).
          assert (Et : t = 0) by nia.
          assert (Ea : a = 0) by nia.
          assert (Ee : e = n) by lia.
          clear Ha He. subst t a e.
          unfold row_of. rewrite Hvi by lia.
          rewrite Z.eqb_refl. now rewrite prefix_sum_0.
        + intros k s p Hk Hs Hp Hlt.
          pose proof (pow2_pos k ltac:(lia)).
          assert (1 <= p) by nia.
          unfold row_of at 1. rewrite Hvi by lia.
          replace (p - 1 =? n - 1) with false by (symmetry; apply Z.eqb_neq; lia).
          apply (U2 k s p); assumption.
      - intros j vi Hj IH i' Hi'. cbv zeta. rewrite shiftl_2 by lia.
        replace (lim - (j + 1)) with (lim - j - 1) by lia.
        apply (down_inv_step (row_of mask n i') (row_of vi n i')); try lia; auto.
        + replace (lim - j - 1 + 1) with (lim - j) by lia. apply IH. exact Hi'.
        + intros k t Hk Ht Hb. unfold row_of.
          apply (down_level_spec n mt (2 ^ (lim - j - 1)) batch vi Hmt
                   (pow2_pos (lim - j - 1) ltac:(lia)) ltac:(lia) i' k t Hi' Hk Ht Hb). }
    intros i' Hi'. specialize (G i' Hi'). now rewrite Z.sub_diag in G. }
  cbn [fst snd]. split.
  - intros j Hj. apply (down_inv_final _ _ n (Hdown i Hi) j Hj).
  - rewrite Hvc by assumption.
    destruct (Hup i Hi) as [U1 _].
    pose proof (pow2_pos lim Hlim).
    change (up (i * n + (n - 1))) with (row_of up n i (n - 1)).
    rewrite (U1 0 0 n) by lia. unfold seg. rewrite prefix_sum_0. lia.
Qed.

(** ** Race-free launches over a two-dimensional grid *)

Lemma launch_race_free {A} (g : Z -> Z -> buf A -> buf A) (own : Z -> Z -> Z -> Prop)
    (nby nbx ntx : Z) :
  0 < ntx -> 0 <= nbx ->
  (forall i t b p, 0 <= i < nby -> 0 <= t < nbx * ntx ->
     ~ own i t p -> g i t b p = b p) ->
  (forall i t b b' p, 0 <= i < nby -> 0 <= t < nbx * ntx ->
     (forall q, own i t q -> b q = b' q) -> own i t p -> g i t b p = g i t b' p) ->
  (forall i t i' t' p, 0 <= i < nby -> 0 <= t < nbx * ntx ->
     0 <= i' < nby -> 0 <= t' < nbx * ntx ->
     i <> i' \/ t <> t' -> own i t p -> ~ own i' t' p) ->
  forall b p,
    (forall i t, 0 <= i < nby -> 0 <= t < nbx * ntx -> own i t p ->
       launch nby nbx ntx (fun by_ bx tx => g by_ (bx * ntx + tx)) b p = g i t b p) /\
    ((forall i t, 0 <= i < nby -> 0 <= t < nbx * ntx -> ~ own i t p) ->
       launch nby nbx ntx (fun by_ bx tx => g by_ (bx * ntx + tx)) b p = b p).
Proof.
  intros Hntx Hnbx Hw Hr Hd b p.
  set (N := nbx * ntx) in *.
  pose (rowf := fun i (b' : buf A) => for_range 0 N (g i) b').
  assert (El : forall b0,
    launch nby nbx ntx (fun by_ bx tx => g by_ (bx * ntx + tx)) b0
    = for_range 0 nby rowf b0).
  { intros b0. unfold launch. apply for_range_ext. intros i s' _.
    unfold rowf, N. apply (grid_flatten nbx ntx (g i) s' Hnbx Hntx). }
  rewrite El.
  assert (Row : forall i b0 q, 0 <= i < nby ->
    (forall t, 0 <= t < N -> own i t q -> rowf i b0 q = g i t b0 q) /\
    ((forall t, 0 <= t < N -> ~ own i t q) -> rowf i b0 q = b0 q)).
  { intros i b0 q Hi. unfold rowf.
    apply (for_range_race_free (g i) (own i) 0 N).
    - intros t b1 p' Ht. apply Hw; assumption.
    - intros t b1 b2 p' Ht. apply Hr; assumption.
    - intros t t' p' Ht Ht' Hne. apply Hd; auto. }
  pose (own' := fun i q => exists t, 0 <= t < N /\ own i t q).
  assert (RF : forall b0 q,
    (forall i, 0 <= i < nby -> own' i q -> for_range 0 nby rowf b0 q = rowf i b0 q) /\
    ((forall i, 0 <= i < nby -> ~ own' i q) -> for_range 0 nby rowf b0 q = b0 q)).
  { apply (for_range_race_free rowf own' 0 nby).
    - intros i b0 q Hi Hno. apply (proj2 (Row i b0 q Hi)).
      intros t Ht C. apply Hno. exists t. auto.
    - intros i b0 b1 q Hi Hq [t [Ht Hown]].
      rewrite (proj1 (Row i b0 q Hi) t Ht Hown).
      rewrite (proj1 (Row i b1 q Hi) t Ht Hown).
      apply Hr; try assumption.
      intros q' Hq'. apply Hq. exists t. auto.
    - intros i i' q Hi Hi' Hne [t [Ht Hown]] [t' [Ht' Hown']].
      apply (Hd i t i' t' q); auto. }
  split.
  - intros i t Hi Ht Hown.
    rewrite (proj1 (RF b p) i Hi) by (exists t; auto).
    apply (proj1 (Row i b p Hi) t Ht Hown).
  - intros Hno. apply (proj2 (RF b p)).
    intros i Hi [t [Ht Hown]]. apply (Hno i t Hi Ht Hown).
Qed.

(** A loop that writes the [len] fields of one record. *)
Lemma fields_loop {A} (base len : Z) (f : Z -> A) (o : buf A) p :
  for_range 0 len (fun k o' => store o' (base + k) (f k)) o p =
  if (base <=? p) && (p <? base + len) then f (p - base) else o p.
Proof.
  destruct (Z_le_gt_dec 0 len) as [Hle|Hgt].
  - revert p.
    apply (for_range_ind
             (fun i (s : buf A) => forall p,
                s p = if (base <=? p) && (p <? base + i) then f (p - base) else o p));
      [exact Hle| |].
    + intros p. destruct (base <=? p) eqn:E1; [|reflexivity].
      destruct (p <? base + 0) eqn:E2; [|reflexivity].
      apply Z.leb_le in E1. apply Z.ltb_lt in E2. lia.
    + intros i s' Hi IH p. unfold store.
      destruct (p =? base + i) eqn:E.
      * apply Z.eqb_eq in E. subst p.
        replace (base <=? base + i) with true by (symmetry; apply Z.leb_le; lia).
        replace (base + i <? base + (i + 1)) with true by (symmetry; apply Z.ltb_lt; lia).
        cbn [andb]. f_equal. lia.
      * apply Z.eqb_neq in E. rewrite IH.
        destruct (base <=? p) eqn:E1; [|reflexivity]. cbn [andb].
        replace (p <? base + (i + 1)) with (p <? base + i); [reflexivity|].
        destruct (p <? base + i) eqn:E2; symmetry.
        -- apply Z.ltb_lt in E2. apply Z.ltb_lt. lia.
        -- apply Z.ltb_ge in E2. apply Z.ltb_ge. lia.
  - rewrite for_range_empty by lia.
    destruct (base <=? p) eqn:E1; [|reflexivity].
    destruct (p <? base + len) eqn:E2; [|reflexivity].
    apply Z.leb_le in E1. apply Z.ltb_lt in E2. lia.
Qed.

Lemma for_range_pair {A B} lo hi (f : Z -> A -> A) (g : Z -> B -> B)
    (body : Z -> A * B -> A * B) a b :
  (forall i a' b', body i (a', b') = (f i a', g i b')) ->
  for_range lo hi body (a, b) = (for_range lo hi f a, for_range lo hi g b).
Proof.
  intros H.
  destruct (Z_le_gt_dec lo hi) as [Hle|Hgt].
  - apply (for_range_ind
             (fun i s => s = (for_range lo i f a, for_range lo i g b)) lo hi body (a, b) Hle).
    + now rewrite !for_range_empty by lia.
    + intros i s' Hi ->. rewrite H. now rewrite !for_range_snoc by lia.
  - now rewrite !for_range_empty by lia.
Qed.

Lemma launch_pair {A B} nby nbx ntx (f : Z -> Z -> Z -> A -> A) (g : Z -> Z -> Z -> B -> B)
    (body : Z -> Z -> Z -> A * B -> A * B) a b :
  (forall i bx tx a' b', body i bx tx (a', b') = (f i bx tx a', g i bx tx b')) ->
  launch nby nbx ntx body (a, b) = (launch nby nbx ntx f a, launch nby nbx ntx g b).
Proof.
  intros H. unfold launch.
  apply for_range_pair. intros i a1 b1.
  apply for_range_pair. intros bx a2 b2.
  apply for_range_pair. intros tx a3 b3. apply H.
Qed.

(** ** [get_valid_counts_ir] *)

Definition minus_one : Q := (-1 # 1)%Q.

(** First launch: sentinel fill. *)
Definition fill_thread (num_anchors elem_length max_threads : Z)
    (by_ bx tx : Z) (s : buf Q * buf Z) : buf Q * buf Z :=
  let '(out, out_indices) := s in
  let tid := bx * max_threads + tx in
  if tid <? num_anchors then
    let i := by_ in
    let j := tid in
    (for_range 0 elem_length
       (fun k out' => store out' ((i * num_anchors + j) * elem_length + k) minus_one) out,
     store out_indices (i * num_anchors + j) (-1))
  else s.

(** Second launch: scatter of the valid boxes. *)
Definition scatter_thread (data : buf Q) (valid_indices valid_boxes : buf Z)
    (num_anchors elem_length max_threads : Z)
    (by_ bx tx : Z) (s : buf Q * buf Z) : buf Q * buf Z :=
  let '(out, out_indices) := s in
  let tid := bx * max_threads + tx in
  if tid <? num_anchors then
    let i := by_ in
    let j := tid in
    if valid_boxes (i * num_anchors + tid) >? 0 then
      (for_range 0 elem_length
         (fun k out' =>
            store out'
              ((i * num_anchors + valid_indices (i * num_anchors + tid)) * elem_length + k)
              (data ((i * num_anchors + j) * elem_length + k))) out,
       store out_indices (i * num_anchors + valid_indices (i * num_anchors + tid)) j)
    else s
  else s.

(** Returns the final [(out, out_indices)]. *)
Definition get_valid_counts_ir (data : buf Q) (valid_indices valid_boxes : buf Z)
    (out : buf Q) (out_indices : buf Z)
    (batch_size num_anchors elem_length max_threads : Z) : buf Q * buf Z :=
  let nthread_tx := max_threads in
  let nthread_bx := num_anchors / max_threads + 1 in
  let nthread_by := batch_size in
  let s := launch nthread_by nthread_bx nthread_tx
             (fill_thread num_anchors elem_length max_threads) (out, out_indices) in
  launch nthread_by nthread_bx nthread_tx
    (scatter_thread data valid_indices valid_boxes num_anchors elem_length max_threads) s.

Lemma floor_blocks_cover n m : 0 < m -> n <= (n / m + 1) * m.
Proof.
  intros Hm. pose proof (Z.div_mod n m ltac:(lia)).
  pose proof (Z.mod_pos_bound n m Hm). nia.
Qed.

Lemma slot_field_inj n len i i' s s' k k' :
  0 <= s < n -> 0 <= s' < n -> 0 <= k < len -> 0 <= k' < len ->
  (i * n + s) * len + k = (i' * n + s') * len + k' ->
  i = i' /\ s = s' /\ k = k'.
Proof.
  intros Hs Hs' Hk Hk' E.
  destruct (row_index_inj len _ _ k k' Hk Hk' E) as [E1 E2].
  destruct (row_index_inj n _ _ s s' Hs Hs' E1) as [E3 E4]. auto.
Qed.

Lemma in_record base len p :
  (base <=? p) && (p <? base + len) = true <->
  exists k, 0 <= k < len /\ p = base + k.
Proof.
  rewrite andb_true_iff, Z.leb_le, Z.ltb_lt. split.
  - intros [H1 H2]. exists (p - base). lia.
  - intros [k [Hk ->]]. lia.
Qed.

Lemma fill_launch_spec batch n len mt (out : buf Q) (oi : buf Z) :
  0 < mt -> 0 <= n ->
  let r := launch batch (n / mt + 1) mt (fill_thread n len mt) (out, oi) in
  forall i s, 0 <= i < batch -> 0 <= s < n ->
    (forall k, 0 <= k < len -> fst r ((i * n + s) * len + k) = minus_one) /\
    snd r (i * n + s) = -1.
Proof.
  intros Hmt Hn r i s Hi Hs. subst r.
  pose (g := fun i t (o : buf Q) =>
    if t <? n then
      for_range 0 len (fun k o' => store o' ((i * n + t) * len + k) minus_one) o
    else o).
  assert (Hnbx : 0 <= n / mt + 1) by (pose proof (Z.div_pos n mt Hn Hmt); lia).
  rewrite (launch_pair _ _ _
             (fun by_ bx tx => g by_ (bx * mt + tx))
             (elementwise n mt (fun _ _ => -1))).
  2:{ intros i0 bx tx a' b'. unfold fill_thread, g, elementwise.
      destruct (bx * mt + tx <? n); reflexivity. }
  cbn [fst snd]. split.
  - intros k Hk.
    pose (own := fun i t p => t < n /\ exists k, 0 <= k < len /\ p = (i * n + t) * len + k).
    assert (Geval : forall i t o p, g i t o p =
              if (t <? n) && ((i * n + t) * len <=? p) && (p <? (i * n + t) * len + len)
              then minus_one else o p).
    { intros i0 t o p. unfold g. destruct (t <? n); [|reflexivity].
      rewrite (fields_loop ((i0 * n + t) * len) len (fun _ => minus_one) o p).
      reflexivity. }
    assert (Hw : forall i t o p, 0 <= i < batch -> 0 <= t < (n / mt + 1) * mt ->
              ~ own i t p -> g i t o p = o p).
    { intros i0 t o p Hi0 Ht Hno. rewrite Geval.
      destruct (t <? n) eqn:E1; [|reflexivity]. cbn [andb].
      destruct (((i0 * n + t) * len <=? p) && (p <? (i0 * n + t) * len + len)) eqn:E2;
        [|reflexivity].
      exfalso. apply Hno. apply Z.ltb_lt in E1.
      split; [exact E1|]. apply in_record. exact E2. }
    assert (Hr : forall i t o o' p, 0 <= i < batch -> 0 <= t < (n / mt + 1) * mt ->
              (forall q, own i t q -> o q = o' q) -> own i t p ->
              g i t o p = g i t o' p).
    { intros i0 t o o' p Hi0 Ht Hq [Hlt Hex]. rewrite !Geval.
      apply Z.ltb_lt in Hlt. rewrite Hlt. apply in_record in Hex.
      cbn [andb]. rewrite Hex. reflexivity. }
    assert (Hd : forall i t i' t' p, 0 <= i < batch -> 0 <= t < (n / mt + 1) * mt ->
              0 <= i' < batch -> 0 <= t' < (n / mt + 1) * mt ->
              i <> i' \/ t <> t' -> own i t p -> ~ own i' t' p).
    { intros i0 t i1 t1 p Hi0 Ht Hi1 Ht1 Hne [Hlt [k0 [Hk0 ->]]] [Hlt1 [k1 [Hk1 E]]].
      destruct (slot_field_inj n len i0 i1 t t1 k0 k1) as [? [? ?]]; lia. }
    rewrite (proj1 (launch_race_free g own batch (n / mt + 1) mt Hmt Hnbx
                      Hw Hr Hd out _) i s Hi).
    + rewrite Geval.
      replace (s <? n) with true by (symmetry; apply Z.ltb_lt; lia).
      replace ((i * n + s) * len <=? (i * n + s) * len + k) with true
        by (symmetry; apply Z.leb_le; lia).
      replace ((i * n + s) * len + k <? (i * n + s) * len + len) with true
        by (symmetry; apply Z.ltb_lt; lia).
      reflexivity.
    + pose proof (floor_blocks_cover n mt Hmt). lia.
    + split; [lia|]. exists k. auto.
  - apply (proj1 (elementwise_launch batch n mt (n / mt + 1) (fun _ _ => -1) oi
                    Hmt Hnbx (floor_blocks_cover n mt Hmt)) i s Hi Hs).
Qed.

(** The scatter launch, for any destination array that sends the valid
    anchors of a row to distinct slots of that row. *)
Lemma scatter_launch_spec data vi vb batch n len mt (out : buf Q) (oi : buf Z) :
  0 < mt -> 0 <= n ->
  (forall i t, 0 <= i < batch -> 0 <= t < n -> 0 < vb (i * n + t) ->
     0 <= vi (i * n + t) < n) ->
  (forall i t t', 0 <= i < batch -> 0 <= t < n -> 0 <= t' < n ->
     0 < vb (i * n + t) -> 0 < vb (i * n + t') ->
     vi (i * n + t) = vi (i * n + t') -> t = t') ->
  let r := launch batch (n / mt + 1) mt (scatter_thread data vi vb n len mt) (out, oi) in
  forall i, 0 <= i < batch ->
    (forall t, 0 <= t < n -> 0 < vb (i * n + t) ->
       (forall k, 0 <= k < len ->
          fst r ((i * n + vi (i * n + t)) * len + k) = data ((i * n + t) * len + k)) /\
       snd r (i * n + vi (i * n + t)) = t) /\
    (forall s, 0 <= s < n ->
       (forall t, 0 <= t < n -> 0 < vb (i * n + t) -> vi (i * n + t) <> s) ->
       (forall k, 0 <= k < len ->
          fst r ((i * n + s) * len + k) = out ((i * n + s) * len + k)) /\
       snd r (i * n + s) = oi (i * n + s)).
Proof.
  intros Hmt Hn Hrange Hinj r i Hi. subst r.
  pose (go := fun i t (o : buf Q) =>
    if t <? n then
      if vb (i * n + t) >? 0 then
        for_range 0 len
          (fun k o' => store o' ((i * n + vi (i * n + t)) * len + k)
                         (data ((i * n + t) * len + k))) o
      else o
    else o).
  pose (gi := fun i t (o : buf Z) =>
    if t <? n then
      if vb (i * n + t) >? 0 then store o (i * n + vi (i * n + t)) t else o
    else o).
  assert (Hnbx : 0 <= n / mt + 1) by (pose proof (Z.div_pos n mt Hn Hmt); lia).
  pose proof (floor_blocks_cover n mt Hmt) as Hcov.
  set (N := (n / mt + 1) * mt) in *.
  rewrite (launch_pair _ _ _
             (fun by_ bx tx => go by_ (bx * mt + tx))
             (fun by_ bx tx => gi by_ (bx * mt + tx))).
  2:{ intros i0 bx tx a' b'. unfold scatter_thread, go, gi.
      destruct (bx * mt + tx <? n); [|reflexivity].
      destruct (vb _ >? 0); reflexivity. }
  cbn [fst snd].
  (* the box buffer *)
  pose (own_o := fun i t p =>
    t < n /\ 0 < vb (i * n + t) /\
    exists k, 0 <= k < len /\ p = (i * n + vi (i * n + t)) * len + k).
  assert (GOeval : forall i t o p, go i t o p =
    if (t <? n) && (vb (i * n + t) >? 0)
       && (((i * n + vi (i * n + t)) * len <=? p)
           && (p <? (i * n + vi (i * n + t)) * len + len))
    then data ((i * n + t) * len + (p - (i * n + vi (i * n + t)) * len)) else o p).
  { intros i0 t o p. unfold go. destruct (t <? n); [|reflexivity].
    destruct (vb _ >? 0); [|reflexivity].
    rewrite (fields_loop ((i0 * n + vi (i0 * n + t)) * len) len
               (fun k => data ((i0 * n + t) * len + k)) o p).
    reflexivity. }
  assert (HwO : forall i t o p, 0 <= i < batch -> 0 <= t < N ->
            ~ own_o i t p -> go i t o p = o p).
  { intros i0 t o p Hi0 Ht Hno. rewrite GOeval.
    destruct (t <? n) eqn:E1; [|reflexivity].
    destruct (vb (i0 * n + t) >? 0) eqn:E2; [|reflexivity]. cbn [andb].
    match goal with |- (if ?c then _ else _) = _ => destruct c eqn:E3 end;
      [|reflexivity].
    exfalso. apply Hno. apply Z.ltb_lt in E1. apply Z.gtb_lt in E2.
    split; [exact E1|]. split; [exact E2|]. apply in_record. exact E3. }
  assert (HrO : forall i t o o' p, 0 <= i < batch -> 0 <= t < N ->
            (forall q, own_o i t q -> o q = o' q) -> own_o i t p ->
            go i t o p = go i t o' p).
  { intros i0 t o o' p Hi0 Ht Hq [Hlt [Hv Hex]]. rewrite !GOeval.
    apply Z.ltb_lt in Hlt. rewrite Hlt. apply Z.gtb_lt in Hv. rewrite Hv.
    apply in_record in Hex. cbn [andb]. rewrite Hex. reflexivity. }
  assert (HdO : forall i t i' t' p, 0 <= i < batch -> 0 <= t < N ->
            0 <= i' < batch -> 0 <= t' < N ->
            i <> i' \/ t <> t' -> own_o i t p -> ~ own_o i' t' p).
  { intros i0 t i1 t1 p Hi0 Ht Hi1 Ht1 Hne
           [Hlt [Hv [k0 [Hk0 ->]]]] [Hlt1 [Hv1 [k1 [Hk1 E]]]].
    pose proof (Hrange i0 t Hi0 ltac:(lia) Hv) as R0.
    pose proof (Hrange i1 t1 Hi1 ltac:(lia) Hv1) as R1.
    destruct (slot_field_inj n len i0 i1 _ _ k0 k1 R0 R1 Hk0 Hk1 E) as [E1 [E2 _]].
    subst i1. pose proof (Hinj i0 t t1 Hi0 ltac:(lia) ltac:(lia) Hv Hv1 E2). lia. }
  pose proof (launch_race_free go own_o batch (n / mt + 1) mt Hmt Hnbx HwO HrO HdO out)
    as RO.
  (* the index buffer *)
  pose (own_i := fun i t p =>
    t < n /\ 0 < vb (i * n + t) /\ p = i * n + vi (i * n + t)).
  assert (HwI : forall i t o p, 0 <= i < batch -> 0 <= t < N ->
            ~ own_i i t p -> gi i t o p = o p).
  { intros i0 t o p Hi0 Ht Hno. unfold gi.
    destruct (t <? n) eqn:E1; [|reflexivity].
    destruct (vb (i0 * n + t) >? 0) eqn:E2; [|reflexivity].
    apply store_neq. intros ->. apply Hno.
    apply Z.ltb_lt in E1. apply Z.gtb_lt in E2. unfold own_i. auto. }
  assert (HrI : forall i t o o' p, 0 <= i < batch -> 0 <= t < N ->
            (forall q, own_i i t q -> o q = o' q) -> own_i i t p ->
            gi i t o p = gi i t o' p).
  { intros i0 t o o' p Hi0 Ht Hq [Hlt [Hv ->]]. unfold gi.
    apply Z.ltb_lt in Hlt. rewrite Hlt. apply Z.gtb_lt in Hv. rewrite Hv.
    now rewrite !store_eq. }
  assert (HdI : forall i t i' t' p, 0 <= i < batch -> 0 <= t < N ->
            0 <= i' < batch -> 0 <= t' < N ->
            i <> i' \/ t <> t' -> own_i i t p -> ~ own_i i' t' p).
  { intros i0 t i1 t1 p Hi0 Ht Hi1 Ht1 Hne [Hlt [Hv ->]] [Hlt1 [Hv1 E]].
    pose proof (Hrange i0 t Hi0 ltac:(lia) Hv) as R0.
    pose proof (Hrange i1 t1 Hi1 ltac:(lia) Hv1) as R1.
    destruct (row_index_inj n i0 i1 _ _ R0 R1 E) as [E1 E2].
    subst i1. pose proof (Hinj i0 t t1 Hi0 ltac:(lia) ltac:(lia) Hv Hv1 E2). lia. }
  pose proof (launch_race_free gi own_i batch (n / mt + 1) mt Hmt Hnbx HwI HrI HdI oi)
    as RI.
  split.
  - intros t Ht Hv. split.
    + intros k Hk.
      rewrite (proj1 (RO _) i t Hi ltac:(lia)).
      * rewrite GOeval.
        replace (t <? n) with true by (symmetry; apply Z.ltb_lt; lia).
        replace (vb (i * n + t) >? 0) with true by (symmetry; apply Z.gtb_lt; lia).
        cbn [andb].
        replace (_ && _) with true.
        -- f_equal. lia.
        -- symmetry. apply in_record. exists k. auto.
      * split; [lia|]. split; [exact Hv|]. exists k. auto.
    + rewrite (proj1 (RI _) i t Hi ltac:(lia)).
      * unfold gi.
        replace (t <? n) with true by (symmetry; apply Z.ltb_lt; lia).
        replace (vb (i * n + t) >? 0) with true by (symmetry; apply Z.gtb_lt; lia).
        apply store_eq.
      * unfold own_i. split; [lia|]. auto.
  - intros s Hs Hfree. split.
    + intros k Hk. apply (proj2 (RO _)).
      intros i0 t Hi0 Ht [Hlt [Hv [k0 [Hk0 E]]]].
      pose proof (Hrange i0 t Hi0 ltac:(lia) Hv) as R0.
      destruct (slot_field_inj n len i i0 s _ k k0 Hs R0 Hk Hk0 E) as [E1 [E2 _]].
      subst i0. apply (Hfree t); [lia|exact Hv|]. now symmetry.
    + apply (proj2 (RI _)).
      intros i0 t Hi0 Ht [Hlt [Hv E]].
      pose proof (Hrange i0 t Hi0 ltac:(lia) Hv) as R0.
      destruct (row_index_inj n i i0 s _ Hs R0 E) as [E1 E2].
      subst i0. apply (Hfree t); [lia|exact Hv|]. now symmetry.
Qed.

(** *** Destinations of the valid anchors *)

Lemma prefix_valid_strict m n j j' :
  mask01 m n -> 0 <= j < j' -> j' <= n -> m j = 1 ->
  prefix_sum m j < prefix_sum m j'.
Proof.
  intros H01 Hj Hj' Hv.
  pose proof (prefix_sum_mono m n (j + 1) j' H01 ltac:(lia) Hj').
  rewrite prefix_sum_succ in * by lia. lia.
Qed.

Lemma prefix_onto m n s :
  mask01 m n -> 0 <= n -> 0 <= s < prefix_sum m n ->
  exists j, 0 <= j < n /\ m j = 1 /\ prefix_sum m j = s.
Proof.
  intros H01 Hn.
  assert (G : forall d : nat, Z.of_nat d <= n ->
            0 <= s < prefix_sum m (Z.of_nat d) ->
            exists j, 0 <= j < Z.of_nat d /\ m j = 1 /\ prefix_sum m j = s).
  { induction d as [|d IH]; intros Hd Hs.
    - change (Z.of_nat 0) with 0 in Hs. rewrite prefix_sum_0 in Hs. lia.
    - replace (Z.of_nat (Datatypes.S d)) with (Z.of_nat d + 1) in * by lia.
      rewrite prefix_sum_succ in Hs by lia.
      destruct (Z_lt_ge_dec s (prefix_sum m (Z.of_nat d))) as [Hlt|Hge].
      + destruct (IH ltac:(lia) ltac:(lia)) as [j [Hj [Hv Hp]]].
        exists j. split; [lia|]. auto.
      + exists (Z.of_nat d).
        destruct (H01 (Z.of_nat d) ltac:(lia)) as [E|E]; rewrite E in Hs; [lia|].
        split; [lia|]. split; [exact E|lia]. }
  intros Hs. specialize (G (Z.to_nat n)).
  rewrite Z2Nat.id in G by lia. apply G; lia.
Qed.

(** ** [nms_ir] *)

(** The scalar parameters of [nms_ir] and the shape of [data]. *)
Record nms_config : Type := mkConfig {
  batch_size : Z;
  num_anchors : Z;
  box_data_length : Z;
  max_threads : Z;
  max_output_size : Z;
  iou_threshold : Q;
  force_suppress : bool;
  top_k : Z;
  coord_start : Z;
  id_index : Z;
  score_index : Z;
  return_indices : bool
}.

Definition get_boundaries (output : buf Q) (box_idx : Z) : Q * Q * Q * Q :=
  let l := Qmin (output box_idx) (output (box_idx + 2)) in
  let t := Qmin (output (box_idx + 1)) (output (box_idx + 3)) in
  let r := Qmax (output box_idx) (output (box_idx + 2)) in
  let b := Qmax (output (box_idx + 1)) (output (box_idx + 3)) in
  (l, t, r, b).

Definition calculate_overlap (out_tensor : buf Q) (box_a_idx box_b_idx : Z) : Q :=
  let '(a_l, a_t, a_r, a_b) := get_boundaries out_tensor box_a_idx in
  let '(b_l, b_t, b_r, b_b) := get_boundaries out_tensor box_b_idx in
  let w := Qmax 0 (Qmin a_r b_r - Qmax a_l b_l) in
  let h := Qmax 0 (Qmin a_b b_b - Qmax a_t b_t) in
  let area := (h * w)%Q in
  let u := ((a_r - a_l) * (a_b - a_t) + (b_r - b_l) * (b_b - b_t) - area)%Q in
  if Qle_bool u 0 then 0%Q else (area / u)%Q.

(** [nkeep]: [if_then_else(all(top_k > 0, top_k < valid_count[i]), top_k, valid_count[i])]. *)
Definition nkeep_of (c : nms_config) (valid_count : buf Z) (i : Z) : Z :=
  if (top_k c >? 0) && (top_k c <? valid_count i) then top_k c else valid_count i.

(** [all(iou_threshold > 0, valid_count[i] > 0)]. *)
Definition suppression_enabled (c : nms_config) (valid_count : buf Z) (i : Z) : bool :=
  Qgtb (iou_threshold c) 0 && (valid_count i >? 0).

(** First launch ("Reorder output"), one thread. *)
Definition reorder_thread (c : nms_config) (data : buf Q) (sorted_index valid_count : buf Z)
    (by_ bx tx : Z) (s : buf Q * buf Z) : buf Q * buf Z :=
  let '(out, box_indices) := s in
  let i := by_ in
  let base_idx := i * num_anchors c * box_data_length c in
  let j := bx * max_threads c + tx in
  if suppression_enabled c valid_count i then
    let nkeep := nkeep_of c valid_count i in
    let box_indices :=
      if j <? num_anchors c then store box_indices (i * num_anchors c + j) (-1)
      else box_indices in
    let out :=
      if j <? nkeep then
        for_range 0 (box_data_length c)
          (fun k out' =>
             store out' (base_idx + j * box_data_length c + k)
               (data (base_idx + sorted_index (i * num_anchors c + j) * box_data_length c + k)))
          out
      else if j <? num_anchors c then
        for_range 0 (box_data_length c)
          (fun k out' => store out' (base_idx + j * box_data_length c + k) minus_one) out
      else out in
    (out, box_indices)
  else
    if j <? valid_count i then
      (for_range 0 (box_data_length c)
         (fun k out' =>
            let offset := base_idx + j * box_data_length c + k in
            store out' offset (data offset)) out,
       store box_indices (i * num_anchors c + j) j)
    else s.

(** The body of the [for _k] loop of [nms_inner_loop], for thread [tx]. *)
Definition suppress_candidate (c : nms_config) (base_idx nkeep j _k tx : Z)
    (out : buf Q) : buf Q :=
  let nthread_tx := max_threads c in
  let offset_j := j * box_data_length c in
  let k := j + 1 + _k * nthread_tx + tx in
  let offset_k := k * box_data_length c in
  if (k <? nkeep)
     && Qgtb (out (base_idx + offset_k + score_index c)) 0
     && (((if force_suppress c then 1 else 0) >? 0)
         || (id_index c <? 0)
         || Qeqb (out (base_idx + offset_k + id_index c))
                 (out (base_idx + offset_j + id_index c)))
  then
    let iou := calculate_overlap out (base_idx + offset_j + coord_start c)
                 (base_idx + offset_k + coord_start c) in
    if Qgeb iou (iou_threshold c) then
      let out1 := store out (base_idx + offset_k + score_index c) minus_one in
      if id_index c >=? 0 then store out1 (base_idx + offset_k + id_index c) minus_one
      else out1
    else out
  else out.

(** The state of a row's thread block in the second launch:
    [out], [box_indices] and [num_valid_boxes_local[0]]. *)
Definition row_state : Type := (buf Q * buf Z * Z)%type.

Definition nms_inner_loop (c : nms_config) (sorted_index indices : buf Z)
    (i nkeep j : Z) (s : row_state) : row_state :=
  let '(out, box_indices, num_valid_boxes_local) := s in
  let nthread_tx := max_threads c in
  let base_idx := i * num_anchors c * box_data_length c in
  let box_indices :=
    if return_indices c then
      let orig_idx := sorted_index (i * num_anchors c + j) in
      store box_indices (i * num_anchors c + num_valid_boxes_local)
        (indices (i * num_anchors c + orig_idx))
    else box_indices in
  let num_valid_boxes_local := add32 num_valid_boxes_local 1 in
  let num_iter_per_thread := ceil_div (nkeep - (j + 1)) nthread_tx in
  let out :=
    for_range 0 num_iter_per_thread (fun _k =>
      for_range 0 nthread_tx (fun tx =>
        suppress_candidate c base_idx nkeep j _k tx)) out in
  (out, box_indices, num_valid_boxes_local).

(** The body of the [for j] loop ("Apply nms"). *)
Definition nms_outer_step (c : nms_config) (sorted_index indices : buf Z)
    (i nkeep j : Z) (s : row_state) : row_state :=
  let '(out, _, num_valid_boxes_local) := s in
  let base_idx := i * num_anchors c * box_data_length c in
  if Qgtb (out (base_idx + j * box_data_length c + score_index c)) minus_one then
    if max_output_size c >? 0 then
      if num_valid_boxes_local <? max_output_size c
      then nms_inner_loop c sorted_index indices i nkeep j s
      else s
    else nms_inner_loop c sorted_index indices i nkeep j s
  else s.

(** Second launch, the thread block of row [i]. *)
Definition nms_row (c : nms_config) (sorted_index valid_count indices : buf Z)
    (i : Z) (s : buf Q * buf Z * buf Z) : buf Q * buf Z * buf Z :=
  let '(out, box_indices, num_valid_boxes) := s in
  let nkeep := nkeep_of c valid_count i in
  if suppression_enabled c valid_count i then
    let '(out, box_indices, num_valid_boxes_local) :=
      for_range 0 nkeep (nms_outer_step c sorted_index indices i nkeep)
        (out, box_indices, 0) in
    (out, box_indices, store num_valid_boxes i num_valid_boxes_local)
  else
    (out, box_indices, store num_valid_boxes i 0).

(** Returns the final [(out, box_indices, num_valid_boxes)]. *)
Definition nms_ir (c : nms_config) (data : buf Q)
    (sorted_index valid_count indices : buf Z)
    (out : buf Q) (box_indices num_valid_boxes : buf Z) : buf Q * buf Z * buf Z :=
  let nthread_tx := max_threads c in
  let nthread_bx := ceil_div (num_anchors c) (max_threads c) in
  let nthread_by := batch_size c in
  let '(out, box_indices) :=
    launch nthread_by nthread_bx nthread_tx
      (reorder_thread c data sorted_index valid_count) (out, box_indices) in
  for_range 0 nthread_by (nms_row c sorted_index valid_count indices)
    (out, box_indices, num_valid_boxes).

(** *** Generic facts about rows and launches *)

(** What iteration [t] establishes and the other iterations keep holds at
    the end of the loop. *)
Lemma for_range_establish {S} (P : S -> Prop) lo hi (body : Z -> S -> S) t s :
  lo <= t < hi ->
  (forall s', P (body t s')) ->
  (forall t' s', lo <= t' < hi -> t' <> t -> P s' -> P (body t' s')) ->
  P (for_range lo hi body s).
Proof.
  intros Ht Hest Hkeep.
  assert (G : (fun i s' => t < i -> P s') hi (for_range lo hi body s)).
  { apply for_range_ind; [lia|lia|].
    intros i s' Hi IH Hlt.
    destruct (Z.eq_dec i t) as [->|Hne]; [apply Hest|].
    apply Hkeep; [lia|exact Hne|]. apply IH. lia. }
  apply G. lia.
Qed.

Lemma launch_establish {S} (P : S -> Prop) nby nbx ntx
    (body : Z -> Z -> Z -> S -> S) i bx tx s :
  0 <= i < nby -> 0 <= bx < nbx -> 0 <= tx < ntx ->
  (forall s', P (body i bx tx s')) ->
  (forall i' bx' tx' s', P s' -> P (body i' bx' tx' s')) ->
  P (launch nby nbx ntx body s).
Proof.
  intros Hi Hbx Htx Hest Hkeep. unfold launch.
  apply (for_range_establish P 0 nby _ i s Hi).
  - intros s1. apply (for_range_establish P 0 nbx _ bx s1 Hbx).
    + intros s2. apply (for_range_establish P 0 ntx _ tx s2 Htx).
      * exact Hest.
      * intros tx' s3 _ _. apply Hkeep.
    + intros bx' s2 _ _ H2. apply for_range_keep; [exact H2|].
      intros tx' s3 _. apply Hkeep.
  - intros i' s1 _ _ H1. apply for_range_keep; [exact H1|].
    intros bx' s2 _ H2. apply for_range_keep; [exact H2|].
    intros tx' s3 _. apply Hkeep.
Qed.

Lemma wrap32_range z : - 2 ^ 31 <= wrap32 z < 2 ^ 31.
Proof.
  unfold wrap32. pose proof (Z.mod_pos_bound (z + 2 ^ 31) (2 ^ 32) ltac:(lia)). lia.
Qed.

Lemma wrap32_le z : - 2 ^ 31 <= z -> wrap32 z <= z.
Proof.
  intros Hz. unfold wrap32.
  pose proof (Z.mod_le (z + 2 ^ 31) (2 ^ 32) ltac:(lia) ltac:(lia)). lia.
Qed.

(** *** The skip path and the count of kept boxes *)

Lemma suppression_enabled_false c valid_count i :
  suppression_enabled c valid_count i = false <->
  (iou_threshold c <= 0)%Q \/ valid_count i <= 0.
Proof.
  unfold suppression_enabled. rewrite andb_false_iff, Qgtb_false.
  split; intros [H|H]; auto.
  - right. destruct (valid_count i >? 0) eqn:E; [discriminate|].
    rewrite Z.gtb_ltb in E. apply Z.ltb_ge in E. lia.
  - right. rewrite Z.gtb_ltb. apply Z.ltb_ge. lia.
Qed.

(** On the skip path the thread block of a row only writes its count. *)
Lemma nms_row_skip c sorted_index valid_count indices i out box_indices num_valid_boxes :
  suppression_enabled c valid_count i = false ->
  nms_row c sorted_index valid_count indices i (out, box_indices, num_valid_boxes)
  = (out, box_indices, store num_valid_boxes i 0).
Proof. intros H. unfold nms_row. now rewrite H. Qed.

(** A row writes no count but its own. *)
Lemma nms_row_count_other c sorted_index valid_count indices i s i' :
  i' <> i ->
  snd (nms_row c sorted_index valid_count indices i s) i' = snd s i'.
Proof.
  intros Hne. destruct s as [[out bi] nvb]. unfold nms_row.
  destruct (suppression_enabled c valid_count i).
  - destruct (for_range _ _ _ _) as [[o b] l]. cbn [snd]. now apply store_neq.
  - cbn [snd]. now apply store_neq.
Qed.

Lemma nms_inner_loop_count c sorted_index indices i nkeep j out bi l :
  snd (nms_inner_loop c sorted_index indices i nkeep j (out, bi, l)) = add32 l 1.
Proof. reflexivity. Qed.

(** The local count never passes a positive [max_output_size]. *)
Lemma nms_outer_step_cap c sorted_index indices i nkeep j s :
  0 < max_output_size c ->
  - 2 ^ 31 <= snd s <= max_output_size c ->
  - 2 ^ 31 <= snd (nms_outer_step c sorted_index indices i nkeep j s) <= max_output_size c.
Proof.
  intros Hmos Hs. destruct s as [[out bi] l]. cbn [snd] in Hs.
  unfold nms_outer_step.
  destruct (Qgtb _ minus_one); [|exact Hs].
  replace (max_output_size c >? 0) with true by (symmetry; apply Z.gtb_lt; lia).
  destruct (l <? max_output_size c) eqn:E; [|exact Hs].
  apply Z.ltb_lt in E. rewrite nms_inner_loop_count. unfold add32.
  pose proof (wrap32_range (l + 1)). pose proof (wrap32_le (l + 1) ltac:(lia)). lia.
Qed.

(** Once the count has reached [max_output_size], an iteration changes nothing. *)
Lemma nms_outer_step_full c sorted_index indices i nkeep j s :
  0 < max_output_size c -> max_output_size c <= snd s ->
  nms_outer_step c sorted_index indices i nkeep j s = s.
Proof.
  intros Hmos Hs. destruct s as [[out bi] l]. cbn [snd] in Hs.
  unfold nms_outer_step.
  destruct (Qgtb _ minus_one); [|reflexivity].
  replace (max_output_size c >? 0) with true by (symmetry; apply Z.gtb_lt; lia).
  replace (l <? max_output_size c) with false by (symmetry; apply Z.ltb_ge; lia).
  reflexivity.
Qed.

Lemma nms_row_count_cap c sorted_index valid_count indices i s :
  0 < max_output_size c ->
  snd (nms_row c sorted_index valid_count indices i s) i <= max_output_size c.
Proof.
  intros Hmos. destruct s as [[out bi] nvb]. unfold nms_row.
  destruct (suppression_enabled c valid_count i).
  - pose proof (for_range_keep
                  (fun st : row_state => - 2 ^ 31 <= snd st <= max_output_size c)
                  0 (nkeep_of c valid_count i)
                  (nms_outer_step c sorted_index indices i (nkeep_of c valid_count i))
                  (out, bi, 0)) as K.
    destruct (for_range _ _ _ _) as [[o b] l]. cbn [snd] in *.
    rewrite store_eq. apply K; [lia|].
    intros j st _ Hst. apply nms_outer_step_cap; assumption.
  - cbn [snd]. rewrite store_eq. lia.
Qed.

(** The count of row [i] in the result of the second launch is the one row
    [i]'s thread block wrote. *)
Lemma nms_rows_count (P : Z -> Prop) c sorted_index valid_count indices i s :
  0 <= i < batch_size c ->
  (forall s', P (snd (nms_row c sorted_index valid_count indices i s') i)) ->
  P (snd (for_range 0 (batch_size c) (nms_row c sorted_index valid_count indices) s) i).
Proof.
  intros Hi Hrow.
  apply (for_range_establish (fun st => P (snd st i)) 0 (batch_size c) _ i s Hi).
  - exact Hrow.
  - intros i' s' _ Hne H. now rewrite nms_row_count_other by auto.
Qed.

(** With [iou_threshold <= 0] every thread of the first launch either
    leaves a location alone or copies [data] to it. *)
Lemma reorder_thread_skip c data sorted_index valid_count by_ bx tx out bi p :
  (iou_threshold c <= 0)%Q ->
  fst (reorder_thread c data sorted_index valid_count by_ bx tx (out, bi)) p = out p \/
  fst (reorder_thread c data sorted_index valid_count by_ bx tx (out, bi)) p = data p.
Proof.
  intros Hthr. unfold reorder_thread.
  replace (suppression_enabled c valid_count by_) with false
    by (symmetry; apply suppression_enabled_false; auto).
  destruct (_ <? valid_count by_); [|left; reflexivity].
  cbn [fst].
  rewrite (fields_loop
             (by_ * num_anchors c * box_data_length c
              + (bx * max_threads c + tx) * box_data_length c)
             (box_data_length c)
             (fun k => data (by_ * num_anchors c * box_data_length c
                             + (bx * max_threads c + tx) * box_data_length c + k)) out p).
  destruct (_ && _) eqn:E; [right|left; reflexivity].
  apply in_record in E. destruct E as [k [Hk ->]]. f_equal. lia.
Qed.

Lemma reorder_thread_skip_copy c data sorted_index valid_count i bx tx out bi k :
  suppression_enabled c valid_count i = false ->
  bx * max_threads c + tx < valid_count i ->
  0 <= k < box_data_length c ->
  fst (reorder_thread c data sorted_index valid_count i bx tx (out, bi))
    (i * num_anchors c * box_data_length c
     + (bx * max_threads c + tx) * box_data_length c + k)
  = data (i * num_anchors c * box_data_length c
          + (bx * max_threads c + tx) * box_data_length c + k).
Proof.
  intros Hskip Hj Hk. unfold reorder_thread. rewrite Hskip.
  replace (_ <? valid_count i) with true by (symmetry; apply Z.ltb_lt; lia).
  cbn [fst].
  rewrite (fields_loop
             (i * num_anchors c * box_data_length c
              + (bx * max_threads c + tx) * box_data_length c)
             (box_data_length c)
             (fun k => data (i * num_anchors c * box_data_length c
                             + (bx * max_threads c + tx) * box_data_length c + k)) out).
  replace (_ && _) with true.
  - f_equal. lia.
  - symmetry. apply in_record. exists k. auto.
Qed.

Lemma nms_ir_skip_copy c data sorted_index valid_count indices out bi nvb i j k :
  0 < max_threads c -> 0 <= i < batch_size c ->
  (iou_threshold c <= 0)%Q ->
  0 <= j < valid_count i -> j < num_anchors c -> 0 <= k < box_data_length c ->
  fst (fst (nms_ir c data sorted_index valid_count indices out bi nvb))
    (i * num_anchors c * box_data_length c + j * box_data_length c + k)
  = data (i * num_anchors c * box_data_length c + j * box_data_length c + k).
Proof.
  intros Hmt Hi Hthr Hj Hjn Hk. unfold nms_ir.
  set (p := i * num_anchors c * box_data_length c + j * box_data_length c + k).
  assert (HA : fst (launch (batch_size c) (ceil_div (num_anchors c) (max_threads c))
                      (max_threads c)
                      (reorder_thread c data sorted_index valid_count) (out, bi)) p
               = data p).
  { pose proof (Z.div_mod j (max_threads c) ltac:(lia)) as Ej.
    pose proof (Z.mod_pos_bound j (max_threads c) Hmt) as Bj.
    assert (Hbx : 0 <= j / max_threads c
                  < ceil_div (num_anchors c) (max_threads c)).
    { split; [apply Z.div_pos; lia|].
      apply Z.div_lt_upper_bound; [lia|].
      pose proof (ceil_div_covers (num_anchors c) (max_threads c) j Hmt ltac:(lia)).
      lia. }
    set (bx := j / max_threads c) in *. set (tx := j mod max_threads c) in *.
    apply (launch_establish (fun s => fst s p = data p) _ _ _ _ i bx tx).
    - exact Hi.
    - exact Hbx.
    - exact Bj.
    - intros [o b]. unfold p.
      replace (j * box_data_length c)
        with ((bx * max_threads c + tx) * box_data_length c) by (f_equal; lia).
      apply reorder_thread_skip_copy; [|lia|exact Hk].
      apply suppression_enabled_false. auto.
    - intros i' bx' tx' [o b] H. cbn [fst] in H. cbv beta.
      destruct (reorder_thread_skip c data sorted_index valid_count i' bx' tx' o b p Hthr)
        as [E|E]; [exact (eq_trans E H)|exact E]. }
  destruct (launch _ _ _ _ _) as [o b]. cbn [fst] in HA.
  rewrite <- HA.
  apply (for_range_keep (fun st => fst (fst st) p = o p)); [reflexivity|].
  intros i' [[o' b'] v'] _ H.
  rewrite nms_row_skip by (apply suppression_enabled_false; auto). exact H.
Qed.

(** *** One pass of [nms_inner_loop] over the later candidates *)

(** Candidate [k] takes part in the comparison with the kept box [j]:
    "is the box k still valid?" and the class gate. *)
Definition candidate_compared (c : nms_config) (out : buf Q) (base j k : Z) : bool :=
  Qgtb (out (base + k * box_data_length c + score_index c)) 0
  && (((if force_suppress c then 1 else 0) >? 0)
      || (id_index c <? 0)
      || Qeqb (out (base + k * box_data_length c + id_index c))
              (out (base + j * box_data_length c + id_index c))).

Definition candidate_iou (c : nms_config) (out : buf Q) (base j k : Z) : Q :=
  calculate_overlap out (base + j * box_data_length c + coord_start c)
    (base + k * box_data_length c + coord_start c).

(** The candidate thread with flat index [t], which handles box [j + 1 + t]. *)
Definition suppress_box (c : nms_config) (base nkeep j t : Z) (out : buf Q) : buf Q :=
  suppress_candidate (mkConfig (batch_size c) (num_anchors c) (box_data_length c) 1
                        (max_output_size c) (iou_threshold c) (force_suppress c)
                        (top_k c) (coord_start c) (id_index c) (score_index c)
                        (return_indices c))
    base nkeep j t 0 out.

Lemma suppress_candidate_box c base nkeep j _k tx out :
  suppress_candidate c base nkeep j _k tx out
  = suppress_box c base nkeep j (_k * max_threads c + tx) out.
Proof.
  unfold suppress_box, suppress_candidate. cbn [max_threads box_data_length
    score_index force_suppress id_index coord_start iou_threshold].
  replace (j + 1 + (_k * max_threads c + tx) * 1 + 0)
    with (j + 1 + _k * max_threads c + tx) by lia.
  reflexivity.
Qed.

Lemma suppress_box_eval c base nkeep j t out p :
  suppress_box c base nkeep j t out p =
  if (j + 1 + t <? nkeep)
     && candidate_compared c out base j (j + 1 + t)
     && Qgeb (candidate_iou c out base j (j + 1 + t)) (iou_threshold c)
  then
    if ((id_index c >=? 0) && (p =? base + (j + 1 + t) * box_data_length c + id_index c))
       || (p =? base + (j + 1 + t) * box_data_length c + score_index c)
    then minus_one else out p
  else out p.
Proof.
  unfold suppress_box, suppress_candidate, candidate_compared, candidate_iou.
  cbn [max_threads box_data_length score_index force_suppress id_index coord_start
       iou_threshold].
  replace (j + 1 + t * 1 + 0) with (j + 1 + t) by lia.
  set (k := j + 1 + t).
  rewrite <- andb_assoc.
  destruct (k <? nkeep); [|reflexivity]. cbn [andb].
  destruct (_ && _); [|reflexivity]. cbn [andb].
  destruct (Qgeb _ _); [|reflexivity].
  unfold store.
  destruct (id_index c >=? 0); cbn [andb orb].
  - destruct (p =? base + k * box_data_length c + id_index c); [reflexivity|].
    cbn [orb]. reflexivity.
  - reflexivity.
Qed.

(** The shape of a box record the kernel assumes. *)
Definition record_ok (c : nms_config) : Prop :=
  0 <= score_index c < box_data_length c /\
  id_index c < box_data_length c /\
  0 <= coord_start c /\ coord_start c + 3 < box_data_length c.

Lemma calculate_overlap_ext (o o' : buf Q) a b :
  (forall d, 0 <= d <= 3 -> o (a + d) = o' (a + d)) ->
  (forall d, 0 <= d <= 3 -> o (b + d) = o' (b + d)) ->
  calculate_overlap o a b = calculate_overlap o' a b.
Proof.
  intros Ha Hb. unfold calculate_overlap, get_boundaries.
  pose proof (Ha 0 ltac:(lia)) as A0. rewrite Z.add_0_r in A0.
  pose proof (Hb 0 ltac:(lia)) as B0. rewrite Z.add_0_r in B0.
  rewrite A0, B0, (Ha 1), (Ha 2), (Ha 3), (Hb 1), (Hb 2), (Hb 3) by lia.
  reflexivity.
Qed.

Lemma candidate_agree c (o o' : buf Q) base j k :
  record_ok c ->
  (forall f, 0 <= f < box_data_length c ->
     o (base + k * box_data_length c + f) = o' (base + k * box_data_length c + f)) ->
  (forall f, 0 <= f < box_data_length c ->
     o (base + j * box_data_length c + f) = o' (base + j * box_data_length c + f)) ->
  candidate_compared c o base j k = candidate_compared c o' base j k /\
  candidate_iou c o base j k = candidate_iou c o' base j k.
Proof.
  intros [Hs [Hid [Hc0 Hc3]]] Hk Hj. split.
  - unfold candidate_compared. rewrite (Hk (score_index c)) by lia.
    destruct (id_index c <? 0) eqn:E.
    + now rewrite !orb_true_r.
    + apply Z.ltb_ge in E.
      rewrite (Hk (id_index c)), (Hj (id_index c)) by lia. reflexivity.
  - unfold candidate_iou. apply calculate_overlap_ext; intros d Hd.
    + rewrite <- (Z.add_assoc _ (coord_start c) d). apply Hj. lia.
    + rewrite <- (Z.add_assoc _ (coord_start c) d). apply Hk. lia.
Qed.

Lemma inner_loop_spec c base nkeep j (out : buf Q) :
  0 < max_threads c -> record_ok c -> j < nkeep ->
  let out' :=
    for_range 0 (ceil_div (nkeep - (j + 1)) (max_threads c)) (fun _k =>
      for_range 0 (max_threads c) (fun tx =>
        suppress_candidate c base nkeep j _k tx)) out in
  (forall k f, j < k < nkeep -> 0 <= f < box_data_length c ->
     out' (base + k * box_data_length c + f)
     = suppress_box c base nkeep j (k - (j + 1)) out (base + k * box_data_length c + f)) /\
  (forall p, (forall k f, j < k < nkeep -> 0 <= f < box_data_length c ->
                p <> base + k * box_data_length c + f) -> out' p = out p).
Proof.
  intros Hmt Hrec Hj out'. subst out'.
  destruct Hrec as [Hs [Hid [Hc0 Hc3]]].
  assert (Hrec : record_ok c) by (unfold record_ok; auto).
  set (len := box_data_length c) in *.
  set (NI := ceil_div (nkeep - (j + 1)) (max_threads c)).
  assert (HNI : 0 <= NI) by (apply ceil_div_nonneg; lia).
  rewrite (for_range_ext 0 NI _
             (fun _k => for_range 0 (max_threads c)
                (fun tx => suppress_box c base nkeep j (_k * max_threads c + tx)))).
  2:{ intros _k s' _. apply for_range_ext. intros tx s'' _.
      apply suppress_candidate_box. }
  rewrite (grid_flatten NI (max_threads c) (suppress_box c base nkeep j) out HNI Hmt).
  set (N := NI * max_threads c).
  pose (own := fun t p => j + 1 + t < nkeep /\
                          exists f, 0 <= f < len /\ p = base + (j + 1 + t) * len + f).
  pose (shared := fun p => exists f, 0 <= f < len /\ p = base + j * len + f).
  assert (RF : forall b p,
    (forall t, 0 <= t < N -> own t p ->
       for_range 0 N (suppress_box c base nkeep j) b p = suppress_box c base nkeep j t b p) /\
    ((forall t, 0 <= t < N -> ~ own t p) ->
       for_range 0 N (suppress_box c base nkeep j) b p = b p)).
  { apply (for_range_race_free_shared (suppress_box c base nkeep j) own shared 0 N).
    - intros t b p Ht Hno. rewrite suppress_box_eval. fold len.
      destruct (j + 1 + t <? nkeep) eqn:E1; [|reflexivity]. cbn [andb].
      apply Z.ltb_lt in E1.
      destruct (_ && _); [|reflexivity].
      destruct (_ || _) eqn:E2; [|reflexivity].
      exfalso. apply Hno. split; [exact E1|].
      apply orb_true_iff in E2. destruct E2 as [E2|E2].
      + apply andb_true_iff in E2. destruct E2 as [E3 E4].
        apply Z.geb_le in E3. apply Z.eqb_eq in E4.
        exists (id_index c). split; [lia|exact E4].
      + apply Z.eqb_eq in E2. exists (score_index c). split; [lia|exact E2].
    - intros t b b' p Ht Hq [Hlt [f [Hf ->]]].
      rewrite !suppress_box_eval. fold len.
      destruct (candidate_agree c b b' base j (j + 1 + t) Hrec) as [E1 E2].
      + intros f' Hf'. apply Hq. left. split; [exact Hlt|]. exists f'. auto.
      + intros f' Hf'. apply Hq. right. exists f'. auto.
      + rewrite E1, E2.
        rewrite (Hq (base + (j + 1 + t) * len + f)); [reflexivity|].
        left. split; [exact Hlt|]. exists f. auto.
    - intros t t' p Ht Ht' Hne [Hlt [f [Hf ->]]] [Hlt' [f' [Hf' E]]].
      assert (E' : (j + 1 + t) * len + f = (j + 1 + t') * len + f') by lia.
      destruct (row_index_inj len _ _ f f' Hf Hf' E'). lia.
    - intros t p Ht [f [Hf ->]] [Hlt [f' [Hf' E]]].
      assert (E' : j * len + f = (j + 1 + t) * len + f') by lia.
      destruct (row_index_inj len _ _ f f' Hf Hf' E'). lia. }
  split.
  - intros k f Hk Hf.
    apply (proj1 (RF out _)).
    + split; [lia|].
      pose proof (ceil_div_covers (nkeep - (j + 1)) (max_threads c) (k - (j + 1))
                    Hmt ltac:(lia)).
      unfold N, NI. lia.
    + split; [lia|]. exists f. split; [exact Hf|]. f_equal. f_equal. lia.
  - intros p Hp. apply (proj2 (RF out p)).
    intros t Ht [Hlt [f [Hf E]]]. apply (Hp (j + 1 + t) f); [lia|exact Hf|exact E].
Qed.

(** *** The overlap of two boxes *)


Lemma overlap_side_bounds (al ar bl br : Q) :
  (0 <= Qmax 0 (Qmin (Qmax al ar) (Qmax bl br) - Qmax (Qmin al ar) (Qmin bl br)))%Q /\
  (Qmax 0 (Qmin (Qmax al ar) (Qmax bl br) - Qmax (Qmin al ar) (Qmin bl br))
   <= Qmax al ar - Qmin al ar)%Q /\
  (Qmax 0 (Qmin (Qmax al ar) (Qmax bl br) - Qmax (Qmin al ar) (Qmin bl br))
   <= Qmax bl br - Qmin bl br)%Q.
Proof.
  pose proof (Q.le_min_l al ar). pose proof (Q.le_max_l al ar).
  pose proof (Q.le_min_l bl br). pose proof (Q.le_max_l bl br).
  pose proof (Q.le_min_l (Qmax al ar) (Qmax bl br)).
  pose proof (Q.le_min_r (Qmax al ar) (Qmax bl br)).
  pose proof (Q.le_max_l (Qmin al ar) (Qmin bl br)).
  pose proof (Q.le_max_r (Qmin al ar) (Qmin bl br)).
  split; [apply Q.le_max_l|].
  split; apply Q.max_lub; lra.
Qed.

Lemma calculate_overlap_sym out a b :
  (calculate_overlap out a b == calculate_overlap out b a)%Q.
Proof.
  unfold calculate_overlap, get_boundaries.
  set (al := Qmin (out a) (out (a + 2))). set (at_ := Qmin (out (a + 1)) (out (a + 3))).
  set (ar := Qmax (out a) (out (a + 2))). set (ab := Qmax (out (a + 1)) (out (a + 3))).
  set (bl := Qmin (out b) (out (b + 2))). set (bt := Qmin (out (b + 1)) (out (b + 3))).
  set (br := Qmax (out b) (out (b + 2))). set (bb := Qmax (out (b + 1)) (out (b + 3))).
  assert (Ew : (Qmax 0 (Qmin ar br - Qmax al bl) == Qmax 0 (Qmin br ar - Qmax bl al))%Q).
  { now rewrite (Q.min_comm ar br), (Q.max_comm al bl). }
  assert (Eh : (Qmax 0 (Qmin ab bb - Qmax at_ bt) == Qmax 0 (Qmin bb ab - Qmax bt at_))%Q).
  { now rewrite (Q.min_comm ab bb), (Q.max_comm at_ bt). }
  set (w := Qmax 0 (Qmin ar br - Qmax al bl)) in *.
  set (w' := Qmax 0 (Qmin br ar - Qmax bl al)) in *.
  set (h := Qmax 0 (Qmin ab bb - Qmax at_ bt)) in *.
  set (h' := Qmax 0 (Qmin bb ab - Qmax bt at_)) in *.
  assert (Eu : ((ar - al) * (ab - at_) + (br - bl) * (bb - bt) - h * w
                == (br - bl) * (bb - bt) + (ar - al) * (ab - at_) - h' * w')%Q).
  { rewrite Ew, Eh. ring. }
  destruct (Qle_bool ((ar - al) * (ab - at_) + (br - bl) * (bb - bt) - h * w) 0) eqn:E1;
    destruct (Qle_bool ((br - bl) * (bb - bt) + (ar - al) * (ab - at_) - h' * w') 0) eqn:E2.
  - reflexivity.
  - rewrite Eu in E1. congruence.
  - rewrite Eu in E1. congruence.
  - rewrite Eu, Ew, Eh. reflexivity.
Qed.



(** * The properties of the specification *)

(** Concrete buffers for the examples: the elements of [l], then [d]. *)
Definition buffer_of {A} (d : A) (l : list A) : buf A :=
  fun k => nth (Z.to_nat k) l d.

(** ** The kernels on small inputs *)

(** Two rows of five anchors: destinations and counts of the scan. *)
Example get_valid_indices_ir_two_rows :
  let r := get_valid_indices_ir (buffer_of 0 [1; 0; 1; 1; 0; 0; 1; 1; 1; 1])
             (fun _ => 0) (fun _ => 0) 2 5 2 in
  List.map (snd r) [0; 1; 2; 3; 4; 5; 6; 7; 8; 9] = [0; 1; 1; 2; 3; 0; 0; 1; 2; 3]
  /\ List.map (fst r) [0; 1] = [3; 4].
Proof. vm_compute. split; reflexivity. Qed.

(** Five boxes of one class with scores 0.9, 0.8, 0.75, 0.6, 0.5; boxes 0
    and 1 overlap with IoU 0.7, the others are disjoint from all.  At
    threshold 0.5 box 1 is suppressed and four boxes are kept. *)
Example nms_ir_five_boxes :
  let r := nms_ir (mkConfig 1 5 6 4 (-1) (1 # 2) false (-1) 2 0 1 true)
             (buffer_of 0%Q [0; 9 # 10; 0; 0; 10; 10;
                             0; 8 # 10; 0; 0; 10; 7;
                             0; 3 # 4; 20; 0; 30; 10;
                             0; 6 # 10; 40; 0; 50; 10;
                             0; 1 # 2; 60; 0; 70; 10]%Q)
             (fun k => k) (fun _ => 5) (fun k => k)
             (fun _ => 0%Q) (fun _ => 0) (fun _ => 0) in
  snd r 0 = 4
  /\ List.map (snd (fst r)) [0; 1; 2; 3; 4] = [0; 2; 3; 4; -1]
  /\ List.map (fun j => Qeq_bool (fst (fst r) (j * 6 + 1)) minus_one) [0; 1; 2; 3; 4]
     = [false; true; false; false; false].
Proof. vm_compute. repeat split; reflexivity. Qed.

(** ** Valid Box Filter *)

(** C7: Validity mask rule.  For every anchor [j] of every row [i],
    [get_valid_boxes_ir] sets the flag to [1] exactly when the score at
    [score_index] is strictly greater than [score_threshold] and
    ([id_index < 0] or the class id at [id_index] is [>= 0]); in every other
    case it sets the flag to [0]. *)
Theorem get_valid_boxes_ir_rule (data : buf Q) (valid_boxes : buf Z)
    (score_threshold : Q) (id_index score_index : Z)
    (batch_size num_anchors elem_length max_threads i j : Z) :
  0 < max_threads -> 0 <= i < batch_size -> 0 <= j < num_anchors ->
  (get_valid_boxes_ir data valid_boxes score_threshold id_index score_index
     batch_size num_anchors elem_length max_threads (i * num_anchors + j) = 1
   <-> Qlt score_threshold (data ((i * num_anchors + j) * elem_length + score_index))
       /\ (id_index < 0
           \/ Qle 0 (data ((i * num_anchors + j) * elem_length + id_index))))
  /\
  (get_valid_boxes_ir data valid_boxes score_threshold id_index score_index
     batch_size num_anchors elem_length max_threads (i * num_anchors + j) = 0
   <-> ~ (Qlt score_threshold (data ((i * num_anchors + j) * elem_length + score_index))
          /\ (id_index < 0
              \/ Qle 0 (data ((i * num_anchors + j) * elem_length + id_index))))).
Proof.
  intros Hmt Hi Hj.
  rewrite get_valid_boxes_ir_flag by assumption.
  unfold valid_flag.
  set (score := data ((i * num_anchors + j) * elem_length + score_index)).
  set (cls := data ((i * num_anchors + j) * elem_length + id_index)).
  assert (Hc : Qgtb score score_threshold && ((id_index <? 0) || Qgeb cls 0) = true
               <-> (score_threshold < score)%Q /\ (id_index < 0 \/ (0 <= cls)%Q)).
  { rewrite andb_true_iff, orb_true_iff, Qgtb_true, Z.ltb_lt, Qgeb_true. tauto. }
  destruct (Qgtb score score_threshold && ((id_index <? 0) || Qgeb cls 0)).
  - split; split; intros H; try reflexivity; try discriminate.
    + apply Hc. reflexivity.
    + exfalso. apply H. apply Hc. reflexivity.
  - split; split; intros H; try reflexivity; try discriminate.
    + apply Hc in H. discriminate.
    + intros C. apply Hc in C. discriminate.
Qed.

Lemma get_valid_boxes_ir_rule_witness :
  get_valid_boxes_ir
    (buffer_of 0%Q [0; 9 # 10; 0; 0; 1; 1; -1 # 1; 8 # 10; 0; 0; 1; 1]%Q)
    (fun _ => 7) (1 # 2)%Q 0 1 1 2 6 4 (0 * 2 + 0) = 1.
Proof.
  apply (proj1 (get_valid_boxes_ir_rule
                  (buffer_of 0%Q [0; 9 # 10; 0; 0; 1; 1; -1 # 1; 8 # 10; 0; 0; 1; 1]%Q)
                  (fun _ => 7) (1 # 2)%Q 0 1 1 2 6 4 0 0
                  ltac:(lia) ltac:(lia) ltac:(lia))).
  split; [reflexivity|]. right. discriminate.
Defined.

(** ** Atomic-add lowering rule *)

(** C10: Accumulation-dtype error handling.  [cuda_atomic_add_rule]
    returns the extern [atomicAdd] call for the dtypes [int32], [float32]
    and [float64] (on a call with its two operands), and raises
    [RuntimeError] for every other dtype, whatever the operands.  The rule
    is a function of the call alone: it runs when the call is lowered. *)
Theorem cuda_atomic_add_rule_dtypes (dtype : string) (x y : PrimExpr)
    (rest args : list PrimExpr) :
  (dtype = "int32"%string \/ dtype = "float32"%string \/ dtype = "float64"%string ->
   cuda_atomic_add_rule (mkCall dtype (x :: y :: rest))
   = Ok (call_pure_extern dtype "atomicAdd" x y))
  /\
  (dtype <> "int32"%string -> dtype <> "float32"%string -> dtype <> "float64"%string ->
   cuda_atomic_add_rule (mkCall dtype args)
   = Raise (RuntimeError "only support int32, float32 and float64")).
Proof.
  split.
  - intros [-> | [-> | ->]]; reflexivity.
  - intros H1 H2 H3. unfold cuda_atomic_add_rule. cbn [call_dtype].
    apply String.eqb_neq in H1, H2, H3. now rewrite H1, H2, H3.
Qed.

Lemma cuda_atomic_add_rule_dtypes_witness :
  cuda_atomic_add_rule (mkCall "float64" [Var "x"; Var "y"])
  = Ok (call_pure_extern "float64" "atomicAdd" (Var "x") (Var "y"))
  /\ cuda_atomic_add_rule (mkCall "float16" [Var "x"; Var "y"])
     = Raise (RuntimeError "only support int32, float32 and float64").
Proof.
  split.
  - apply (proj1 (cuda_atomic_add_rule_dtypes "float64" (Var "x") (Var "y") [] [])).
    right. right. reflexivity.
  - apply (proj2 (cuda_atomic_add_rule_dtypes "float16" (Var "x") (Var "y") []
                    [Var "x"; Var "y"])); discriminate.
Defined.

(** ** IoU *)

(** ** [calculate_overlap] in floating-point arithmetic

    The kernel computes the IoU in the float type of [data].  [IEEE754]
    holds that computation on the Standard Library's specification of
    IEEE 754 binary floats ([spec_float]; round to nearest even, overflow to
    infinity, NaN), for a format given by [prec] and [emax]: [24] and [128]
    for [float32], [53] and [1024] for [float64]. *)

Module IEEE754.

(** The rational value of a finite float (0 for the others). *)
Definition SF2Q (x : spec_float) : Q :=
  match x with
  | S754_finite s m e => (inject_Z (cond_Zopp s (Zpos m)) * 2 ^ e)%Q
  | _ => 0%Q
  end.

Definition is_finite (x : spec_float) : bool :=
  match x with
  | S754_zero _ | S754_finite _ _ _ => true
  | _ => false
  end.

(** Neither a NaN nor the negative zero. *)
Definition ordinary (x : spec_float) : bool :=
  match x with
  | S754_nan | S754_zero true => false
  | _ => true
  end.


(** The constant [0.0]. *)
Definition zero : spec_float := S754_zero false.

(** [tvm.te.min] and [tvm.te.max]: the smaller, the larger operand (the
    second, the first when neither operand is smaller). *)
Definition min (x y : spec_float) : spec_float := if SFltb x y then x else y.
Definition max (x y : spec_float) : spec_float := if SFltb x y then y else x.

Definition get_boundaries (output : buf spec_float) (box_idx : Z)
    : spec_float * spec_float * spec_float * spec_float :=
  let l := min (output box_idx) (output (box_idx + 2)) in
  let t := min (output (box_idx + 1)) (output (box_idx + 3)) in
  let r := max (output box_idx) (output (box_idx + 2)) in
  let b := max (output (box_idx + 1)) (output (box_idx + 3)) in
  (l, t, r, b).

Section Format.

Variables prec emax : Z.

(** A finite float of the format. *)
Definition valid (x : spec_float) : bool := is_finite x && valid_binary prec emax x.

(** The integer [n], rounded to the format. *)
Definition of_Z (n : Z) : spec_float := binary_normalize prec emax n 0 false.

Definition calculate_overlap (out_tensor : buf spec_float) (box_a_idx box_b_idx : Z)
    : spec_float :=
  let '(a_l, a_t, a_r, a_b) := get_boundaries out_tensor box_a_idx in
  let '(b_l, b_t, b_r, b_b) := get_boundaries out_tensor box_b_idx in
  let w := max zero (SFsub prec emax (min a_r b_r) (max a_l b_l)) in
  let h := max zero (SFsub prec emax (min a_b b_b) (max a_t b_t)) in
  let area := SFmul prec emax h w in
  let u := SFsub prec emax
             (SFadd prec emax
                (SFmul prec emax (SFsub prec emax a_r a_l) (SFsub prec emax a_b a_t))
                (SFmul prec emax (SFsub prec emax b_r b_l) (SFsub prec emax b_b b_t)))
             area in
  if SFleb u zero then zero else SFdiv prec emax area u.



(** The operation [f] on [x] and [y] gives a finite float, and it is the
    exact result [g]: nothing is rounded off, nothing overflows. *)
Definition exact (f : spec_float -> spec_float -> spec_float) (g : Q -> Q -> Q)
    (x y : spec_float) : Prop :=
  is_finite (f x y) = true /\ (SF2Q (f x y) == g (SF2Q x) (SF2Q y))%Q.

(** Every arithmetic step of [calculate_overlap] on the two boxes is exact
    (the division, when it is taken). *)
Definition exact_overlap (out_tensor : buf spec_float) (box_a_idx box_b_idx : Z) : Prop :=
  let '(a_l, a_t, a_r, a_b) := get_boundaries out_tensor box_a_idx in
  let '(b_l, b_t, b_r, b_b) := get_boundaries out_tensor box_b_idx in
  let w := max zero (SFsub prec emax (min a_r b_r) (max a_l b_l)) in
  let h := max zero (SFsub prec emax (min a_b b_b) (max a_t b_t)) in
  let area := SFmul prec emax h w in
  let sa := SFmul prec emax (SFsub prec emax a_r a_l) (SFsub prec emax a_b a_t) in
  let sb := SFmul prec emax (SFsub prec emax b_r b_l) (SFsub prec emax b_b b_t) in
  let s := SFadd prec emax sa sb in
  let u := SFsub prec emax s area in
  exact (SFsub prec emax) Qminus (min a_r b_r) (max a_l b_l) /\
  exact (SFsub prec emax) Qminus (min a_b b_b) (max a_t b_t) /\
  exact (SFmul prec emax) Qmult h w /\
  exact (SFsub prec emax) Qminus a_r a_l /\
  exact (SFsub prec emax) Qminus a_b a_t /\
  exact (SFsub prec emax) Qminus b_r b_l /\
  exact (SFsub prec emax) Qminus b_b b_t /\
  exact (SFmul prec emax) Qmult (SFsub prec emax a_r a_l) (SFsub prec emax a_b a_t) /\
  exact (SFmul prec emax) Qmult (SFsub prec emax b_r b_l) (SFsub prec emax b_b b_t) /\
  exact (SFadd prec emax) Qplus sa sb /\
  exact (SFsub prec emax) Qminus s area /\
  (SFleb u zero = false -> exact (SFdiv prec emax) Qdiv area u).

End Format.

End IEEE754.

(** A box of [float32] coordinates, given as integers. *)
Definition float32_box (l : list Z) : buf spec_float :=
  buffer_of IEEE754.zero (List.map (IEEE754.of_Z 24 128) l).


(** *** The value and the order of finite floats *)

Lemma digits2_pos_bounds m :
  2 ^ (Zpos (digits2_pos m) - 1) <= Zpos m < 2 ^ Zpos (digits2_pos m).
Proof.
  induction m as [p IH|p IH|]; cbn [digits2_pos].
  - rewrite Pos2Z.inj_succ.
    replace (Z.succ (Zpos (digits2_pos p)) - 1) with (Z.succ (Zpos (digits2_pos p) - 1)) by lia.
    rewrite !Z.pow_succ_r by lia. lia.
  - rewrite Pos2Z.inj_succ.
    replace (Z.succ (Zpos (digits2_pos p)) - 1) with (Z.succ (Zpos (digits2_pos p) - 1)) by lia.
    rewrite !Z.pow_succ_r by lia. lia.
  - cbn. lia.
Qed.

Lemma canonical_digits prec emax m e :
  canonical_mantissa prec emax m e = true ->
  Zpos (digits2_pos m) <= prec /\ emin prec emax <= e /\
  (emin prec emax < e -> Zpos (digits2_pos m) = prec).
Proof.
  unfold canonical_mantissa, fexp. intros H. apply Z.eqb_eq in H. lia.
Qed.

Lemma pow2_Q_pos e : (0 < 2 ^ e)%Q.
Proof. apply Qpower_0_lt. reflexivity. Qed.

Lemma pow2_Q_split e k : 0 <= k -> (2 ^ (e + k) == inject_Z (2 ^ k) * 2 ^ e)%Q.
Proof.
  intros Hk. rewrite Qpower_plus by discriminate.
  rewrite (Zpower_Qpower 2 k Hk). change (inject_Z 2) with 2%Q. ring.
Qed.

(** Of two canonical mantissas, the one with the smaller exponent is the
    smaller number. *)
Lemma mag_lt prec emax m1 e1 m2 e2 :
  canonical_mantissa prec emax m1 e1 = true ->
  canonical_mantissa prec emax m2 e2 = true ->
  e1 < e2 ->
  (inject_Z (Zpos m1) * 2 ^ e1 < inject_Z (Zpos m2) * 2 ^ e2)%Q.
Proof.
  intros C1 C2 He.
  destruct (canonical_digits _ _ _ _ C1) as [D1 [E1 _]].
  destruct (canonical_digits _ _ _ _ C2) as [_ [_ D2]].
  specialize (D2 ltac:(lia)).
  pose proof (digits2_pos_bounds m1) as B1. pose proof (digits2_pos_bounds m2) as B2.
  replace e2 with (e1 + (e2 - e1)) by lia.
  rewrite pow2_Q_split by lia.
  rewrite Qmult_assoc, <- inject_Z_mult.
  apply Qmult_lt_compat_r; [apply pow2_Q_pos|].
  rewrite <- Zlt_Qlt.
  assert (P1 : 2 ^ Zpos (digits2_pos m1) <= 2 ^ prec) by (apply Z.pow_le_mono_r; lia).
  assert (P2 : 2 ^ prec = 2 * 2 ^ (prec - 1)).
  { replace prec with (Z.succ (prec - 1)) at 1 by lia. apply Z.pow_succ_r. lia. }
  assert (P3 : 2 ^ 1 <= 2 ^ (e2 - e1)) by (apply Z.pow_le_mono_r; lia).
  rewrite D2 in B2. change (2 ^ 1) with 2 in P3. nia.
Qed.

Lemma finite_pos m e : (0 < inject_Z (Zpos m) * 2 ^ e)%Q.
Proof.
  apply Qmult_lt_0_compat; [|apply pow2_Q_pos].
  change 0%Q with (inject_Z 0). rewrite <- Zlt_Qlt. lia.
Qed.

Lemma finite_neg m e : (inject_Z (Zneg m) * 2 ^ e == - (inject_Z (Zpos m) * 2 ^ e))%Q.
Proof.
  change (Zneg m) with (- Zpos m). rewrite inject_Z_opp. ring.
Qed.

(** What a comparison result says of two rationals. *)
Definition cmp_holds (c : comparison) (x y : Q) : Prop :=
  match c with
  | Lt => (x < y)%Q
  | Eq => (x == y)%Q
  | Gt => (y < x)%Q
  end.

Lemma pos_compare_spec prec emax m1 e1 m2 e2 :
  canonical_mantissa prec emax m1 e1 = true ->
  canonical_mantissa prec emax m2 e2 = true ->
  cmp_holds (match Z.compare e1 e2 with
             | Lt => Lt
             | Gt => Gt
             | Eq => Pos.compare_cont Eq m1 m2
             end)
    (inject_Z (Zpos m1) * 2 ^ e1) (inject_Z (Zpos m2) * 2 ^ e2).
Proof.
  intros C1 C2.
  destruct (Z.compare_spec e1 e2) as [E|L|G].
  - subst e2. change (Pos.compare_cont Eq m1 m2) with (Pos.compare m1 m2).
    destruct (Pos.compare_spec m1 m2) as [E|L|G]; cbn [cmp_holds].
    + subst. reflexivity.
    + apply Qmult_lt_compat_r; [apply pow2_Q_pos|]. rewrite <- Zlt_Qlt. lia.
    + apply Qmult_lt_compat_r; [apply pow2_Q_pos|]. rewrite <- Zlt_Qlt. lia.
  - cbn [cmp_holds]. eapply mag_lt; eassumption.
  - cbn [cmp_holds]. eapply mag_lt; eassumption || lia.
Qed.

Lemma valid_finite prec emax s m e :
  IEEE754.valid prec emax (S754_finite s m e) = true ->
  canonical_mantissa prec emax m e = true.
Proof.
  unfold IEEE754.valid, valid_binary, bounded. cbn [IEEE754.is_finite andb].
  intros H. apply andb_true_iff in H. apply H.
Qed.

(** [SFcompare] orders the finite floats of a format by their values. *)
Lemma SFcompare_spec prec emax x y :
  IEEE754.valid prec emax x = true -> IEEE754.valid prec emax y = true ->
  exists c, SFcompare x y = Some c /\ cmp_holds c (IEEE754.SF2Q x) (IEEE754.SF2Q y).
Proof.
  intros Vx Vy.
  destruct x as [sx|sx| |sx mx ex]; try discriminate Vx;
    destruct y as [sy|sy| |sy my ey]; try discriminate Vy;
    cbn [SFcompare IEEE754.SF2Q].
  - exists Eq. split; [reflexivity|]. cbn. reflexivity.
  - pose proof (finite_pos my ey) as P. pose proof (finite_neg my ey) as N.
    destruct sy; eexists; (split; [reflexivity|]); cbn [cmp_holds cond_Zopp Z.opp]; lra.
  - pose proof (finite_pos mx ex) as P. pose proof (finite_neg mx ex) as N.
    destruct sx; eexists; (split; [reflexivity|]); cbn [cmp_holds cond_Zopp Z.opp]; lra.
  - pose proof (finite_pos mx ex) as Px. pose proof (finite_neg mx ex) as Nx.
    pose proof (finite_pos my ey) as Py. pose proof (finite_neg my ey) as Ny.
    pose proof (pos_compare_spec prec emax mx ex my ey
                  (valid_finite _ _ _ _ _ Vx) (valid_finite _ _ _ _ _ Vy)) as C.
    destruct sx, sy; eexists; (split; [reflexivity|]); cbn [cond_Zopp Z.opp].
    + destruct (ex ?= ey); [destruct (Pos.compare_cont Eq mx my)|..];
        cbn [cmp_holds CompOpp] in *; lra.
    + cbn [cmp_holds]. lra.
    + cbn [cmp_holds]. lra.
    + exact C.
Qed.

Lemma min_value prec emax x y :
  IEEE754.valid prec emax x = true -> IEEE754.valid prec emax y = true ->
  IEEE754.valid prec emax (IEEE754.min x y) = true /\
  (IEEE754.SF2Q (IEEE754.min x y) == Qmin (IEEE754.SF2Q x) (IEEE754.SF2Q y))%Q.
Proof.
  intros Vx Vy. destruct (SFcompare_spec prec emax x y Vx Vy) as [c [E H]].
  unfold IEEE754.min, SFltb. rewrite E.
  destruct c; cbn [cmp_holds] in H; (split; [assumption|]).
  - rewrite Q.min_r; [reflexivity|]. rewrite H. apply Qle_refl.
  - rewrite Q.min_l; [reflexivity|]. apply Qlt_le_weak. exact H.
  - rewrite Q.min_r; [reflexivity|]. apply Qlt_le_weak. exact H.
Qed.

Lemma max_value prec emax x y :
  IEEE754.valid prec emax x = true -> IEEE754.valid prec emax y = true ->
  IEEE754.valid prec emax (IEEE754.max x y) = true /\
  (IEEE754.SF2Q (IEEE754.max x y) == Qmax (IEEE754.SF2Q x) (IEEE754.SF2Q y))%Q.
Proof.
  intros Vx Vy. destruct (SFcompare_spec prec emax x y Vx Vy) as [c [E H]].
  unfold IEEE754.max, SFltb. rewrite E.
  destruct c; cbn [cmp_holds] in H; (split; [assumption|]).
  - rewrite Q.max_l; [reflexivity|]. rewrite H. apply Qle_refl.
  - rewrite Q.max_r; [reflexivity|]. apply Qlt_le_weak. exact H.
  - rewrite Q.max_l; [reflexivity|]. apply Qlt_le_weak. exact H.
Qed.

Lemma max_zero_value z :
  IEEE754.is_finite z = true ->
  IEEE754.is_finite (IEEE754.max IEEE754.zero z) = true /\
  (IEEE754.SF2Q (IEEE754.max IEEE754.zero z) == Qmax 0 (IEEE754.SF2Q z))%Q.
Proof.
  intros Fz. destruct z as [s|s| |s m e]; try discriminate Fz.
  - cbn. split; reflexivity.
  - pose proof (finite_pos m e) as P. pose proof (finite_neg m e) as N.
    destruct s; cbn [IEEE754.max IEEE754.zero SFltb SFcompare IEEE754.is_finite
                     IEEE754.SF2Q cond_Zopp Z.opp]; (split; [reflexivity|]).
    + rewrite Q.max_l; [reflexivity|lra].
    + rewrite Q.max_r; [reflexivity|lra].
Qed.

Lemma leb_zero z :
  IEEE754.is_finite z = true ->
  SFleb z IEEE754.zero = Qle_bool (IEEE754.SF2Q z) 0.
Proof.
  intros Fz. destruct z as [s|s| |s m e]; try discriminate Fz.
  - reflexivity.
  - pose proof (finite_pos m e) as P. pose proof (finite_neg m e) as N.
    destruct s; cbn [IEEE754.zero SFleb SFcompare IEEE754.SF2Q cond_Zopp Z.opp]; symmetry.
    + apply Qle_bool_iff. lra.
    + destruct (Qle_bool _ 0) eqn:E; [|reflexivity].
      apply Qle_bool_iff in E. lra.
Qed.

Lemma Qle_bool_ext (x y z : Q) : (x == y)%Q -> Qle_bool x z = Qle_bool y z.
Proof.
  intros E. destruct (Qle_bool x z) eqn:E1; symmetry.
  - apply Qle_bool_iff. rewrite <- E. now apply Qle_bool_iff.
  - destruct (Qle_bool y z) eqn:E2; [|reflexivity].
    apply Qle_bool_iff in E2. rewrite <- E in E2. apply Qle_bool_iff in E2. congruence.
Qed.

(** *** A run without rounding computes the exact IoU *)

Lemma calculate_overlap_exact prec emax (out : buf spec_float) a b :
  (forall d, 0 <= d <= 3 -> IEEE754.valid prec emax (out (a + d)) = true) ->
  (forall d, 0 <= d <= 3 -> IEEE754.valid prec emax (out (b + d)) = true) ->
  IEEE754.exact_overlap prec emax out a b ->
  IEEE754.is_finite (IEEE754.calculate_overlap prec emax out a b) = true /\
  (IEEE754.SF2Q (IEEE754.calculate_overlap prec emax out a b)
   == calculate_overlap (fun k => IEEE754.SF2Q (out k)) a b)%Q.
Proof.
  intros Va Vb.
  pose proof (Va 0 ltac:(lia)) as Va0. rewrite Z.add_0_r in Va0.
  pose proof (Vb 0 ltac:(lia)) as Vb0. rewrite Z.add_0_r in Vb0.
  pose proof (Va 1 ltac:(lia)) as Va1. pose proof (Va 2 ltac:(lia)) as Va2.
  pose proof (Va 3 ltac:(lia)) as Va3.
  pose proof (Vb 1 ltac:(lia)) as Vb1. pose proof (Vb 2 ltac:(lia)) as Vb2.
  pose proof (Vb 3 ltac:(lia)) as Vb3.
  unfold IEEE754.exact_overlap, IEEE754.exact, IEEE754.calculate_overlap, calculate_overlap,
    IEEE754.get_boundaries, get_boundaries.
  destruct (min_value prec emax _ _ Va0 Va2) as [Val Eal].
  destruct (min_value prec emax _ _ Va1 Va3) as [Vat Eat].
  destruct (max_value prec emax _ _ Va0 Va2) as [Var Ear].
  destruct (max_value prec emax _ _ Va1 Va3) as [Vab Eab].
  destruct (min_value prec emax _ _ Vb0 Vb2) as [Vbl Ebl].
  destruct (min_value prec emax _ _ Vb1 Vb3) as [Vbt Ebt].
  destruct (max_value prec emax _ _ Vb0 Vb2) as [Vbr Ebr].
  destruct (max_value prec emax _ _ Vb1 Vb3) as [Vbb Ebb].
  set (a_l := IEEE754.min (out a) (out (a + 2))) in *.
  set (a_t := IEEE754.min (out (a + 1)) (out (a + 3))) in *.
  set (a_r := IEEE754.max (out a) (out (a + 2))) in *.
  set (a_b := IEEE754.max (out (a + 1)) (out (a + 3))) in *.
  set (b_l := IEEE754.min (out b) (out (b + 2))) in *.
  set (b_t := IEEE754.min (out (b + 1)) (out (b + 3))) in *.
  set (b_r := IEEE754.max (out b) (out (b + 2))) in *.
  set (b_b := IEEE754.max (out (b + 1)) (out (b + 3))) in *.
  destruct (min_value prec emax _ _ Var Vbr) as [_ Emr].
  destruct (max_value prec emax _ _ Val Vbl) as [_ Eml].
  destruct (min_value prec emax _ _ Vab Vbb) as [_ Emb].
  destruct (max_value prec emax _ _ Vat Vbt) as [_ Emt].
  intros [[Fdw Edw] [[Fdh Edh] [[Far Earea] [[_ Ewa] [[_ Eha] [[_ Ewb] [[_ Ehb]
           [[_ Esa] [[_ Esb] [[_ Es] [[Fu Eu] Hdiv]]]]]]]]]]].
  set (dw := SFsub prec emax (IEEE754.min a_r b_r) (IEEE754.max a_l b_l)) in *.
  set (dh := SFsub prec emax (IEEE754.min a_b b_b) (IEEE754.max a_t b_t)) in *.
  destruct (max_zero_value dw Fdw) as [Fw Ew].
  destruct (max_zero_value dh Fdh) as [Fh Eh].
  set (w := IEEE754.max IEEE754.zero dw) in *.
  set (h := IEEE754.max IEEE754.zero dh) in *.
  set (area := SFmul prec emax h w) in *.
  set (u := SFsub prec emax _ area) in *.
  set (AL := Qmin (IEEE754.SF2Q (out a)) (IEEE754.SF2Q (out (a + 2)))) in *.
  set (AT := Qmin (IEEE754.SF2Q (out (a + 1))) (IEEE754.SF2Q (out (a + 3)))) in *.
  set (AR := Qmax (IEEE754.SF2Q (out a)) (IEEE754.SF2Q (out (a + 2)))) in *.
  set (AB := Qmax (IEEE754.SF2Q (out (a + 1))) (IEEE754.SF2Q (out (a + 3)))) in *.
  set (BL := Qmin (IEEE754.SF2Q (out b)) (IEEE754.SF2Q (out (b + 2)))) in *.
  set (BT := Qmin (IEEE754.SF2Q (out (b + 1))) (IEEE754.SF2Q (out (b + 3)))) in *.
  set (BR := Qmax (IEEE754.SF2Q (out b)) (IEEE754.SF2Q (out (b + 2)))) in *.
  set (BB := Qmax (IEEE754.SF2Q (out (b + 1))) (IEEE754.SF2Q (out (b + 3)))) in *.
  assert (EW : (IEEE754.SF2Q w == Qmax 0 (Qmin AR BR - Qmax AL BL))%Q).
  { rewrite Ew, Edw, Emr, Eml, Ear, Ebr, Eal, Ebl. reflexivity. }
  assert (EH : (IEEE754.SF2Q h == Qmax 0 (Qmin AB BB - Qmax AT BT))%Q).
  { rewrite Eh, Edh, Emb, Emt, Eab, Ebb, Eat, Ebt. reflexivity. }
  assert (EA : (IEEE754.SF2Q area
                == Qmax 0 (Qmin AB BB - Qmax AT BT) * Qmax 0 (Qmin AR BR - Qmax AL BL))%Q).
  { rewrite Earea, EW, EH. reflexivity. }
  assert (EU : (IEEE754.SF2Q u
                == (AR - AL) * (AB - AT) + (BR - BL) * (BB - BT)
                   - Qmax 0 (Qmin AB BB - Qmax AT BT) * Qmax 0 (Qmin AR BR - Qmax AL BL))%Q).
  { rewrite Eu, Es, Esa, Esb, Ewa, Eha, Ewb, Ehb, EA, Ear, Eal, Eab, Eat, Ebr, Ebl, Ebb, Ebt.
    reflexivity. }
  rewrite (leb_zero u Fu) in *.
  rewrite <- (Qle_bool_ext _ _ 0 EU).
  destruct (Qle_bool (IEEE754.SF2Q u) 0) eqn:E.
  - split; reflexivity.
  - destruct (Hdiv eq_refl) as [Fd Ed]. split; [exact Fd|].
    rewrite Ed, EA, EU. reflexivity.
Qed.

(** *** Exchanging the two boxes *)


(** Two ordinary floats are ordered one way or the other, or are the same. *)
Lemma SFltb_cases x y :
  IEEE754.ordinary x = true -> IEEE754.ordinary y = true ->
  (SFltb x y = true /\ SFltb y x = false) \/
  (SFltb x y = false /\ SFltb y x = true) \/
  x = y.
Proof.
  intros Ox Oy. unfold SFltb.
  destruct x as [sx|sx| |sx mx ex], y as [sy|sy| |sy my ey];
    try discriminate Ox; try discriminate Oy; cbn [SFcompare].
  - destruct sx, sy; try discriminate Ox; try discriminate Oy. auto.
  - destruct sy; auto.
  - destruct sy; auto.
  - destruct sx; auto.
  - destruct sx, sy; auto.
  - destruct sx; auto.
  - destruct sx; auto.
  - destruct sy; auto.
  - rewrite (Z.compare_antisym ex ey).
    change (Pos.compare_cont Eq my mx) with (Pos.compare my mx).
    change (Pos.compare_cont Eq mx my) with (Pos.compare mx my).
    rewrite (Pos.compare_antisym mx my).
    destruct sx, sy; auto;
      destruct (ex ?= ey) eqn:E; cbn [CompOpp]; auto;
      apply Z.compare_eq in E; subst ey;
      destruct (mx ?= my)%positive eqn:M; cbn [CompOpp]; auto;
      apply Pos.compare_eq in M; subst my; auto.
Qed.

Lemma min_comm x y :
  IEEE754.ordinary x = true -> IEEE754.ordinary y = true ->
  IEEE754.min x y = IEEE754.min y x.
Proof.
  intros Ox Oy. unfold IEEE754.min.
  destruct (SFltb_cases x y Ox Oy) as [[-> ->]|[[-> ->]| ->]]; reflexivity.
Qed.

Lemma max_comm x y :
  IEEE754.ordinary x = true -> IEEE754.ordinary y = true ->
  IEEE754.max x y = IEEE754.max y x.
Proof.
  intros Ox Oy. unfold IEEE754.max.
  destruct (SFltb_cases x y Ox Oy) as [[-> ->]|[[-> ->]| ->]]; reflexivity.
Qed.




(** *** The sign of the result *)







(** *** A box against itself *)
















(** The four coordinates of a concrete box, one by one. *)
Ltac each_coordinate :=
  let d := fresh "d" in let Hd := fresh "Hd" in
  intros d Hd;
  assert (d = 0 \/ d = 1 \/ d = 2 \/ d = 3) as [->|[->|[->| ->]]] by lia;
  vm_compute; reflexivity.




(** ** Exclusive Scan Compactor *)

Lemma rows_mask01 valid_boxes batch_size num_anchors :
  (forall i k, 0 <= i < batch_size -> 0 <= k < num_anchors ->
     valid_boxes (i * num_anchors + k) = 0 \/ valid_boxes (i * num_anchors + k) = 1) ->
  forall i, 0 <= i < batch_size -> mask01 (row_of valid_boxes num_anchors i) num_anchors.
Proof. intros H i Hi k Hk. unfold row_of. now apply H. Qed.

(** C1: Exclusive scan correctness.  For a 0/1 validity mask with
    [num_anchors > 0], after [get_valid_indices_ir] every row has
    [valid_indices[j]] = the number of indices [i < j] with [mask[i] = 1],
    for every [j < num_anchors], and [valid_count[row]] = the number of
    indices with [mask[i] = 1]; with [num_anchors = 0], [valid_count[row]]
    is 0 for every row and [valid_indices] is left as it was. *)
Theorem get_valid_indices_ir_scan (valid_boxes valid_count valid_indices : buf Z)
    (batch_size num_anchors max_threads : Z) :
  0 < max_threads -> 0 <= num_anchors < 2 ^ 31 ->
  (forall i k, 0 <= i < batch_size -> 0 <= k < num_anchors ->
     valid_boxes (i * num_anchors + k) = 0 \/ valid_boxes (i * num_anchors + k) = 1) ->
  (0 < num_anchors ->
   forall i, 0 <= i < batch_size ->
     (forall j, 0 <= j < num_anchors ->
        snd (get_valid_indices_ir valid_boxes valid_count valid_indices
               batch_size num_anchors max_threads) (i * num_anchors + j)
        = count_valid (row_of valid_boxes num_anchors i) j) /\
     fst (get_valid_indices_ir valid_boxes valid_count valid_indices
            batch_size num_anchors max_threads) i
     = count_valid (row_of valid_boxes num_anchors i) num_anchors)
  /\
  (num_anchors = 0 ->
   (forall i, 0 <= i < batch_size ->
      fst (get_valid_indices_ir valid_boxes valid_count valid_indices
             batch_size num_anchors max_threads) i = 0) /\
   snd (get_valid_indices_ir valid_boxes valid_count valid_indices
          batch_size num_anchors max_threads) = valid_indices).
Proof.
  intros Hmt Hn H01. split.
  - intros Hpos i Hi.
    pose proof (rows_mask01 valid_boxes batch_size num_anchors H01) as Hrows.
    destruct (get_valid_indices_ir_prefix valid_boxes valid_count valid_indices
                batch_size num_anchors max_threads Hmt ltac:(lia) Hrows i Hi)
      as [Hvi Hvc].
    split.
    + intros j Hj. rewrite Hvi by assumption.
      apply (prefix_sum_count _ num_anchors); [apply Hrows; assumption|lia].
    + rewrite Hvc.
      apply (prefix_sum_count _ num_anchors); [apply Hrows; assumption|lia].
  - intros ->. unfold get_valid_indices_ir. cbn [Z.ltb Z.compare fst snd].
    split; [|reflexivity].
    intros i Hi.
    apply (for_range_establish (fun vc => vc i = 0) 0 batch_size _ i valid_count Hi).
    + intros vc. replace (i <? batch_size) with true by (symmetry; apply Z.ltb_lt; lia).
      apply store_eq.
    + intros t vc _ Hne H. destruct (t <? batch_size); [|exact H].
      rewrite store_neq by lia. exact H.
Qed.

Lemma get_valid_indices_ir_scan_witness :
  snd (get_valid_indices_ir (buffer_of 0 [1; 0; 1; 1; 0]) (fun _ => 0) (fun _ => 0) 1 5 2)
    (0 * 5 + 3)
  = count_valid (row_of (buffer_of 0 [1; 0; 1; 1; 0]) 5 0) 3.
Proof.
  refine (proj1 (proj1 (get_valid_indices_ir_scan
                          (buffer_of 0 [1; 0; 1; 1; 0]) (fun _ => 0) (fun _ => 0) 1 5 2
                          ltac:(lia) ltac:(lia) _)
                   ltac:(lia) 0 ltac:(lia)) 3 ltac:(lia)).
  intros i k Hi Hk. assert (i = 0) by lia. subst i.
  assert (k = 0 \/ k = 1 \/ k = 2 \/ k = 3 \/ k = 4) as Hc by lia.
  destruct Hc as [-> | [-> | [-> | [-> | ->]]]]; cbn; auto.
Defined.

(** ** Box Compactor *)

(** C2: Box compaction is stable and sentinel-filled.  With the
    destination array produced by the scan of a 0/1 mask, after
    [get_valid_counts_ir] every row holds its valid anchors in the slots
    [0 .. valid_count-1], in their original relative order: the valid anchor
    [j] is at slot [count_valid mask j], with all [elem_length] fields
    copied and [out_indices] holding [j]; every slot below [valid_count] is
    the slot of a valid anchor; every other slot of the row holds [-1] in
    every field and in [out_indices]. *)
Theorem get_valid_counts_ir_compaction (data : buf Q)
    (valid_boxes valid_count valid_indices : buf Z) (out : buf Q) (out_indices : buf Z)
    (batch_size num_anchors elem_length max_threads i : Z) :
  0 < max_threads -> 0 <= num_anchors < 2 ^ 31 -> 0 <= i < batch_size ->
  (forall i k, 0 <= i < batch_size -> 0 <= k < num_anchors ->
     valid_boxes (i * num_anchors + k) = 0 \/ valid_boxes (i * num_anchors + k) = 1) ->
  let scan := get_valid_indices_ir valid_boxes valid_count valid_indices
                batch_size num_anchors max_threads in
  let r := get_valid_counts_ir data (snd scan) valid_boxes out out_indices
             batch_size num_anchors elem_length max_threads in
  let dest := count_valid (row_of valid_boxes num_anchors i) in
  (forall j, 0 <= j < num_anchors -> valid_boxes (i * num_anchors + j) = 1 ->
     0 <= dest j < fst scan i /\
     (forall k, 0 <= k < elem_length ->
        fst r ((i * num_anchors + dest j) * elem_length + k)
        = data ((i * num_anchors + j) * elem_length + k)) /\
     snd r (i * num_anchors + dest j) = j)
  /\
  (forall j j', 0 <= j < j' -> j' < num_anchors ->
     valid_boxes (i * num_anchors + j) = 1 -> valid_boxes (i * num_anchors + j') = 1 ->
     dest j < dest j')
  /\
  (forall s, 0 <= s < fst scan i ->
     exists j, 0 <= j < num_anchors /\ valid_boxes (i * num_anchors + j) = 1 /\ dest j = s)
  /\
  (forall s, fst scan i <= s < num_anchors ->
     (forall k, 0 <= k < elem_length ->
        fst r ((i * num_anchors + s) * elem_length + k) = minus_one) /\
     snd r (i * num_anchors + s) = -1).
Proof.
  intros Hmt Hn Hi H01 scan r dest.
  destruct (Z.eq_dec num_anchors 0) as [Hz|Hnz].
  { assert (Hc : fst scan i = 0).
    { unfold scan. subst num_anchors. unfold get_valid_indices_ir.
      cbn [Z.ltb Z.compare fst snd].
      apply (for_range_establish (fun vc => vc i = 0) 0 batch_size _ i valid_count Hi).
      - intros vc. replace (i <? batch_size) with true by (symmetry; apply Z.ltb_lt; lia).
        apply store_eq.
      - intros t vc _ Hne H. destruct (t <? batch_size); [|exact H].
        rewrite store_neq by lia. exact H. }
    rewrite Hc.
    split; [|split; [|split]]; intros; exfalso; lia. }
  assert (Hpos : 0 < num_anchors) by lia.
  pose proof (rows_mask01 valid_boxes batch_size num_anchors H01) as Hrows.
  set (n := num_anchors) in *.
  assert (Hscan : forall i', 0 <= i' < batch_size ->
            (forall j, 0 <= j < n ->
               snd scan (i' * n + j) = prefix_sum (row_of valid_boxes n i') j) /\
            fst scan i' = prefix_sum (row_of valid_boxes n i') n).
  { intros i' Hi'. apply get_valid_indices_ir_prefix; auto. lia. }
  assert (Hdest : forall j, 0 <= j <= n -> dest j = prefix_sum (row_of valid_boxes n i) j).
  { intros j Hj. unfold dest. symmetry.
    apply (prefix_sum_count _ n); [apply Hrows; exact Hi|lia]. }
  assert (Hrange : forall i' t, 0 <= i' < batch_size -> 0 <= t < n ->
            0 < valid_boxes (i' * n + t) -> 0 <= snd scan (i' * n + t) < n).
  { intros i' t Hi' Ht Hv. rewrite (proj1 (Hscan i' Hi')) by assumption.
    pose proof (prefix_sum_mono _ n 0 t (Hrows i' Hi') ltac:(lia) ltac:(lia)).
    rewrite prefix_sum_0 in *. lia. }
  assert (Hone : forall i' t, 0 <= i' < batch_size -> 0 <= t < n ->
            0 < valid_boxes (i' * n + t) -> row_of valid_boxes n i' t = 1).
  { intros i' t Hi' Ht Hv. unfold row_of. destruct (H01 i' t Hi' Ht); lia. }
  assert (Hinj : forall i' t t', 0 <= i' < batch_size -> 0 <= t < n -> 0 <= t' < n ->
            0 < valid_boxes (i' * n + t) -> 0 < valid_boxes (i' * n + t') ->
            snd scan (i' * n + t) = snd scan (i' * n + t') -> t = t').
  { intros i' t t' Hi' Ht Ht' Hv Hv' E.
    rewrite !(proj1 (Hscan i' Hi')) in E by assumption.
    destruct (Z.lt_trichotomy t t') as [L|[L|L]]; [|exact L|].
    - pose proof (prefix_valid_strict _ n t t' (Hrows i' Hi') ltac:(lia) ltac:(lia)
                    (Hone i' t Hi' Ht Hv)). lia.
    - pose proof (prefix_valid_strict _ n t' t (Hrows i' Hi') ltac:(lia) ltac:(lia)
                    (Hone i' t' Hi' Ht' Hv')). lia. }
  pose proof (fill_launch_spec batch_size n elem_length max_threads out out_indices
                Hmt ltac:(lia)) as Hfill.
  cbv zeta in Hfill.
  unfold r, get_valid_counts_ir. fold n.
  destruct (launch batch_size (n / max_threads + 1) max_threads
              (fill_thread n elem_length max_threads) (out, out_indices)) as [o1 oi1].
  cbn [fst snd] in Hfill.
  destruct (scatter_launch_spec data (snd scan) valid_boxes batch_size n elem_length
              max_threads o1 oi1 Hmt ltac:(lia) Hrange Hinj i Hi) as [Hput Hrest].
  set (r' := launch batch_size (n / max_threads + 1) max_threads
               (scatter_thread data (snd scan) valid_boxes n elem_length max_threads)
               (o1, oi1)) in *.
  split; [|split; [|split]].
  - intros j Hj Hv.
    assert (Hv' : 0 < valid_boxes (i * n + j)) by lia.
    rewrite Hdest by lia.
    rewrite <- (proj1 (Hscan i Hi) j Hj).
    destruct (Hput j Hj Hv') as [Hf Hix].
    split; [|split; assumption].
    rewrite (proj1 (Hscan i Hi) j Hj), (proj2 (Hscan i Hi)).
    pose proof (prefix_sum_mono _ n 0 j (Hrows i Hi) ltac:(lia) ltac:(lia)).
    pose proof (prefix_valid_strict _ n j n (Hrows i Hi) ltac:(lia) ltac:(lia) Hv).
    rewrite prefix_sum_0 in *. lia.
  - intros j j' Hj Hj' Hv Hv'. rewrite !Hdest by lia.
    apply (prefix_valid_strict _ n); auto. lia.
  - intros s Hs. rewrite (proj2 (Hscan i Hi)) in Hs.
    destruct (prefix_onto _ n s (Hrows i Hi) ltac:(lia) Hs) as [j [Hj [Hv Hp]]].
    exists j. split; [exact Hj|]. split; [exact Hv|]. rewrite Hdest by lia. exact Hp.
  - intros s Hs. rewrite (proj2 (Hscan i Hi)) in Hs.
    assert (Hs0 : 0 <= s).
    { pose proof (prefix_sum_mono _ n 0 n (Hrows i Hi) ltac:(lia) ltac:(lia)).
      rewrite prefix_sum_0 in *. lia. }
    assert (Hfree : forall t, 0 <= t < n -> 0 < valid_boxes (i * n + t) ->
              snd scan (i * n + t) <> s).
    { intros t Ht Hv. rewrite (proj1 (Hscan i Hi)) by assumption.
      pose proof (prefix_valid_strict _ n t n (Hrows i Hi) ltac:(lia) ltac:(lia)
                    (Hone i t Hi Ht Hv)). lia. }
    destruct (Hrest s ltac:(lia) Hfree) as [Hf Hix].
    destruct (Hfill i s Hi ltac:(lia)) as [Ff Fix].
    split.
    + intros k Hk. rewrite Hf by assumption. apply Ff. exact Hk.
    + rewrite Hix. exact Fix.
Qed.

Lemma get_valid_counts_ir_compaction_witness :
  snd (get_valid_counts_ir
         (buffer_of 0%Q [1 # 10; 1; 6 # 10; 2; 7 # 10; 3]%Q)
         (snd (get_valid_indices_ir (buffer_of 0 [0; 1; 1]) (fun _ => 0) (fun _ => 0) 1 3 2))
         (buffer_of 0 [0; 1; 1]) (fun _ => 0%Q) (fun _ => 0) 1 3 2 2)
    (0 * 3 + count_valid (row_of (buffer_of 0 [0; 1; 1]) 3 0) 2)
  = 2.
Proof.
  refine (proj2 (proj2 (proj1
           (get_valid_counts_ir_compaction
              (buffer_of 0%Q [1 # 10; 1; 6 # 10; 2; 7 # 10; 3]%Q)
              (buffer_of 0 [0; 1; 1]) (fun _ => 0) (fun _ => 0)
              (fun _ => 0%Q) (fun _ => 0) 1 3 2 2 0
              ltac:(lia) ltac:(lia) ltac:(lia) _)
           2 ltac:(lia) eq_refl))).
  intros i k Hi Hk. assert (i = 0) by lia. subst i.
  assert (k = 0 \/ k = 1 \/ k = 2) as Hc by lia.
  destruct Hc as [-> | [-> | ->]]; cbn; auto.
Defined.

(** ** NMS Suppressor *)

Lemma nms_ir_count (P : Z -> Prop) c data sorted_index valid_count indices out bi nvb i :
  0 <= i < batch_size c ->
  (forall s', P (snd (nms_row c sorted_index valid_count indices i s') i)) ->
  P (snd (nms_ir c data sorted_index valid_count indices out bi nvb) i).
Proof.
  intros Hi Hrow. unfold nms_ir.
  destruct (launch _ _ _ _ _) as [o b].
  apply nms_rows_count; assumption.
Qed.

(** C5: Skip-suppression identity pass.  In a row with
    [iou_threshold <= 0] or [valid_count[row] <= 0] the thread block of the
    second launch runs no suppression (it leaves [out] and [box_indices] as
    they are), and the first [valid_count[row]] boxes of the row are output
    unchanged: [out[row][j] = data[row][j]] for every [j < valid_count[row]]. *)
Theorem nms_ir_skip_identity (c : nms_config) (data : buf Q)
    (sorted_index valid_count indices : buf Z)
    (out : buf Q) (box_indices num_valid_boxes : buf Z) (i : Z) :
  0 < max_threads c -> 0 <= i < batch_size c ->
  Qle (iou_threshold c) 0 \/ valid_count i <= 0 ->
  (forall o b v,
     nms_row c sorted_index valid_count indices i (o, b, v) = (o, b, store v i 0))
  /\
  (forall j k, 0 <= j < valid_count i -> j < num_anchors c ->
     0 <= k < box_data_length c ->
     fst (fst (nms_ir c data sorted_index valid_count indices
                 out box_indices num_valid_boxes))
       (i * num_anchors c * box_data_length c + j * box_data_length c + k)
     = data (i * num_anchors c * box_data_length c + j * box_data_length c + k)).
Proof.
  intros Hmt Hi Hskip. split.
  - intros o b v. apply nms_row_skip. apply suppression_enabled_false. exact Hskip.
  - intros j k Hj Hjn Hk.
    destruct Hskip as [Hthr|Hvc]; [|lia].
    apply nms_ir_skip_copy; assumption.
Qed.

Lemma nms_ir_skip_identity_witness :
  fst (fst (nms_ir (mkConfig 1 2 6 2 (-1) 0 false (-1) 2 0 1 true)
              (buffer_of 0%Q [0; 9 # 10; 0; 0; 1; 1; 0; 8 # 10; 0; 0; 1; 1]%Q)
              (fun k => k) (fun _ => 2) (fun k => k)
              (fun _ => 0%Q) (fun _ => 0) (fun _ => 5)))
    (0 * 2 * 6 + 1 * 6 + 1)
  = buffer_of 0%Q [0; 9 # 10; 0; 0; 1; 1; 0; 8 # 10; 0; 0; 1; 1]%Q (0 * 2 * 6 + 1 * 6 + 1).
Proof.
  refine (proj2 (nms_ir_skip_identity
                   (mkConfig 1 2 6 2 (-1) 0 false (-1) 2 0 1 true)
                   (buffer_of 0%Q [0; 9 # 10; 0; 0; 1; 1; 0; 8 # 10; 0; 0; 1; 1]%Q)
                   (fun k => k) (fun _ => 2) (fun k => k)
                   (fun _ => 0%Q) (fun _ => 0) (fun _ => 5) 0
                   _ _ _) 1 1 _ _ _); cbn; try lia.
  left. apply Qle_refl.
Defined.

(** C9: In the skip-suppression path ([iou_threshold <= 0] or
    [valid_count[row] <= 0]) [nms_ir] writes 0 to [num_valid_boxes[row]],
    whatever was copied to the output of that row. *)
Theorem nms_ir_skip_count_zero (c : nms_config) (data : buf Q)
    (sorted_index valid_count indices : buf Z)
    (out : buf Q) (box_indices num_valid_boxes : buf Z) (i : Z) :
  0 <= i < batch_size c ->
  Qle (iou_threshold c) 0 \/ valid_count i <= 0 ->
  snd (nms_ir c data sorted_index valid_count indices out box_indices num_valid_boxes) i
  = 0.
Proof.
  intros Hi Hskip.
  apply (nms_ir_count (fun x => x = 0)); [exact Hi|].
  intros [[o b] v].
  rewrite nms_row_skip by (apply suppression_enabled_false; exact Hskip).
  cbn [snd]. apply store_eq.
Qed.

Lemma nms_ir_skip_count_zero_witness :
  snd (nms_ir (mkConfig 1 2 6 2 (-1) 0 false (-1) 2 0 1 true)
         (buffer_of 0%Q [0; 9 # 10; 0; 0; 1; 1; 0; 8 # 10; 0; 0; 1; 1]%Q)
         (fun k => k) (fun _ => 2) (fun k => k)
         (fun _ => 0%Q) (fun _ => 0) (fun _ => 5)) 0
  = 0.
Proof.
  refine (nms_ir_skip_count_zero
            (mkConfig 1 2 6 2 (-1) 0 false (-1) 2 0 1 true)
            (buffer_of 0%Q [0; 9 # 10; 0; 0; 1; 1; 0; 8 # 10; 0; 0; 1; 1]%Q)
            (fun k => k) (fun _ => 2) (fun k => k)
            (fun _ => 0%Q) (fun _ => 0) (fun _ => 5) 0 _ _); cbn; try lia.
  left. apply Qle_refl.
Defined.

(** C6: [max_output_size] cap.  When [max_output_size > 0], the count
    written to [num_valid_boxes[row]] is at most [max_output_size], and once
    the local count has reached [max_output_size] an iteration of the [j]
    loop leaves [out], [box_indices] and the count as they are: the inner
    suppression loop is not entered. *)
Theorem nms_ir_max_output_size (c : nms_config) (data : buf Q)
    (sorted_index valid_count indices : buf Z)
    (out : buf Q) (box_indices num_valid_boxes : buf Z) (i : Z) :
  0 < max_output_size c -> 0 <= i < batch_size c ->
  snd (nms_ir c data sorted_index valid_count indices out box_indices num_valid_boxes) i
  <= max_output_size c
  /\
  (forall nkeep j (s : row_state), max_output_size c <= snd s ->
     nms_outer_step c sorted_index indices i nkeep j s = s).
Proof.
  intros Hmos Hi. split.
  - apply (nms_ir_count (fun x => x <= max_output_size c)); [exact Hi|].
    intros s'. apply nms_row_count_cap. exact Hmos.
  - intros nkeep j s Hs. apply nms_outer_step_full; assumption.
Qed.

Lemma nms_ir_max_output_size_witness :
  snd (nms_ir (mkConfig 1 2 6 2 1 (1 # 2) false (-1) 2 0 1 true)
         (buffer_of 0%Q [0; 9 # 10; 0; 0; 1; 1; 0; 8 # 10; 5; 5; 6; 6]%Q)
         (fun k => k) (fun _ => 2) (fun k => k)
         (fun _ => 0%Q) (fun _ => 0) (fun _ => 5)) 0
  <= 1.
Proof.
  refine (proj1 (nms_ir_max_output_size
                   (mkConfig 1 2 6 2 1 (1 # 2) false (-1) 2 0 1 true)
                   (buffer_of 0%Q [0; 9 # 10; 0; 0; 1; 1; 0; 8 # 10; 5; 5; 6; 6]%Q)
                   (fun k => k) (fun _ => 2) (fun k => k)
                   (fun _ => 0%Q) (fun _ => 0) (fun _ => 5) 0 _ _)); cbn; lia.
Defined.

Lemma candidate_compared_iff c out base j k :
  candidate_compared c out base j k = true <->
  Qlt 0 (out (base + k * box_data_length c + score_index c)) /\
  (force_suppress c = true \/ id_index c < 0 \/
   Qeq (out (base + k * box_data_length c + id_index c))
       (out (base + j * box_data_length c + id_index c))).
Proof.
  unfold candidate_compared, Qeqb.
  rewrite andb_true_iff, !orb_true_iff, Qgtb_true, Z.ltb_lt, Qeq_bool_iff.
  destruct (force_suppress c); cbn; intuition (try discriminate; auto).
Qed.

Lemma nms_inner_loop_out c sorted_index indices i nkeep j out bi l :
  fst (fst (nms_inner_loop c sorted_index indices i nkeep j (out, bi, l)))
  = for_range 0 (ceil_div (nkeep - (j + 1)) (max_threads c)) (fun _k =>
      for_range 0 (max_threads c) (fun tx =>
        suppress_candidate c (i * num_anchors c * box_data_length c) nkeep j _k tx)) out.
Proof. reflexivity. Qed.

(** What one pass does to the later candidate [k]. *)
Lemma nms_inner_loop_candidate c sorted_index indices i nkeep j out bi l k f :
  0 < max_threads c -> record_ok c -> j < k < nkeep -> 0 <= f < box_data_length c ->
  fst (fst (nms_inner_loop c sorted_index indices i nkeep j (out, bi, l)))
    (i * num_anchors c * box_data_length c + k * box_data_length c + f)
  = if candidate_compared c out (i * num_anchors c * box_data_length c) j k
       && Qgeb (candidate_iou c out (i * num_anchors c * box_data_length c) j k)
            (iou_threshold c)
    then
      if ((id_index c >=? 0) && (f =? id_index c)) || (f =? score_index c)
      then minus_one
      else out (i * num_anchors c * box_data_length c + k * box_data_length c + f)
    else out (i * num_anchors c * box_data_length c + k * box_data_length c + f).
Proof.
  intros Hmt Hrec Hk Hf. rewrite nms_inner_loop_out.
  set (base := i * num_anchors c * box_data_length c).
  rewrite (proj1 (inner_loop_spec c base nkeep j out Hmt Hrec ltac:(lia)) k f Hk Hf).
  rewrite suppress_box_eval.
  replace (j + 1 + (k - (j + 1))) with k by lia.
  replace (k <? nkeep) with true by (symmetry; apply Z.ltb_lt; lia).
  cbn [andb].
  destruct (_ && _); [|reflexivity].
  replace (base + k * box_data_length c + f =? base + k * box_data_length c + id_index c)
    with (f =? id_index c).
  2:{ destruct (f =? id_index c) eqn:E; symmetry.
      - apply Z.eqb_eq in E. apply Z.eqb_eq. lia.
      - apply Z.eqb_neq in E. apply Z.eqb_neq. lia. }
  replace (base + k * box_data_length c + f =? base + k * box_data_length c + score_index c)
    with (f =? score_index c).
  2:{ destruct (f =? score_index c) eqn:E; symmetry.
      - apply Z.eqb_eq in E. apply Z.eqb_eq. lia.
      - apply Z.eqb_neq in E. apply Z.eqb_neq. lia. }
  reflexivity.
Qed.

(** Two boxes of one class with the same corners; the second has score 0. *)
Definition two_boxes : buf Q :=
  buffer_of 0%Q [0; 9 # 10; 0; 0; 10; 10;
                 0; 0; 0; 0; 10; 10]%Q.

Definition two_boxes_config : nms_config :=
  mkConfig 1 2 6 2 (-1) (1 # 2) true (-1) 2 0 1 true.

(** C3: Alive-iff-not-sentinel liveness rule.  The code departs from the
    rule at a score of 0.  In [two_boxes], box 1 is a duplicate of box 0
    (same class, same corners) and its score 0 is not the sentinel [-1].
    The inner loop asks [score > 0] ("is the box k still valid?"), so the
    pass of the kept box 0 never compares box 1 and leaves every field of it
    as it is.  The outer loop asks [score > -1], so box 1 then counts as
    valid: [nms_ir] leaves its score at 0, lists both boxes in
    [box_indices] and writes the count 2. *)
Theorem nms_ir_zero_score_duplicate :
  let r := nms_ir two_boxes_config two_boxes (fun k => k) (fun _ => 2) (fun k => k)
             (fun _ => 0%Q) (fun _ => 0) (fun _ => 0) in
  Qeq_bool (two_boxes (1 * 6 + 1)) minus_one = false
  /\ List.map (fun f => Qeq_bool (two_boxes (1 * 6 + f)) (two_boxes (0 * 6 + f)))
       [0; 2; 3; 4; 5]
     = [true; true; true; true; true]
  /\ List.map (fun f =>
                 Qeq_bool
                   (fst (fst (nms_inner_loop two_boxes_config (fun k => k) (fun k => k)
                                0 2 0 (two_boxes, (fun _ => -1), 0))) (1 * 6 + f))
                   (two_boxes (1 * 6 + f)))
       [0; 1; 2; 3; 4; 5]
     = [true; true; true; true; true; true]
  /\ Qeq_bool (fst (fst r) (1 * 6 + 1)) 0 = true
  /\ List.map (snd (fst r)) [0; 1] = [0; 1]
  /\ snd r 0 = 2.
Proof. vm_compute. repeat split; reflexivity. Qed.

(** The configuration [c] with another [iou_threshold]. *)
Definition with_iou_threshold (c : nms_config) (t : Q) : nms_config :=
  mkConfig (batch_size c) (num_anchors c) (box_data_length c) (max_threads c)
    (max_output_size c) t (force_suppress c) (top_k c) (coord_start c)
    (id_index c) (score_index c) (return_indices c).

(** Four boxes of one class in descending score order:
    A = [0,10]x[0,4], B = [0,10]x[0,10], C = [0,5]x[0,10], D = [5,10]x[0,10].
    IoU(A,B) = 2/5, IoU(A,C) = IoU(A,D) = 2/7, IoU(B,C) = IoU(B,D) = 1/2,
    IoU(C,D) = 0. *)
Definition four_boxes : buf Q :=
  buffer_of 0%Q [0; 9 # 10; 0; 0; 10; 4;
                 0; 8 # 10; 0; 0; 10; 10;
                 0; 7 # 10; 0; 0; 5; 10;
                 0; 6 # 10; 5; 0; 10; 10]%Q.

Definition four_boxes_config (t : Q) : nms_config :=
  mkConfig 1 4 6 2 (-1) t true (-1) 2 0 1 true.

(** Lowering the threshold from 1/2 to 3/10 raises the kept count from 2 to
    3 (B, which suppresses C and D at 1/2, is itself suppressed at 3/10);
    and at threshold 0 all four boxes are in the output with their scores
    while the count written is 0. *)
Lemma nms_ir_monotone_counterexample :
  snd (nms_ir (four_boxes_config (1 # 2)) four_boxes (fun k => k) (fun _ => 4)
         (fun k => k) (fun _ => 0%Q) (fun _ => 0) (fun _ => 0)) 0 = 2
  /\ snd (nms_ir (four_boxes_config (3 # 10)) four_boxes (fun k => k) (fun _ => 4)
            (fun k => k) (fun _ => 0%Q) (fun _ => 0) (fun _ => 0)) 0 = 3
  /\ List.map
       (fun j => Qgtb (fst (fst (nms_ir (four_boxes_config 0) four_boxes (fun k => k)
                                   (fun _ => 4) (fun k => k)
                                   (fun _ => 0%Q) (fun _ => 0) (fun _ => 0)))
                         (j * 6 + 1)) 0)
       [0; 1; 2; 3]
     = [true; true; true; true]
  /\ snd (nms_ir (four_boxes_config 0) four_boxes (fun k => k) (fun _ => 4)
            (fun k => k) (fun _ => 0%Q) (fun _ => 0) (fun _ => 0)) 0 = 0.
Proof. vm_compute. repeat split; reflexivity. Qed.

(** C4 (as the code has it): Over a whole row the kept count is not
    monotone in [iou_threshold].  What holds: within one pass of the inner
    loop against a kept box [j], lowering the threshold never frees a
    candidate (a candidate whose score is the sentinel after the pass at
    [t1] has it after the pass at any [t2 <= t1]); and with
    [iou_threshold <= 0] no suppression runs: the count written to
    [num_valid_boxes[row]] is 0 and the first [valid_count[row]] boxes of
    the row are in the output as they are in [data]. *)
Theorem suppression_pass_monotone (c : nms_config) (t1 t2 : Q) (data : buf Q)
    (sorted_index valid_count indices : buf Z)
    (out0 : buf Q) (box_indices0 num_valid_boxes0 : buf Z)
    (i nkeep j k : Z) (out : buf Q) (box_indices : buf Z) (num_valid_boxes_local : Z) :
  0 < max_threads c -> record_ok c -> j < k < nkeep -> Qle t2 t1 ->
  (Qeq (fst (fst (nms_inner_loop (with_iou_threshold c t1) sorted_index indices
                    i nkeep j (out, box_indices, num_valid_boxes_local)))
          (i * num_anchors c * box_data_length c + k * box_data_length c + score_index c))
       minus_one ->
   Qeq (fst (fst (nms_inner_loop (with_iou_threshold c t2) sorted_index indices
                    i nkeep j (out, box_indices, num_valid_boxes_local)))
          (i * num_anchors c * box_data_length c + k * box_data_length c + score_index c))
       minus_one)
  /\
  (0 <= i < batch_size c -> Qle (iou_threshold c) 0 ->
   snd (nms_ir c data sorted_index valid_count indices
          out0 box_indices0 num_valid_boxes0) i = 0
   /\
   (forall j' f, 0 <= j' < valid_count i -> j' < num_anchors c ->
      0 <= f < box_data_length c ->
      fst (fst (nms_ir c data sorted_index valid_count indices
                  out0 box_indices0 num_valid_boxes0))
        (i * num_anchors c * box_data_length c + j' * box_data_length c + f)
      = data (i * num_anchors c * box_data_length c + j' * box_data_length c + f))).
Proof.
  intros Hmt Hrec Hk Hle. split.
  - pose proof (nms_inner_loop_candidate (with_iou_threshold c t1) sorted_index indices
                  i nkeep j out box_indices num_valid_boxes_local k (score_index c)
                  Hmt Hrec Hk (proj1 Hrec)) as E1.
    pose proof (nms_inner_loop_candidate (with_iou_threshold c t2) sorted_index indices
                  i nkeep j out box_indices num_valid_boxes_local k (score_index c)
                  Hmt Hrec Hk (proj1 Hrec)) as E2.
    cbn [with_iou_threshold num_anchors box_data_length score_index id_index
         iou_threshold] in E1, E2.
    change (candidate_compared (with_iou_threshold c t1)) with (candidate_compared c) in E1.
    change (candidate_compared (with_iou_threshold c t2)) with (candidate_compared c) in E2.
    change (candidate_iou (with_iou_threshold c t1)) with (candidate_iou c) in E1.
    change (candidate_iou (with_iou_threshold c t2)) with (candidate_iou c) in E2.
    rewrite E1, E2. clear E1 E2.
    set (base := i * num_anchors c * box_data_length c).
    rewrite Z.eqb_refl, orb_true_r.
    destruct (candidate_compared c out base j k) eqn:Ec; cbn [andb]; [|auto].
    destruct (Qgeb (candidate_iou c out base j k) t1) eqn:Q1.
    + apply Qgeb_true in Q1.
      replace (Qgeb (candidate_iou c out base j k) t2) with true; [auto|].
      symmetry. apply Qgeb_true. apply (Qle_trans _ t1); assumption.
    + intros Hs. apply candidate_compared_iff in Ec. destruct Ec as [Hpos _].
      fold base in Hpos. rewrite Hs in Hpos. discriminate.
  - intros Hi Hthr. split.
    + apply (nms_ir_count (fun x => x = 0)); [exact Hi|].
      intros [[o b] v].
      rewrite nms_row_skip by (apply suppression_enabled_false; left; exact Hthr).
      cbn [snd]. apply store_eq.
    + intros j' f Hj' Hjn Hf. apply nms_ir_skip_copy; assumption.
Qed.

Lemma suppression_pass_monotone_witness :
  Qeq (fst (fst (nms_inner_loop (with_iou_threshold (four_boxes_config 0) (3 # 10))
                   (fun k => k) (fun k => k) 0 4 0 (four_boxes, (fun _ => -1), 0)))
         (0 * num_anchors (four_boxes_config 0) * box_data_length (four_boxes_config 0)
          + 1 * box_data_length (four_boxes_config 0) + score_index (four_boxes_config 0)))
      minus_one
  /\ snd (nms_ir (four_boxes_config 0) four_boxes (fun k => k) (fun _ => 4) (fun k => k)
            (fun _ => 0%Q) (fun _ => 0) (fun _ => 0)) 0 = 0.
Proof.
  assert (Hmt : 0 < max_threads (four_boxes_config 0)) by (cbn; lia).
  assert (Hrec : record_ok (four_boxes_config 0)) by (unfold record_ok; cbn; lia).
  assert (Hk : 0 < 1 < 4) by lia.
  assert (Hle : Qle (3 # 10) (2 # 5)) by discriminate.
  split.
  - refine (proj1 (suppression_pass_monotone (four_boxes_config 0) (2 # 5) (3 # 10)
                     four_boxes (fun k => k) (fun _ => 4) (fun k => k)
                     (fun _ => 0%Q) (fun _ => 0) (fun _ => 0)
                     0 4 0 1 four_boxes (fun _ => -1) 0 Hmt Hrec Hk Hle) _).
    vm_compute. reflexivity.
  - refine (proj1 (proj2 (suppression_pass_monotone (four_boxes_config 0) (2 # 5) (3 # 10)
                     four_boxes (fun k => k) (fun _ => 4) (fun k => k)
                     (fun _ => 0%Q) (fun _ => 0) (fun _ => 0)
                     0 4 0 1 four_boxes (fun _ => -1) 0 Hmt Hrec Hk Hle) _ _)).
    + cbn. lia.
    + apply Qle_refl.
Defined.

(** * Further properties of the kernels *)

(** Evaluates the reads of concrete buffers in the goal. *)
Ltac eval_buffers :=
  repeat match goal with
         | |- context [buffer_of ?d ?l ?k] =>
             let v := eval vm_compute in (buffer_of d l k) in
             change (buffer_of d l k) with v
         end.

(** ** [ceil_div] *)

(** [ceil_div] on [int32] index expressions, as the kernels evaluate it:
    the sum [a + b - 1] wraps around at 32 bits, and [indexdiv] rounds the
    quotient down (on operands that are not negative, as here, rounding
    towards zero gives the same). *)
Definition ceil_div_int32 (a b : Z) : Z := wrap32 (add32 a b - 1) / b.

(** X1: within [int32], [ceil_div a b] is the ceiling of [a / b].  For
    [a >= 0], [b > 0] and [a + b < 2^31] the sum does not wrap, the [int32]
    value is the one computed with unbounded integers, and
    [ceil_div a b] blocks of [b] threads cover [a] items while one block
    fewer does not. *)
Theorem ceil_div_is_ceiling (a b : Z) :
  0 < b -> 0 <= a -> a + b < 2 ^ 31 ->
  ceil_div_int32 a b = ceil_div a b /\
  (ceil_div_int32 a b - 1) * b < a <= ceil_div_int32 a b * b.
Proof.
  intros Hb Ha Hs. unfold ceil_div_int32, ceil_div, add32.
  rewrite (wrap32_small (a + b)) by lia.
  rewrite (wrap32_small (a + b - 1)) by lia.
  split; [reflexivity|].
  pose proof (Z.div_mod (a + b - 1) b ltac:(lia)) as E.
  pose proof (Z.mod_pos_bound (a + b - 1) b Hb) as B.
  nia.
Qed.

Lemma ceil_div_is_ceiling_witness :
  ceil_div_int32 10 4 = ceil_div 10 4 /\
  (ceil_div_int32 10 4 - 1) * 4 < 10 <= ceil_div_int32 10 4 * 4.
Proof. apply (ceil_div_is_ceiling 10 4); lia. Defined.

(** Past that range the sum wraps: [2147483647 + 2 - 1] is [-2147483648]
    in [int32], and the quotient is negative. *)
Example ceil_div_int32_wraps :
  ceil_div_int32 2147483647 2 = -1073741824 /\ ceil_div 2147483647 2 = 1073741824.
Proof. vm_compute. split; reflexivity. Qed.

(** ** [opencl_atomic_add_rule] *)

Definition opencl_atomic_add_rule (op : Call) : result PrimExpr :=
  if String.eqb (call_dtype op) "int32" then
    match nth_error (call_args op) 0, nth_error (call_args op) 1 with
    | Some x, Some y => Ok (call_pure_extern "int32" "atomic_add" x y)
    | _, _ => Raise IndexError
    end
  else Raise (RuntimeError "only support int32").

(** X2: the OpenCL rule lowers only [int32] calls, to the extern
    [atomic_add], and raises [RuntimeError] for every other dtype; whenever
    it succeeds, the CUDA rule succeeds on the same call, with [atomicAdd]
    on the same two operands. *)
Theorem opencl_atomic_add_rule_int32_only (op : Call) :
  (call_dtype op <> "int32"%string ->
   opencl_atomic_add_rule op = Raise (RuntimeError "only support int32"))
  /\
  (forall e, opencl_atomic_add_rule op = Ok e ->
     call_dtype op = "int32"%string /\
     exists x y, e = call_pure_extern "int32" "atomic_add" x y /\
                 cuda_atomic_add_rule op = Ok (call_pure_extern "int32" "atomicAdd" x y)).
Proof.
  unfold opencl_atomic_add_rule, cuda_atomic_add_rule, extern_atomicAdd. split.
  - intros H. apply String.eqb_neq in H. now rewrite H.
  - intros e He.
    destruct (String.eqb (call_dtype op) "int32") eqn:E; [|discriminate].
    apply String.eqb_eq in E. split; [exact E|].
    rewrite E. cbn [String.eqb Ascii.eqb Bool.eqb andb].
    destruct (nth_error (call_args op) 0) as [x|]; [|discriminate].
    destruct (nth_error (call_args op) 1) as [y|]; [|discriminate].
    exists x, y. inversion He. auto.
Qed.

Lemma opencl_atomic_add_rule_int32_only_witness :
  opencl_atomic_add_rule (mkCall "float32" [Var "x"; Var "y"])
  = Raise (RuntimeError "only support int32")
  /\ cuda_atomic_add_rule (mkCall "int32" [Var "x"; Var "y"])
     = Ok (call_pure_extern "int32" "atomicAdd" (Var "x") (Var "y")).
Proof.
  split.
  - apply (proj1 (opencl_atomic_add_rule_int32_only (mkCall "float32" [Var "x"; Var "y"]))).
    discriminate.
  - destruct (proj2 (opencl_atomic_add_rule_int32_only (mkCall "int32" [Var "x"; Var "y"]))
                _ eq_refl) as [_ [x [y [E H]]]].
    inversion E. subst. exact H.
Defined.

(** ** [_fetch_score_ir] *)

Definition fetch_score_thread (data : buf Q) (batch_size num_anchors elem_length axis : Z)
    (max_threads : Z) (bx tx : Z) (score : buf Q) : buf Q :=
  let tid := bx * max_threads + tx in
  if tid <? batch_size * num_anchors then
    store score tid (data (tid * elem_length + axis))
  else score.

Definition _fetch_score_ir (data score : buf Q)
    (batch_size num_anchors elem_length axis max_threads : Z) : buf Q :=
  if num_anchors >? 0 then
    let nthread_tx := max_threads in
    let nthread_bx := batch_size * num_anchors / max_threads + 1 in
    for_range 0 nthread_bx (fun bx =>
      for_range 0 nthread_tx (fun tx =>
        fetch_score_thread data batch_size num_anchors elem_length axis max_threads bx tx))
      score
  else score.

Lemma fetch_score_spec data score batch n elem axis mt :
  0 < mt -> 0 <= batch * n -> 0 < n ->
  forall p,
    _fetch_score_ir data score batch n elem axis mt p =
    if (0 <=? p) && (p <? batch * n) then data (p * elem + axis) else score p.
Proof.
  intros Hmt Hbn Hn p. unfold _fetch_score_ir.
  replace (n >? 0) with true by (symmetry; apply Z.gtb_lt; lia).
  pose (f := fun tid (s : buf Q) =>
               if tid <? batch * n then store s tid (data (tid * elem + axis)) else s).
  change (fun bx => for_range 0 mt
            (fun tx => fetch_score_thread data batch n elem axis mt bx tx))
    with (fun bx => for_range 0 mt (fun tx => f (bx * mt + tx))).
  assert (Hnbx : 0 <= batch * n / mt + 1)
    by (pose proof (Z.div_pos (batch * n) mt Hbn Hmt); lia).
  rewrite (grid_flatten _ mt f score Hnbx Hmt).
  pose proof (floor_blocks_cover (batch * n) mt Hmt) as Hcov.
  set (N := (batch * n / mt + 1) * mt) in *.
  destruct (for_range_race_free f (fun t q => t < batch * n /\ q = t) 0 N) with
    (b := score) (p := p) as [Hown Hfree].
  - intros t b q Ht Hno. unfold f. destruct (t <? batch * n) eqn:E; [|reflexivity].
    apply Z.ltb_lt in E. apply store_neq. intros ->. apply Hno. auto.
  - intros t b b' q Ht Hq [Hlt ->]. unfold f.
    apply Z.ltb_lt in Hlt. rewrite Hlt. now rewrite !store_eq.
  - intros t t' q Ht Ht' Hne [_ ->] [_ E]. lia.
  - destruct ((0 <=? p) && (p <? batch * n)) eqn:E.
    + apply andb_true_iff in E. destruct E as [E1 E2].
      apply Z.leb_le in E1. apply Z.ltb_lt in E2.
      rewrite (Hown p) by (try split; lia).
      unfold f. replace (p <? batch * n) with true by (symmetry; apply Z.ltb_lt; lia).
      apply store_eq.
    + apply Hfree. intros t Ht [Hlt ->].
      apply andb_false_iff in E. destruct E as [E|E].
      * apply Z.leb_gt in E. lia.
      * apply Z.ltb_ge in E. lia.
Qed.

(** X3: [_fetch_score_ir] is a pure gather.  With [num_anchors > 0] the
    score of anchor [j] of row [i] is the field [axis] of its record, and
    nothing outside the [batch_size * num_anchors] scores is written; with
    [num_anchors <= 0] the score buffer is left as it is. *)
Theorem fetch_score_ir_gather (data score : buf Q)
    (batch_size num_anchors elem_length axis max_threads : Z) :
  0 < max_threads -> 0 <= batch_size ->
  (0 < num_anchors ->
   (forall i j, 0 <= i < batch_size -> 0 <= j < num_anchors ->
      _fetch_score_ir data score batch_size num_anchors elem_length axis max_threads
        (i * num_anchors + j)
      = data ((i * num_anchors + j) * elem_length + axis)) /\
   (forall p, p < 0 \/ batch_size * num_anchors <= p ->
      _fetch_score_ir data score batch_size num_anchors elem_length axis max_threads p
      = score p))
  /\
  (num_anchors <= 0 ->
   _fetch_score_ir data score batch_size num_anchors elem_length axis max_threads = score).
Proof.
  intros Hmt Hb. split.
  - intros Hn. split.
    + intros i j Hi Hj. rewrite fetch_score_spec by (try lia; nia).
      replace (_ && _) with true; [reflexivity|].
      symmetry. apply andb_true_iff. split; [apply Z.leb_le|apply Z.ltb_lt]; nia.
    + intros p Hp. rewrite fetch_score_spec by (try lia; nia).
      replace (_ && _) with false; [reflexivity|].
      symmetry. apply andb_false_iff.
      destruct Hp; [left; apply Z.leb_gt|right; apply Z.ltb_ge]; lia.
  - intros Hn. unfold _fetch_score_ir.
    replace (num_anchors >? 0) with false; [reflexivity|].
    symmetry. rewrite Z.gtb_ltb. apply Z.ltb_ge. lia.
Qed.

Lemma fetch_score_ir_gather_witness :
  _fetch_score_ir (buffer_of 0%Q [0; 9 # 10; 0; 0; 1; 1; 0; 8 # 10; 0; 0; 1; 1]%Q)
    (fun _ => 0%Q) 1 2 6 1 4 (0 * 2 + 1)
  = buffer_of 0%Q [0; 9 # 10; 0; 0; 1; 1; 0; 8 # 10; 0; 0; 1; 1]%Q ((0 * 2 + 1) * 6 + 1).
Proof.
  refine (proj1 (proj1 (fetch_score_ir_gather
                          (buffer_of 0%Q [0; 9 # 10; 0; 0; 1; 1; 0; 8 # 10; 0; 0; 1; 1]%Q)
                          (fun _ => 0%Q) 1 2 6 1 4 _ _) _) 0 1 _ _); lia.
Defined.

(** ** More on [calculate_overlap] *)

(** In exact arithmetic, boxes that do not overlap have IoU 0. *)
Lemma calculate_overlap_separated (out_tensor : buf Q) (box_a_idx box_b_idx : Z) :
  Qle (Qmax (out_tensor box_a_idx) (out_tensor (box_a_idx + 2)))
      (Qmin (out_tensor box_b_idx) (out_tensor (box_b_idx + 2)))
  \/ Qle (Qmax (out_tensor (box_a_idx + 1)) (out_tensor (box_a_idx + 3)))
         (Qmin (out_tensor (box_b_idx + 1)) (out_tensor (box_b_idx + 3))) ->
  Qeq (calculate_overlap out_tensor box_a_idx box_b_idx) 0.
Proof.
  intros Hsep. unfold calculate_overlap, get_boundaries.
  destruct (overlap_side_bounds (out_tensor box_a_idx) (out_tensor (box_a_idx + 2))
              (out_tensor box_b_idx) (out_tensor (box_b_idx + 2))) as [W0 _].
  destruct (overlap_side_bounds (out_tensor (box_a_idx + 1)) (out_tensor (box_a_idx + 3))
              (out_tensor (box_b_idx + 1)) (out_tensor (box_b_idx + 3))) as [H0 _].
  set (al := Qmin (out_tensor box_a_idx) (out_tensor (box_a_idx + 2))) in *.
  set (at_ := Qmin (out_tensor (box_a_idx + 1)) (out_tensor (box_a_idx + 3))) in *.
  set (ar := Qmax (out_tensor box_a_idx) (out_tensor (box_a_idx + 2))) in *.
  set (ab := Qmax (out_tensor (box_a_idx + 1)) (out_tensor (box_a_idx + 3))) in *.
  set (bl := Qmin (out_tensor box_b_idx) (out_tensor (box_b_idx + 2))) in *.
  set (bt := Qmin (out_tensor (box_b_idx + 1)) (out_tensor (box_b_idx + 3))) in *.
  set (br := Qmax (out_tensor box_b_idx) (out_tensor (box_b_idx + 2))) in *.
  set (bb := Qmax (out_tensor (box_b_idx + 1)) (out_tensor (box_b_idx + 3))) in *.
  assert (Harea : (Qmax 0 (Qmin ab bb - Qmax at_ bt) * Qmax 0 (Qmin ar br - Qmax al bl)
                   == 0)%Q).
  { destruct Hsep as [Hx|Hy].
    - assert (E : (Qmax 0 (Qmin ar br - Qmax al bl) == 0)%Q).
      { apply Q.max_l.
        pose proof (Q.le_min_l ar br). pose proof (Q.le_max_r al bl). lra. }
      rewrite E. ring.
    - assert (E : (Qmax 0 (Qmin ab bb - Qmax at_ bt) == 0)%Q).
      { apply Q.max_l.
        pose proof (Q.le_min_l ab bb). pose proof (Q.le_max_r at_ bt). lra. }
      rewrite E. ring. }
  destruct (Qle_bool _ 0); [reflexivity|].
  rewrite Harea. unfold Qdiv. ring.
Qed.

(** X4: boxes that do not overlap have IoU 0, in a run without rounding.
    If box [a] ends where box [b] begins or before (on the first coordinate
    axis or on the second) and every arithmetic step of the float
    computation is exact, [calculate_overlap] returns a zero. *)
Theorem calculate_overlap_disjoint (prec emax : Z) (out_tensor : buf spec_float)
    (box_a_idx box_b_idx : Z) :
  (forall d, 0 <= d <= 3 -> IEEE754.valid prec emax (out_tensor (box_a_idx + d)) = true) ->
  (forall d, 0 <= d <= 3 -> IEEE754.valid prec emax (out_tensor (box_b_idx + d)) = true) ->
  IEEE754.exact_overlap prec emax out_tensor box_a_idx box_b_idx ->
  let values := fun k => IEEE754.SF2Q (out_tensor k) in
  Qle (Qmax (values box_a_idx) (values (box_a_idx + 2)))
      (Qmin (values box_b_idx) (values (box_b_idx + 2)))
  \/ Qle (Qmax (values (box_a_idx + 1)) (values (box_a_idx + 3)))
         (Qmin (values (box_b_idx + 1)) (values (box_b_idx + 3))) ->
  IEEE754.is_finite (IEEE754.calculate_overlap prec emax out_tensor box_a_idx box_b_idx)
  = true /\
  Qeq (IEEE754.SF2Q (IEEE754.calculate_overlap prec emax out_tensor box_a_idx box_b_idx)) 0.
Proof.
  intros Va Vb Hex values Hsep.
  destruct (calculate_overlap_exact prec emax out_tensor box_a_idx box_b_idx Va Vb Hex)
    as [F E].
  split; [exact F|].
  rewrite E. apply calculate_overlap_separated. exact Hsep.
Qed.

Lemma calculate_overlap_disjoint_witness :
  Qeq (IEEE754.SF2Q
         (IEEE754.calculate_overlap 24 128 (float32_box [0; 0; 1; 1; 2; 0; 3; 1]) 0 4)) 0.
Proof.
  refine (proj2 (calculate_overlap_disjoint 24 128 (float32_box [0; 0; 1; 1; 2; 0; 3; 1])
                   0 4 _ _ _ _)).
  - each_coordinate.
  - each_coordinate.
  - vm_compute. repeat split; intros; try discriminate; reflexivity.
  - left. vm_compute. discriminate.
Defined.

(** Without that condition it can fail: these two [float32] boxes are apart
    on the first axis, but their common height [3e38 + 3e38] overflows, and
    the overlap is [inf * 0], a NaN. *)
Example calculate_overlap_disjoint_overflow :
  IEEE754.calculate_overlap 24 128
    (float32_box [0; - 3 * 10 ^ 38; 1; 3 * 10 ^ 38; 2; - 3 * 10 ^ 38; 3; 3 * 10 ^ 38]) 0 4
  = S754_nan.
Proof. vm_compute. reflexivity. Qed.

(** X5: the corner order of a box does not matter.  If two buffers hold
    the same box [b], and box [a] with its two corners exchanged, the
    overlap of [a] and [b] is the same in both. *)
Theorem calculate_overlap_corner_order (o o' : buf Q) (box_a_idx box_b_idx : Z) :
  o' box_a_idx = o (box_a_idx + 2) -> o' (box_a_idx + 2) = o box_a_idx ->
  o' (box_a_idx + 1) = o (box_a_idx + 3) -> o' (box_a_idx + 3) = o (box_a_idx + 1) ->
  (forall d, 0 <= d <= 3 -> o' (box_b_idx + d) = o (box_b_idx + d)) ->
  Qeq (calculate_overlap o' box_a_idx box_b_idx) (calculate_overlap o box_a_idx box_b_idx).
Proof.
  intros E0 E2 E1 E3 Eb. unfold calculate_overlap, get_boundaries.
  pose proof (Eb 0 ltac:(lia)) as B0. rewrite Z.add_0_r in B0.
  rewrite E0, E2, E1, E3, B0, (Eb 1), (Eb 2), (Eb 3) by lia.
  set (x0 := o box_a_idx). set (x2 := o (box_a_idx + 2)).
  set (y1 := o (box_a_idx + 1)). set (y3 := o (box_a_idx + 3)).
  assert (El : (Qmin x2 x0 == Qmin x0 x2)%Q) by apply Q.min_comm.
  assert (Er : (Qmax x2 x0 == Qmax x0 x2)%Q) by apply Q.max_comm.
  assert (Et : (Qmin y3 y1 == Qmin y1 y3)%Q) by apply Q.min_comm.
  assert (Eb' : (Qmax y3 y1 == Qmax y1 y3)%Q) by apply Q.max_comm.
  set (bl := Qmin (o box_b_idx) (o (box_b_idx + 2))).
  set (bt := Qmin (o (box_b_idx + 1)) (o (box_b_idx + 3))).
  set (br := Qmax (o box_b_idx) (o (box_b_idx + 2))).
  set (bb := Qmax (o (box_b_idx + 1)) (o (box_b_idx + 3))).
  assert (Ew : (Qmax 0 (Qmin (Qmax x2 x0) br - Qmax (Qmin x2 x0) bl)
                == Qmax 0 (Qmin (Qmax x0 x2) br - Qmax (Qmin x0 x2) bl))%Q)
    by now rewrite El, Er.
  assert (Eh : (Qmax 0 (Qmin (Qmax y3 y1) bb - Qmax (Qmin y3 y1) bt)
                == Qmax 0 (Qmin (Qmax y1 y3) bb - Qmax (Qmin y1 y3) bt))%Q)
    by now rewrite Et, Eb'.
  set (w' := Qmax 0 (Qmin (Qmax x2 x0) br - Qmax (Qmin x2 x0) bl)) in *.
  set (w := Qmax 0 (Qmin (Qmax x0 x2) br - Qmax (Qmin x0 x2) bl)) in *.
  set (h' := Qmax 0 (Qmin (Qmax y3 y1) bb - Qmax (Qmin y3 y1) bt)) in *.
  set (h := Qmax 0 (Qmin (Qmax y1 y3) bb - Qmax (Qmin y1 y3) bt)) in *.
  assert (Eu : ((Qmax x2 x0 - Qmin x2 x0) * (Qmax y3 y1 - Qmin y3 y1)
                + (br - bl) * (bb - bt) - h' * w'
                == (Qmax x0 x2 - Qmin x0 x2) * (Qmax y1 y3 - Qmin y1 y3)
                   + (br - bl) * (bb - bt) - h * w)%Q)
    by now rewrite El, Er, Et, Eb', Ew, Eh.
  destruct (Qle_bool ((Qmax x2 x0 - Qmin x2 x0) * (Qmax y3 y1 - Qmin y3 y1)
                      + (br - bl) * (bb - bt) - h' * w') 0) eqn:C1;
    destruct (Qle_bool ((Qmax x0 x2 - Qmin x0 x2) * (Qmax y1 y3 - Qmin y1 y3)
                        + (br - bl) * (bb - bt) - h * w) 0) eqn:C2.
  - reflexivity.
  - rewrite Eu in C1. congruence.
  - rewrite Eu in C1. congruence.
  - rewrite Eu, Ew, Eh. reflexivity.
Qed.

Lemma calculate_overlap_corner_order_witness :
  Qeq (calculate_overlap (buffer_of 0%Q [3; 4; 0; 0; 1; 1; 5; 5]%Q) 0 4)
      (calculate_overlap (buffer_of 0%Q [0; 0; 3; 4; 1; 1; 5; 5]%Q) 0 4).
Proof.
  apply (calculate_overlap_corner_order
           (buffer_of 0%Q [0; 0; 3; 4; 1; 1; 5; 5]%Q)
           (buffer_of 0%Q [3; 4; 0; 0; 1; 1; 5; 5]%Q) 0 4); try reflexivity.
  intros d Hd. assert (d = 0 \/ d = 1 \/ d = 2 \/ d = 3) as Hc by lia.
  destruct Hc as [-> | [-> | [-> | ->]]]; reflexivity.
Defined.

(** ** More on the box compactor *)

(** The two launches of [get_valid_counts_ir], for any destination array
    that sends the valid anchors of a row to distinct slots of the row. *)
Lemma compact_spec data vi vb (out : buf Q) (oi : buf Z) batch n len mt i :
  0 < mt -> 0 <= n -> 0 <= i < batch ->
  (forall i t, 0 <= i < batch -> 0 <= t < n -> 0 < vb (i * n + t) ->
     0 <= vi (i * n + t) < n) ->
  (forall i t t', 0 <= i < batch -> 0 <= t < n -> 0 <= t' < n ->
     0 < vb (i * n + t) -> 0 < vb (i * n + t') ->
     vi (i * n + t) = vi (i * n + t') -> t = t') ->
  (forall t, 0 <= t < n -> 0 < vb (i * n + t) ->
     (forall k, 0 <= k < len ->
        fst (get_valid_counts_ir data vi vb out oi batch n len mt)
          ((i * n + vi (i * n + t)) * len + k)
        = data ((i * n + t) * len + k)) /\
     snd (get_valid_counts_ir data vi vb out oi batch n len mt) (i * n + vi (i * n + t))
     = t)
  /\
  (forall s, 0 <= s < n ->
     (forall t, 0 <= t < n -> 0 < vb (i * n + t) -> vi (i * n + t) <> s) ->
     (forall k, 0 <= k < len ->
        fst (get_valid_counts_ir data vi vb out oi batch n len mt) ((i * n + s) * len + k)
        = minus_one) /\
     snd (get_valid_counts_ir data vi vb out oi batch n len mt) (i * n + s) = -1).
Proof.
  intros Hmt Hn Hi Hrange Hinj.
  pose proof (fill_launch_spec batch n len mt out oi Hmt Hn) as Hfill.
  cbv zeta in Hfill. unfold get_valid_counts_ir.
  destruct (launch batch (n / mt + 1) mt (fill_thread n len mt) (out, oi)) as [o1 oi1].
  cbn [fst snd] in Hfill.
  destruct (scatter_launch_spec data vi vb batch n len mt o1 oi1 Hmt Hn Hrange Hinj i Hi)
    as [Hput Hrest].
  split; [exact Hput|].
  intros s Hs Hfree.
  destruct (Hrest s Hs Hfree) as [Hf Hix].
  destruct (Hfill i s Hi Hs) as [Ff Fix].
  split.
  - intros k Hk. rewrite Hf by assumption. apply Ff. exact Hk.
  - rewrite Hix. exact Fix.
Qed.

(** X6: [get_valid_counts_ir] with any destination array.  If
    [valid_indices] sends the valid anchors of every row to slots of that
    row, no two to the same slot, then every valid anchor's record is at its
    destination with [out_indices] naming the anchor, and every slot of the
    row that is no valid anchor's destination holds [-1] in all fields and
    in [out_indices]. *)
Theorem get_valid_counts_ir_scatter (data : buf Q) (valid_indices valid_boxes : buf Z)
    (out : buf Q) (out_indices : buf Z)
    (batch_size num_anchors elem_length max_threads i : Z) :
  0 < max_threads -> 0 <= num_anchors -> 0 <= i < batch_size ->
  (forall i t, 0 <= i < batch_size -> 0 <= t < num_anchors ->
     0 < valid_boxes (i * num_anchors + t) ->
     0 <= valid_indices (i * num_anchors + t) < num_anchors) ->
  (forall i t t', 0 <= i < batch_size -> 0 <= t < num_anchors -> 0 <= t' < num_anchors ->
     0 < valid_boxes (i * num_anchors + t) -> 0 < valid_boxes (i * num_anchors + t') ->
     valid_indices (i * num_anchors + t) = valid_indices (i * num_anchors + t') -> t = t') ->
  (forall t, 0 <= t < num_anchors -> 0 < valid_boxes (i * num_anchors + t) ->
     (forall k, 0 <= k < elem_length ->
        fst (get_valid_counts_ir data valid_indices valid_boxes out out_indices
               batch_size num_anchors elem_length max_threads)
          ((i * num_anchors + valid_indices (i * num_anchors + t)) * elem_length + k)
        = data ((i * num_anchors + t) * elem_length + k)) /\
     snd (get_valid_counts_ir data valid_indices valid_boxes out out_indices
            batch_size num_anchors elem_length max_threads)
       (i * num_anchors + valid_indices (i * num_anchors + t))
     = t)
  /\
  (forall s, 0 <= s < num_anchors ->
     (forall t, 0 <= t < num_anchors -> 0 < valid_boxes (i * num_anchors + t) ->
        valid_indices (i * num_anchors + t) <> s) ->
     (forall k, 0 <= k < elem_length ->
        fst (get_valid_counts_ir data valid_indices valid_boxes out out_indices
               batch_size num_anchors elem_length max_threads)
          ((i * num_anchors + s) * elem_length + k)
        = minus_one) /\
     snd (get_valid_counts_ir data valid_indices valid_boxes out out_indices
            batch_size num_anchors elem_length max_threads) (i * num_anchors + s) = -1).
Proof. intros. apply compact_spec; assumption. Qed.

Lemma get_valid_counts_ir_scatter_witness :
  snd (get_valid_counts_ir (buffer_of 0%Q [1; 2; 3]%Q)
         (buffer_of 0 [2; 0; 0]) (buffer_of 0 [1; 0; 1])
         (fun _ => 0%Q) (fun _ => 0) 1 3 1 2)
    (0 * 3 + buffer_of 0 [2; 0; 0] (0 * 3 + 0))
  = 0.
Proof.
  refine (proj2 (proj1 (get_valid_counts_ir_scatter (buffer_of 0%Q [1; 2; 3]%Q)
                          (buffer_of 0 [2; 0; 0]) (buffer_of 0 [1; 0; 1])
                          (fun _ => 0%Q) (fun _ => 0) 1 3 1 2 0
                          ltac:(lia) ltac:(lia) ltac:(lia) _ _)
                   0 ltac:(lia) _)).
  - intros i t Hi Ht. assert (i = 0) by lia. subst i.
    assert (t = 0 \/ t = 1 \/ t = 2) as Hc by lia.
    destruct Hc as [-> | [-> | ->]]; eval_buffers; lia.
  - intros i t t' Hi Ht Ht'. assert (i = 0) by lia. subst i.
    assert (t = 0 \/ t = 1 \/ t = 2) as Hc by lia.
    assert (t' = 0 \/ t' = 1 \/ t' = 2) as Hc' by lia.
    destruct Hc as [-> | [-> | ->]]; destruct Hc' as [-> | [-> | ->]];
      eval_buffers; lia.
  - eval_buffers. lia.
Defined.

(** ** [get_valid_counts] *)

(** The three extern stages of [get_valid_counts]; the last five arguments
    are the freshly allocated buffers of the stages.  Returns
    [(valid_count, out, out_indices)]. *)
Definition get_valid_counts (data : buf Q) (score_threshold : Q)
    (id_index score_index : Z) (batch_size num_anchors elem_length max_threads : Z)
    (valid_boxes_buf valid_count_buf valid_indices_buf : buf Z)
    (out_buf : buf Q) (out_indices_buf : buf Z) : buf Z * buf Q * buf Z :=
  let valid_boxes :=
    get_valid_boxes_ir data valid_boxes_buf score_threshold id_index score_index
      batch_size num_anchors elem_length max_threads in
  let '(valid_count, valid_indices) :=
    get_valid_indices_ir valid_boxes valid_count_buf valid_indices_buf
      batch_size num_anchors max_threads in
  let '(out, out_indices) :=
    get_valid_counts_ir data valid_indices valid_boxes out_buf out_indices_buf
      batch_size num_anchors elem_length max_threads in
  (valid_count, out, out_indices).

Lemma count_valid_ext f g j :
  (forall k, 0 <= k < j -> f k = g k) -> count_valid f j = count_valid g j.
Proof.
  intros H. unfold count_valid. f_equal. f_equal.
  apply filter_ext_in. intros k Hk.
  apply in_map_iff in Hk. destruct Hk as [x [<- Hx]].
  apply in_seq in Hx. rewrite H by lia. reflexivity.
Qed.

(** The destinations computed by the scan of a 0/1 mask are slots of the
    row, distinct for distinct valid anchors. *)
Lemma scan_destinations mask vc0 vi0 batch n mt :
  0 < mt -> 0 < n < 2 ^ 31 ->
  (forall i, 0 <= i < batch -> mask01 (row_of mask n i) n) ->
  (forall i t, 0 <= i < batch -> 0 <= t < n -> 0 < mask (i * n + t) ->
     0 <= snd (get_valid_indices_ir mask vc0 vi0 batch n mt) (i * n + t) < n) /\
  (forall i t t', 0 <= i < batch -> 0 <= t < n -> 0 <= t' < n ->
     0 < mask (i * n + t) -> 0 < mask (i * n + t') ->
     snd (get_valid_indices_ir mask vc0 vi0 batch n mt) (i * n + t)
     = snd (get_valid_indices_ir mask vc0 vi0 batch n mt) (i * n + t') -> t = t').
Proof.
  intros Hmt Hn Hrows.
  assert (Hone : forall i t, 0 <= i < batch -> 0 <= t < n ->
            0 < mask (i * n + t) -> row_of mask n i t = 1).
  { intros i t Hi Ht Hv. destruct (Hrows i Hi t Ht) as [E|E]; unfold row_of in *; lia. }
  split.
  - intros i t Hi Ht Hv.
    rewrite (proj1 (get_valid_indices_ir_prefix mask vc0 vi0 batch n mt Hmt Hn Hrows i Hi))
      by assumption.
    pose proof (prefix_sum_mono _ n 0 t (Hrows i Hi) ltac:(lia) ltac:(lia)).
    rewrite prefix_sum_0 in *. lia.
  - intros i t t' Hi Ht Ht' Hv Hv' E.
    rewrite !(proj1 (get_valid_indices_ir_prefix mask vc0 vi0 batch n mt Hmt Hn Hrows i Hi))
      in E by assumption.
    destruct (Z.lt_trichotomy t t') as [L|[L|L]]; [|exact L|].
    + pose proof (prefix_valid_strict _ n t t' (Hrows i Hi) ltac:(lia) ltac:(lia)
                    (Hone i t Hi Ht Hv)). lia.
    + pose proof (prefix_valid_strict _ n t' t (Hrows i Hi) ltac:(lia) ltac:(lia)
                    (Hone i t' Hi Ht' Hv')). lia.
Qed.

Lemma valid_flag_01 data thr id_index score_index n elem i j :
  valid_flag data thr id_index score_index n elem i j = 0 \/
  valid_flag data thr id_index score_index n elem i j = 1.
Proof. unfold valid_flag. destruct (_ && _); auto. Qed.

(** X7: [get_valid_counts] end to end.  For every row, [valid_count] is
    the number of anchors that pass the filter (score above the threshold
    and class gate, [valid_flag] = 1); the passing anchor [j] is moved, with
    all its fields, to the slot numbered by the passing anchors before it,
    where [out_indices] holds [j]; the slots from [valid_count] on hold [-1]
    in all fields and in [out_indices]. *)
Theorem get_valid_counts_pipeline (data : buf Q) (score_threshold : Q)
    (id_index score_index : Z) (batch_size num_anchors elem_length max_threads : Z)
    (valid_boxes_buf valid_count_buf valid_indices_buf : buf Z)
    (out_buf : buf Q) (out_indices_buf : buf Z) (i : Z) :
  0 < max_threads -> 0 <= num_anchors < 2 ^ 31 -> 0 <= i < batch_size ->
  let passes := valid_flag data score_threshold id_index score_index
                  num_anchors elem_length i in
  let r := get_valid_counts data score_threshold id_index score_index
             batch_size num_anchors elem_length max_threads
             valid_boxes_buf valid_count_buf valid_indices_buf out_buf out_indices_buf in
  fst (fst r) i = count_valid passes num_anchors
  /\
  (forall j, 0 <= j < num_anchors -> passes j = 1 ->
     (forall k, 0 <= k < elem_length ->
        snd (fst r) ((i * num_anchors + count_valid passes j) * elem_length + k)
        = data ((i * num_anchors + j) * elem_length + k)) /\
     snd r (i * num_anchors + count_valid passes j) = j)
  /\
  (forall s, count_valid passes num_anchors <= s < num_anchors ->
     (forall k, 0 <= k < elem_length ->
        snd (fst r) ((i * num_anchors + s) * elem_length + k) = minus_one) /\
     snd r (i * num_anchors + s) = -1).
Proof.
  intros Hmt Hn Hi passes r. subst r. unfold get_valid_counts.
  set (n := num_anchors) in *.
  set (vb := get_valid_boxes_ir data valid_boxes_buf score_threshold id_index score_index
               batch_size n elem_length max_threads).
  assert (Hvb : forall i' k, 0 <= i' < batch_size -> 0 <= k < n ->
            vb (i' * n + k)
            = valid_flag data score_threshold id_index score_index n elem_length i' k).
  { intros i' k Hi' Hk. apply get_valid_boxes_ir_flag; assumption. }
  assert (Hrows : forall i', 0 <= i' < batch_size -> mask01 (row_of vb n i') n).
  { intros i' Hi' k Hk. unfold row_of. rewrite Hvb by assumption. apply valid_flag_01. }
  destruct (Z.eq_dec n 0) as [Hz|Hnz].
  { assert (Hc : fst (get_valid_indices_ir vb valid_count_buf valid_indices_buf
                        batch_size n max_threads) i = 0).
    { rewrite Hz. unfold get_valid_indices_ir. cbn [Z.ltb Z.compare fst snd].
      apply (for_range_establish (fun vc => vc i = 0) 0 batch_size _ i valid_count_buf Hi).
      - intros vc. replace (i <? batch_size) with true by (symmetry; apply Z.ltb_lt; lia).
        apply store_eq.
      - intros t vc _ Hne H. destruct (t <? batch_size); [|exact H].
        rewrite store_neq by lia. exact H. }
    destruct (get_valid_indices_ir vb valid_count_buf valid_indices_buf
                batch_size n max_threads) as [vc vi].
    destruct (get_valid_counts_ir data vi vb out_buf out_indices_buf
                batch_size n elem_length max_threads) as [o oi].
    cbn [fst snd] in *. rewrite Hz.
    change (count_valid passes 0) with 0.
    split; [exact Hc|].
    split; intros; exfalso; lia. }
  assert (Hpos : 0 < n < 2 ^ 31) by lia.
  destruct (get_valid_indices_ir_prefix vb valid_count_buf valid_indices_buf
              batch_size n max_threads Hmt Hpos Hrows i Hi) as [Hvi Hvc].
  destruct (scan_destinations vb valid_count_buf valid_indices_buf batch_size n max_threads
              Hmt Hpos Hrows) as [Hrange Hinj].
  destruct (get_valid_indices_ir vb valid_count_buf valid_indices_buf
              batch_size n max_threads) as [vc vi].
  cbn [fst snd] in *.
  destruct (compact_spec data vi vb out_buf out_indices_buf batch_size n elem_length
              max_threads i Hmt ltac:(lia) Hi Hrange Hinj) as [Hput Hrest].
  destruct (get_valid_counts_ir data vi vb out_buf out_indices_buf
              batch_size n elem_length max_threads) as [o oi].
  cbn [fst snd] in *.
  assert (Hcount : forall j, 0 <= j <= n ->
            prefix_sum (row_of vb n i) j = count_valid passes j).
  { intros j Hj. rewrite (prefix_sum_count (row_of vb n i) n j (Hrows i Hi) Hj).
    apply count_valid_ext. intros k Hk. unfold row_of, passes. apply Hvb; lia. }
  split; [|split].
  - rewrite Hvc. apply Hcount. lia.
  - intros j Hj Hp.
    assert (Hv : 0 < vb (i * n + j)) by (rewrite Hvb by assumption; fold (passes j); lia).
    destruct (Hput j Hj Hv) as [Hf Hix].
    rewrite Hvi, Hcount in Hf, Hix by lia. split; assumption.
  - intros s Hs. rewrite <- Hcount in Hs by lia.
    assert (Hs0 : 0 <= s).
    { pose proof (prefix_sum_mono _ n 0 n (Hrows i Hi) ltac:(lia) ltac:(lia)).
      rewrite prefix_sum_0 in *. lia. }
    apply Hrest; [lia|].
    intros t Ht Hv. rewrite Hvi by assumption.
    assert (row_of vb n i t = 1).
    { destruct (Hrows i Hi t Ht) as [E|E]; unfold row_of in *; lia. }
    pose proof (prefix_valid_strict _ n t n (Hrows i Hi) ltac:(lia) ltac:(lia) H). lia.
Qed.

Lemma get_valid_counts_pipeline_witness :
  fst (fst (get_valid_counts
              (buffer_of 0%Q [0; 1 # 10; 0; 9 # 10; -1 # 1; 8 # 10; 0; 7 # 10]%Q)
              (1 # 2) 0 1 1 4 2 2
              (fun _ => 0) (fun _ => 0) (fun _ => 0) (fun _ => 0%Q) (fun _ => 0))) 0
  = count_valid
      (valid_flag (buffer_of 0%Q [0; 1 # 10; 0; 9 # 10; -1 # 1; 8 # 10; 0; 7 # 10]%Q)
         (1 # 2) 0 1 4 2 0) 4.
Proof.
  refine (proj1 (get_valid_counts_pipeline
                   (buffer_of 0%Q [0; 1 # 10; 0; 9 # 10; -1 # 1; 8 # 10; 0; 7 # 10]%Q)
                   (1 # 2) 0 1 1 4 2 2
                   (fun _ => 0) (fun _ => 0) (fun _ => 0) (fun _ => 0%Q) (fun _ => 0) 0
                   _ _ _)); lia.
Defined.

Example get_valid_counts_four_anchors :
  let r := get_valid_counts
             (buffer_of 0%Q [0; 1 # 10; 0; 9 # 10; -1 # 1; 8 # 10; 0; 7 # 10]%Q)
             (1 # 2) 0 1 1 4 2 2
             (fun _ => 0) (fun _ => 0) (fun _ => 0) (fun _ => 0%Q) (fun _ => 0) in
  fst (fst r) 0 = 2 /\ List.map (snd r) [0; 1; 2; 3] = [1; 3; -1; -1].
Proof. vm_compute. split; reflexivity. Qed.

(** ** More on the exclusive scan *)

(** X8: the scan as a recurrence.  On a 0/1 mask, in every row
    [valid_indices] starts at 0 and grows by the flag of each anchor, and
    [valid_count] is the last destination plus the last flag. *)
Theorem get_valid_indices_ir_recurrence (valid_boxes valid_count valid_indices : buf Z)
    (batch_size num_anchors max_threads i : Z) :
  0 < max_threads -> 0 < num_anchors < 2 ^ 31 -> 0 <= i < batch_size ->
  (forall i k, 0 <= i < batch_size -> 0 <= k < num_anchors ->
     valid_boxes (i * num_anchors + k) = 0 \/ valid_boxes (i * num_anchors + k) = 1) ->
  snd (get_valid_indices_ir valid_boxes valid_count valid_indices
         batch_size num_anchors max_threads) (i * num_anchors + 0) = 0
  /\
  (forall j, 0 <= j -> j + 1 < num_anchors ->
     snd (get_valid_indices_ir valid_boxes valid_count valid_indices
            batch_size num_anchors max_threads) (i * num_anchors + (j + 1))
     = snd (get_valid_indices_ir valid_boxes valid_count valid_indices
              batch_size num_anchors max_threads) (i * num_anchors + j)
       + valid_boxes (i * num_anchors + j))
  /\
  fst (get_valid_indices_ir valid_boxes valid_count valid_indices
         batch_size num_anchors max_threads) i
  = snd (get_valid_indices_ir valid_boxes valid_count valid_indices
           batch_size num_anchors max_threads) (i * num_anchors + (num_anchors - 1))
    + valid_boxes (i * num_anchors + (num_anchors - 1)).
Proof.
  intros Hmt Hn Hi H01.
  pose proof (rows_mask01 valid_boxes batch_size num_anchors H01) as Hrows.
  destruct (get_valid_indices_ir_prefix valid_boxes valid_count valid_indices
              batch_size num_anchors max_threads Hmt Hn Hrows i Hi) as [Hvi Hvc].
  split; [|split].
  - rewrite Hvi by lia. apply prefix_sum_0.
  - intros j Hj Hj1. rewrite !Hvi by lia. now rewrite prefix_sum_succ by lia.
  - rewrite Hvc, Hvi by lia.
    replace num_anchors with (num_anchors - 1 + 1) at 2 by lia.
    now rewrite prefix_sum_succ by lia.
Qed.

Lemma get_valid_indices_ir_recurrence_witness :
  fst (get_valid_indices_ir (buffer_of 0 [1; 0; 1]) (fun _ => 0) (fun _ => 0) 1 3 2) 0
  = snd (get_valid_indices_ir (buffer_of 0 [1; 0; 1]) (fun _ => 0) (fun _ => 0) 1 3 2)
      (0 * 3 + (3 - 1))
    + buffer_of 0 [1; 0; 1] (0 * 3 + (3 - 1)).
Proof.
  refine (proj2 (proj2 (get_valid_indices_ir_recurrence
                          (buffer_of 0 [1; 0; 1]) (fun _ => 0) (fun _ => 0) 1 3 2 0
                          ltac:(lia) ltac:(lia) ltac:(lia) _))).
  intros i k Hi Hk. assert (i = 0) by lia. subst i.
  assert (k = 0 \/ k = 1 \/ k = 2) as Hc by lia.
  destruct Hc as [-> | [-> | ->]]; eval_buffers; auto.
Defined.

(** ** The first launch of [nms_ir] *)

Lemma nkeep_of_le c valid_count i : nkeep_of c valid_count i <= valid_count i.
Proof.
  unfold nkeep_of. destruct (top_k c >? 0); cbn [andb]; [|lia].
  destruct (top_k c <? valid_count i) eqn:E; [|lia]. apply Z.ltb_lt in E. lia.
Qed.

Lemma record_pos n len i j f : i * n * len + j * len + f = (i * n + j) * len + f.
Proof. lia. Qed.

(** What the first launch leaves in the row of [i], when no row has more
    valid boxes than anchors. *)
Lemma reorder_spec c data sorted_index valid_count (out : buf Q) (bi : buf Z) i :
  0 < max_threads c -> 0 <= num_anchors c ->
  (forall i', 0 <= i' < batch_size c -> valid_count i' <= num_anchors c) ->
  0 <= i < batch_size c ->
  let r := launch (batch_size c) (ceil_div (num_anchors c) (max_threads c)) (max_threads c)
             (reorder_thread c data sorted_index valid_count) (out, bi) in
  (forall j f, 0 <= j < num_anchors c -> 0 <= f < box_data_length c ->
     fst r (i * num_anchors c * box_data_length c + j * box_data_length c + f)
     = if suppression_enabled c valid_count i then
         if j <? nkeep_of c valid_count i
         then data (i * num_anchors c * box_data_length c
                    + sorted_index (i * num_anchors c + j) * box_data_length c + f)
         else minus_one
       else if j <? valid_count i
            then data (i * num_anchors c * box_data_length c + j * box_data_length c + f)
            else out (i * num_anchors c * box_data_length c + j * box_data_length c + f))
  /\
  (forall j, 0 <= j < num_anchors c ->
     snd r (i * num_anchors c + j)
     = if suppression_enabled c valid_count i then -1
       else if j <? valid_count i then j else bi (i * num_anchors c + j)).
Proof.
  intros Hmt Hn Hvc Hi r. subst r.
  set (n := num_anchors c) in *. set (len := box_data_length c) in *.
  set (mt := max_threads c) in *.
  pose (go := fun i t (o : buf Q) =>
    if suppression_enabled c valid_count i then
      if t <? nkeep_of c valid_count i then
        for_range 0 len
          (fun k o' => store o' (i * n * len + t * len + k)
                         (data (i * n * len + sorted_index (i * n + t) * len + k))) o
      else if t <? n then
        for_range 0 len (fun k o' => store o' (i * n * len + t * len + k) minus_one) o
      else o
    else if t <? valid_count i then
      for_range 0 len
        (fun k o' => store o' (i * n * len + t * len + k)
                       (data (i * n * len + t * len + k))) o
    else o).
  pose (gi := fun i t (b : buf Z) =>
    if suppression_enabled c valid_count i then
      if t <? n then store b (i * n + t) (-1) else b
    else if t <? valid_count i then store b (i * n + t) t else b).
  assert (Hnbx : 0 <= ceil_div n mt) by (apply ceil_div_nonneg; assumption).
  pose proof (ceil_div_ge n mt Hmt) as Hcov.
  set (N := ceil_div n mt * mt) in *.
  rewrite (launch_pair _ _ _
             (fun by_ bx tx => go by_ (bx * mt + tx))
             (fun by_ bx tx => gi by_ (bx * mt + tx))).
  2:{ intros i0 bx tx a' b'. unfold reorder_thread, go, gi. fold n len mt.
      destruct (suppression_enabled c valid_count i0).
      - reflexivity.
      - destruct (bx * mt + tx <? valid_count i0); reflexivity. }
  cbn [fst snd].
  (* the box buffer *)
  pose (own_o := fun i t p =>
    t < n /\ exists f, 0 <= f < len /\ p = i * n * len + t * len + f).
  assert (GOeval : forall i t o p, go i t o p =
    if (i * n * len + t * len <=? p) && (p <? i * n * len + t * len + len) then
      if suppression_enabled c valid_count i then
        if t <? nkeep_of c valid_count i
        then data (i * n * len + sorted_index (i * n + t) * len
                   + (p - (i * n * len + t * len)))
        else if t <? n then minus_one else o p
      else if t <? valid_count i then data p else o p
    else o p).
  { intros i0 t o p. unfold go.
    destruct (suppression_enabled c valid_count i0).
    - destruct (t <? nkeep_of c valid_count i0).
      + rewrite (fields_loop (i0 * n * len + t * len) len
                   (fun k => data (i0 * n * len + sorted_index (i0 * n + t) * len + k)) o p).
        reflexivity.
      + destruct (t <? n).
        * rewrite (fields_loop (i0 * n * len + t * len) len (fun _ => minus_one) o p).
          reflexivity.
        * now destruct (_ && _).
    - destruct (t <? valid_count i0).
      + rewrite (fields_loop (i0 * n * len + t * len) len
                   (fun k => data (i0 * n * len + t * len + k)) o p).
        destruct (_ && _) eqn:E; [|reflexivity].
        apply in_record in E. destruct E as [k [Hk ->]]. f_equal. lia.
      + now destruct (_ && _). }
  assert (Hin : forall i t, 0 <= i < batch_size c -> 0 <= t ->
            ((t <? nkeep_of c valid_count i) = true \/ (t <? valid_count i) = true) -> t < n).
  { intros i0 t Hi0 Ht [E|E]; apply Z.ltb_lt in E;
      pose proof (nkeep_of_le c valid_count i0); pose proof (Hvc i0 Hi0); lia. }
  assert (HwO : forall i t o p, 0 <= i < batch_size c -> 0 <= t < N ->
            ~ own_o i t p -> go i t o p = o p).
  { intros i0 t o p Hi0 Ht Hno. rewrite GOeval.
    destruct (_ && _) eqn:E; [|reflexivity].
    apply in_record in E.
    destruct (suppression_enabled c valid_count i0).
    - destruct (t <? nkeep_of c valid_count i0) eqn:E1.
      + exfalso. apply Hno. split; [apply (Hin i0 t); auto; lia|exact E].
      + destruct (t <? n) eqn:E2; [|reflexivity].
        exfalso. apply Hno. apply Z.ltb_lt in E2. split; [exact E2|exact E].
    - destruct (t <? valid_count i0) eqn:E1; [|reflexivity].
      exfalso. apply Hno. split; [apply (Hin i0 t); auto; lia|exact E]. }
  assert (HrO : forall i t o o' p, 0 <= i < batch_size c -> 0 <= t < N ->
            (forall q, own_o i t q -> o q = o' q) -> own_o i t p ->
            go i t o p = go i t o' p).
  { intros i0 t o o' p Hi0 Ht Hq Hown. rewrite !GOeval.
    rewrite (Hq p Hown). reflexivity. }
  assert (HdO : forall i t i' t' p, 0 <= i < batch_size c -> 0 <= t < N ->
            0 <= i' < batch_size c -> 0 <= t' < N ->
            i <> i' \/ t <> t' -> own_o i t p -> ~ own_o i' t' p).
  { intros i0 t i1 t1 p Hi0 Ht Hi1 Ht1 Hne [Hlt [f0 [Hf0 ->]]] [Hlt1 [f1 [Hf1 E]]].
    rewrite !record_pos in E.
    destruct (slot_field_inj n len i0 i1 t t1 f0 f1) as [? [? ?]]; lia. }
  pose proof (launch_race_free go own_o (batch_size c) (ceil_div n mt) mt Hmt Hnbx
                HwO HrO HdO out) as RO.
  (* the index buffer *)
  pose (own_i := fun i t p => t < n /\ p = i * n + t).
  assert (HwI : forall i t b p, 0 <= i < batch_size c -> 0 <= t < N ->
            ~ own_i i t p -> gi i t b p = b p).
  { intros i0 t b p Hi0 Ht Hno. unfold gi.
    destruct (suppression_enabled c valid_count i0).
    - destruct (t <? n) eqn:E; [|reflexivity]. apply Z.ltb_lt in E.
      apply store_neq. intros ->. apply Hno. split; [exact E|reflexivity].
    - destruct (t <? valid_count i0) eqn:E; [|reflexivity].
      apply store_neq. intros ->. apply Hno.
      split; [apply (Hin i0 t); auto; lia|reflexivity]. }
  assert (HrI : forall i t b b' p, 0 <= i < batch_size c -> 0 <= t < N ->
            (forall q, own_i i t q -> b q = b' q) -> own_i i t p ->
            gi i t b p = gi i t b' p).
  { intros i0 t b b' p Hi0 Ht Hq [Hlt ->]. unfold gi.
    destruct (suppression_enabled c valid_count i0).
    - apply Z.ltb_lt in Hlt. rewrite Hlt. now rewrite !store_eq.
    - destruct (t <? valid_count i0); [now rewrite !store_eq|].
      apply Hq. split; [exact Hlt|reflexivity]. }
  assert (HdI : forall i t i' t' p, 0 <= i < batch_size c -> 0 <= t < N ->
            0 <= i' < batch_size c -> 0 <= t' < N ->
            i <> i' \/ t <> t' -> own_i i t p -> ~ own_i i' t' p).
  { intros i0 t i1 t1 p Hi0 Ht Hi1 Ht1 Hne [Hlt ->] [Hlt1 E].
    destruct (row_index_inj n i0 i1 t t1) as [? ?]; lia. }
  pose proof (launch_race_free gi own_i (batch_size c) (ceil_div n mt) mt Hmt Hnbx
                HwI HrI HdI bi) as RI.
  split.
  - intros j f Hj Hf.
    rewrite (proj1 (RO _) i j Hi ltac:(lia)).
    + rewrite GOeval.
      replace (_ && _) with true
        by (symmetry; apply in_record; exists f; split; [exact Hf|reflexivity]).
      destruct (suppression_enabled c valid_count i).
      * destruct (j <? nkeep_of c valid_count i); [f_equal; lia|].
        replace (j <? n) with true by (symmetry; apply Z.ltb_lt; lia). reflexivity.
      * reflexivity.
    + split; [lia|]. exists f. auto.
  - intros j Hj.
    rewrite (proj1 (RI _) i j Hi ltac:(lia)).
    + unfold gi. destruct (suppression_enabled c valid_count i).
      * replace (j <? n) with true by (symmetry; apply Z.ltb_lt; lia). apply store_eq.
      * destruct (j <? valid_count i); [apply store_eq|reflexivity].
    + split; [lia|reflexivity].
Qed.

Lemma nkeep_of_min c valid_count i :
  nkeep_of c valid_count i
  = if top_k c >? 0 then Z.min (top_k c) (valid_count i) else valid_count i.
Proof.
  unfold nkeep_of. destruct (top_k c >? 0); cbn [andb]; [|reflexivity].
  destruct (top_k c <? valid_count i) eqn:E.
  - apply Z.ltb_lt in E. lia.
  - apply Z.ltb_ge in E. lia.
Qed.

(** X9: the reorder launch.  In a row with suppression enabled
    ([iou_threshold > 0], [valid_count > 0]), when no row has more valid
    boxes than anchors, the first launch puts the [nkeep] best boxes in
    sort order at the front of the row ([out[j] = data[sorted_index[j]]] for
    [j < nkeep]), fills every later slot with [-1] in all fields, and resets
    [box_indices] of the row to [-1]; [nkeep] is [valid_count] cut down to
    [top_k] when [top_k > 0]. *)
Theorem nms_ir_reorder (c : nms_config) (data : buf Q)
    (sorted_index valid_count : buf Z) (out : buf Q) (box_indices : buf Z) (i : Z) :
  0 < max_threads c -> 0 <= num_anchors c ->
  (forall i', 0 <= i' < batch_size c -> valid_count i' <= num_anchors c) ->
  0 <= i < batch_size c ->
  Qlt 0 (iou_threshold c) -> 0 < valid_count i ->
  nkeep_of c valid_count i
  = (if top_k c >? 0 then Z.min (top_k c) (valid_count i) else valid_count i)
  /\
  (forall j f, 0 <= j < nkeep_of c valid_count i -> 0 <= f < box_data_length c ->
     fst (launch (batch_size c) (ceil_div (num_anchors c) (max_threads c)) (max_threads c)
            (reorder_thread c data sorted_index valid_count) (out, box_indices))
       (i * num_anchors c * box_data_length c + j * box_data_length c + f)
     = data (i * num_anchors c * box_data_length c
             + sorted_index (i * num_anchors c + j) * box_data_length c + f))
  /\
  (forall j f, nkeep_of c valid_count i <= j < num_anchors c -> 0 <= j ->
     0 <= f < box_data_length c ->
     fst (launch (batch_size c) (ceil_div (num_anchors c) (max_threads c)) (max_threads c)
            (reorder_thread c data sorted_index valid_count) (out, box_indices))
       (i * num_anchors c * box_data_length c + j * box_data_length c + f)
     = minus_one)
  /\
  (forall j, 0 <= j < num_anchors c ->
     snd (launch (batch_size c) (ceil_div (num_anchors c) (max_threads c)) (max_threads c)
            (reorder_thread c data sorted_index valid_count) (out, box_indices))
       (i * num_anchors c + j)
     = -1).
Proof.
  intros Hmt Hn Hvc Hi Hthr Hpos.
  destruct (reorder_spec c data sorted_index valid_count out box_indices i Hmt Hn Hvc Hi)
    as [Ho Hb].
  assert (He : suppression_enabled c valid_count i = true).
  { unfold suppression_enabled. apply andb_true_iff. split.
    - apply Qgtb_true. exact Hthr.
    - apply Z.gtb_lt. exact Hpos. }
  rewrite He in Ho, Hb.
  split; [apply nkeep_of_min|]. split; [|split].
  - intros j f Hj Hf.
    pose proof (nkeep_of_le c valid_count i). pose proof (Hvc i Hi).
    rewrite Ho by lia.
    replace (j <? nkeep_of c valid_count i) with true by (symmetry; apply Z.ltb_lt; lia).
    reflexivity.
  - intros j f Hj Hj0 Hf. rewrite Ho by lia.
    replace (j <? nkeep_of c valid_count i) with false by (symmetry; apply Z.ltb_ge; lia).
    reflexivity.
  - intros j Hj. apply Hb. exact Hj.
Qed.

Lemma nms_ir_reorder_witness :
  fst (launch 1 (ceil_div 3 2) 2
         (reorder_thread (mkConfig 1 3 6 2 (-1) (1 # 2) false 2 2 0 1 true)
            (buffer_of 0%Q [0; 7 # 10; 0; 0; 1; 1;
                            0; 9 # 10; 2; 2; 3; 3;
                            0; 8 # 10; 4; 4; 5; 5]%Q)
            (buffer_of 0 [1; 2; 0]) (fun _ => 3))
         ((fun _ => 0%Q), (fun _ => 0)))
    (0 * 3 * 6 + 0 * 6 + 1)
  = buffer_of 0%Q [0; 7 # 10; 0; 0; 1; 1;
                   0; 9 # 10; 2; 2; 3; 3;
                   0; 8 # 10; 4; 4; 5; 5]%Q
      (0 * 3 * 6 + buffer_of 0 [1; 2; 0] (0 * 3 + 0) * 6 + 1).
Proof.
  refine (proj1 (proj2 (nms_ir_reorder
                          (mkConfig 1 3 6 2 (-1) (1 # 2) false 2 2 0 1 true)
                          (buffer_of 0%Q [0; 7 # 10; 0; 0; 1; 1;
                                          0; 9 # 10; 2; 2; 3; 3;
                                          0; 8 # 10; 4; 4; 5; 5]%Q)
                          (buffer_of 0 [1; 2; 0]) (fun _ => 3)
                          (fun _ => 0%Q) (fun _ => 0) 0 _ _ _ _ _ _)) 0 1 _ _);
    cbn; try lia; try reflexivity.
Defined.

(** ** The second launch of [nms_ir], row by row *)

(** Number of boxes among the first [J] of a row that the [j] loop takes
    as still valid (score [> -1]). *)
Definition count_alive (c : nms_config) (o : buf Q) (base J : Z) : Z :=
  count_valid
    (fun k => if Qgtb (o (base + k * box_data_length c + score_index c)) minus_one
              then 1 else 0) J.

Lemma count_valid_succ f j :
  0 <= j -> count_valid f (j + 1) = count_valid f j + (if f j =? 1 then 1 else 0).
Proof.
  intros Hj. unfold count_valid.
  replace (Z.to_nat (j + 1)) with (Datatypes.S (Z.to_nat j)) by lia.
  rewrite seq_S, map_app, filter_app, length_app. cbn [Nat.add List.map List.filter].
  rewrite Z2Nat.id by lia. destruct (f j =? 1); cbn [List.length]; lia.
Qed.

Lemma count_valid_bounds f j : 0 <= j -> 0 <= count_valid f j <= j.
Proof.
  intros Hj.
  assert (G : forall d : nat, 0 <= count_valid f (Z.of_nat d) <= Z.of_nat d).
  { induction d as [|d IH]; [cbn; lia|].
    replace (Z.of_nat (Datatypes.S d)) with (Z.of_nat d + 1) by lia.
    rewrite count_valid_succ by lia. destruct (f (Z.of_nat d) =? 1); lia. }
  specialize (G (Z.to_nat j)). now rewrite Z2Nat.id in G by lia.
Qed.

Lemma count_valid_mono f j j' : 0 <= j <= j' -> count_valid f j <= count_valid f j'.
Proof.
  intros Hj.
  assert (G : forall d : nat, count_valid f j <= count_valid f (j + Z.of_nat d)).
  { induction d as [|d IH]; [rewrite Z.add_0_r; lia|].
    replace (j + Z.of_nat (Datatypes.S d)) with (j + Z.of_nat d + 1) by lia.
    rewrite count_valid_succ by lia. destruct (f (j + Z.of_nat d) =? 1); lia. }
  specialize (G (Z.to_nat (j' - j))).
  now replace (j + Z.of_nat (Z.to_nat (j' - j))) with j' in G by lia.
Qed.

Lemma count_alive_succ c o base J :
  0 <= J ->
  count_alive c o base (J + 1)
  = count_alive c o base J
    + (if Qgtb (o (base + J * box_data_length c + score_index c)) minus_one then 1 else 0).
Proof.
  intros HJ. unfold count_alive. rewrite count_valid_succ by assumption.
  destruct (Qgtb _ minus_one); reflexivity.
Qed.

Lemma count_alive_ext c o o' base J :
  (forall k, 0 <= k < J ->
     o (base + k * box_data_length c + score_index c)
     = o' (base + k * box_data_length c + score_index c)) ->
  count_alive c o base J = count_alive c o' base J.
Proof.
  intros H. unfold count_alive. apply count_valid_ext.
  intros k Hk. now rewrite H.
Qed.

Lemma count_alive_lt c o base j J :
  0 <= j < J ->
  Qgtb (o (base + j * box_data_length c + score_index c)) minus_one = true ->
  count_alive c o base j < count_alive c o base J.
Proof.
  intros Hj Ha.
  pose proof (count_valid_mono
                (fun k => if Qgtb (o (base + k * box_data_length c + score_index c)) minus_one
                          then 1 else 0) (j + 1) J ltac:(lia)) as M.
  fold (count_alive c o base (j + 1)) in M. fold (count_alive c o base J) in M.
  rewrite count_alive_succ in M by lia. rewrite Ha in M. lia.
Qed.

Lemma for_range_split {S} lo m hi (body : Z -> S -> S) s :
  lo <= m <= hi ->
  for_range lo hi body s = for_range m hi body (for_range lo m body s).
Proof.
  intros H. unfold for_range.
  replace (Z.to_nat (hi - lo)) with (Z.to_nat (m - lo) + Z.to_nat (hi - m))%nat by lia.
  rewrite iter_from_app. f_equal. lia.
Qed.

(** The iteration [t] of a loop seen alone: it starts from a state that
    satisfies what the earlier iterations keep, and what it leaves is kept,
    up to [Agree], by the later ones. *)
Lemma for_range_focus {S} (Pre : S -> Prop) (Agree : S -> S -> Prop)
    lo hi (body : Z -> S -> S) t s :
  lo <= t < hi ->
  Pre s ->
  (forall t' s', lo <= t' < t -> Pre s' -> Pre (body t' s')) ->
  (forall x, Agree x x) ->
  (forall t' x s', t < t' < hi -> Agree x s' -> Agree x (body t' s')) ->
  exists s_in, Pre s_in /\ Agree (body t s_in) (for_range lo hi body s).
Proof.
  intros Ht Hpre Hkeep Hrefl Hlater.
  exists (for_range lo t body s). split.
  - apply for_range_keep; [exact Hpre|]. intros t' s' Ht'. apply Hkeep. lia.
  - rewrite (for_range_split lo (t + 1) hi) by lia.
    rewrite for_range_snoc by lia.
    apply (for_range_ind (fun _ s' => Agree (body t (for_range lo t body s)) s'));
      [lia|apply Hrefl|].
    intros t' s' Ht' H. apply Hlater; [lia|exact H].
Qed.

Lemma nms_inner_loop_frame c sorted_index indices i nkeep j out bi l p :
  0 < max_threads c -> record_ok c -> j < nkeep ->
  (forall k f, j < k < nkeep -> 0 <= f < box_data_length c ->
     p <> i * num_anchors c * box_data_length c + k * box_data_length c + f) ->
  fst (fst (nms_inner_loop c sorted_index indices i nkeep j (out, bi, l))) p = out p.
Proof.
  intros Hmt Hrec Hj Hp. rewrite nms_inner_loop_out.
  apply (proj2 (inner_loop_spec c _ nkeep j out Hmt Hrec Hj)). exact Hp.
Qed.

Lemma nms_inner_loop_indices c sorted_index indices i nkeep j out bi l :
  snd (fst (nms_inner_loop c sorted_index indices i nkeep j (out, bi, l)))
  = if return_indices c
    then store bi (i * num_anchors c + l)
           (indices (i * num_anchors c + sorted_index (i * num_anchors c + j)))
    else bi.
Proof. unfold nms_inner_loop. cbn [fst snd]. destruct (return_indices c); reflexivity. Qed.

(** An iteration of the [j] loop either changes nothing or is a pass of
    the inner loop for a box whose score is [> -1]. *)
Lemma nms_outer_step_cases c sorted_index indices i nkeep j o b l :
  nms_outer_step c sorted_index indices i nkeep j (o, b, l) = (o, b, l) \/
  (Qgtb (o (i * num_anchors c * box_data_length c + j * box_data_length c + score_index c))
        minus_one = true /\
   nms_outer_step c sorted_index indices i nkeep j (o, b, l)
   = nms_inner_loop c sorted_index indices i nkeep j (o, b, l)).
Proof.
  unfold nms_outer_step.
  destruct (Qgtb _ minus_one); [|left; reflexivity].
  destruct (max_output_size c >? 0).
  - destruct (l <? max_output_size c); [right|left]; auto.
  - right. auto.
Qed.

Lemma nms_outer_step_unlimited c sorted_index indices i nkeep j o b l :
  max_output_size c <= 0 ->
  nms_outer_step c sorted_index indices i nkeep j (o, b, l)
  = if Qgtb (o (i * num_anchors c * box_data_length c + j * box_data_length c
                + score_index c)) minus_one
    then nms_inner_loop c sorted_index indices i nkeep j (o, b, l)
    else (o, b, l).
Proof.
  intros Hmos. unfold nms_outer_step.
  replace (max_output_size c >? 0) with false; [reflexivity|].
  symmetry. rewrite Z.gtb_ltb. apply Z.ltb_ge. exact Hmos.
Qed.

(** Box [k] of the row at [base] is as in [out]. *)
Definition box_kept (c : nms_config) (o out : buf Q) (base k : Z) : Prop :=
  forall f, 0 <= f < box_data_length c ->
    o (base + k * box_data_length c + f) = out (base + k * box_data_length c + f).

(** Box [k] is invalidated: score (and class id, with [id_index >= 0]) is
    [-1]; every other field is as in [out]. *)
Definition box_invalidated (c : nms_config) (o out : buf Q) (base k : Z) : Prop :=
  o (base + k * box_data_length c + score_index c) = minus_one /\
  (0 <= id_index c -> o (base + k * box_data_length c + id_index c) = minus_one) /\
  (forall f, 0 <= f < box_data_length c -> f <> score_index c -> f <> id_index c ->
     o (base + k * box_data_length c + f) = out (base + k * box_data_length c + f)).

(** What holds of the state of a row's [j] loop before iteration [J],
    whatever [max_output_size] is. *)
Definition row_inv (c : nms_config) (i nkeep : Z) (out : buf Q) (bi : buf Z)
    (J : Z) (s : row_state) : Prop :=
  let base := i * num_anchors c * box_data_length c in
  (forall p, (forall k f, 0 < k < nkeep -> 0 <= f < box_data_length c ->
                p <> base + k * box_data_length c + f) ->
     fst (fst s) p = out p) /\
  (forall k, 0 < k < nkeep ->
     box_kept c (fst (fst s)) out base k \/ box_invalidated c (fst (fst s)) out base k) /\
  0 <= snd s <= J /\
  (forall q, (forall c', 0 <= c' < snd s -> q <> i * num_anchors c + c') ->
     snd (fst s) q = bi q).

Lemma row_inv_step c sorted_index indices i nkeep out bi J s :
  0 < max_threads c -> record_ok c -> nkeep < 2 ^ 31 -> 0 <= J < nkeep ->
  row_inv c i nkeep out bi J s ->
  row_inv c i nkeep out bi (J + 1) (nms_outer_step c sorted_index indices i nkeep J s).
Proof.
  intros Hmt Hrec Hnk HJ [F [M [L B]]]. destruct s as [[o b] l]. cbn [fst snd] in *.
  set (base := i * num_anchors c * box_data_length c) in *.
  set (len := box_data_length c) in *.
  destruct (nms_outer_step_cases c sorted_index indices i nkeep J o b l) as [E|[Ha E]];
    rewrite E.
  { unfold row_inv. cbn [fst snd]. fold len. fold base.
    split; [exact F|]. split; [exact M|]. split; [lia|exact B]. }
  clear E Ha.
  assert (P1 : forall p, (forall k f, J < k < nkeep -> 0 <= f < len ->
                            p <> base + k * len + f) ->
            fst (fst (nms_inner_loop c sorted_index indices i nkeep J (o, b, l))) p = o p).
  { intros p Hp. apply nms_inner_loop_frame; try assumption; lia. }
  assert (P2 := fun k f => nms_inner_loop_candidate c sorted_index indices i nkeep J
                             o b l k f Hmt Hrec).
  fold len in P2. fold base in P2.
  unfold row_inv. fold len. fold base.
  rewrite nms_inner_loop_indices, nms_inner_loop_count.
  set (o' := fst (fst (nms_inner_loop c sorted_index indices i nkeep J (o, b, l)))) in *.
  cbn [fst snd].
  destruct Hrec as [Hs [Hid [Hc0 Hc3]]]. fold len in Hs, Hid, Hc3.
  split; [|split; [|split]].
  - intros p Hp. rewrite P1; [apply F; exact Hp|].
    intros k f Hk Hf. apply Hp; [lia|exact Hf].
  - intros k Hk.
    destruct (Z_le_gt_dec k J) as [Hle|Hgt].
    + assert (Same : forall f, 0 <= f < len -> o' (base + k * len + f) = o (base + k * len + f)).
      { intros f Hf. apply P1. intros k' f' Hk' Hf' E.
        assert (E' : k * len + f = k' * len + f') by lia.
        destruct (row_index_inj len _ _ f f' Hf Hf' E'). lia. }
      destruct (M k Hk) as [Mk|[Ms [Mi Mo]]].
      * left. intros f Hf. rewrite Same by assumption. apply Mk. exact Hf.
      * right. split; [|split].
        -- rewrite Same by lia. exact Ms.
        -- intros Hi0. rewrite Same by lia. apply Mi. exact Hi0.
        -- intros f Hf H1 H2. rewrite Same by assumption. apply Mo; assumption.
    + destruct (candidate_compared c o base J k
                && Qgeb (candidate_iou c o base J k) (iou_threshold c)) eqn:Ecmp.
      * right.
        assert (Other : forall f, 0 <= f < len -> f <> score_index c -> f <> id_index c ->
                  o' (base + k * len + f) = o (base + k * len + f)).
        { intros f Hf H1 H2. rewrite P2 by (try assumption; lia). rewrite Ecmp.
          replace (f =? id_index c) with false by (symmetry; apply Z.eqb_neq; lia).
          replace (f =? score_index c) with false by (symmetry; apply Z.eqb_neq; lia).
          now rewrite andb_false_r. }
        split; [|split].
        -- rewrite P2 by (try assumption; lia). rewrite Ecmp.
           rewrite Z.eqb_refl. now rewrite orb_true_r.
        -- intros Hi0. rewrite P2 by (try assumption; lia). rewrite Ecmp.
           replace (id_index c >=? 0) with true by (symmetry; apply Z.geb_le; lia).
           now rewrite Z.eqb_refl.
        -- intros f Hf H1 H2. rewrite Other by assumption.
           destruct (M k ltac:(lia)) as [Mk|[_ [_ Mo]]]; [apply Mk|apply Mo]; assumption.
      * assert (Same : forall f, 0 <= f < len ->
                  o' (base + k * len + f) = o (base + k * len + f)).
        { intros f Hf. rewrite P2 by (try assumption; lia). now rewrite Ecmp. }
        destruct (M k ltac:(lia)) as [Mk|[Ms [Mi Mo]]].
        -- left. intros f Hf. rewrite Same by assumption. apply Mk. exact Hf.
        -- right. split; [|split].
           ++ rewrite Same by lia. exact Ms.
           ++ intros Hi0. rewrite Same by lia. apply Mi. exact Hi0.
           ++ intros f Hf H1 H2. rewrite Same by assumption. apply Mo; assumption.
  - unfold add32. rewrite wrap32_small by lia. lia.
  - intros q Hq. unfold add32 in Hq. rewrite wrap32_small in Hq by lia.
    destruct (return_indices c).
    + rewrite store_neq by (apply Hq; lia). apply B. intros c' Hc'. apply Hq. lia.
    + apply B. intros c' Hc'. apply Hq. lia.
Qed.

Lemma row_inv_final c sorted_index indices i nkeep out bi :
  0 < max_threads c -> record_ok c -> 0 <= nkeep < 2 ^ 31 ->
  row_inv c i nkeep out bi nkeep
    (for_range 0 nkeep (nms_outer_step c sorted_index indices i nkeep) (out, bi, 0)).
Proof.
  intros Hmt Hrec Hnk.
  apply (for_range_ind (row_inv c i nkeep out bi)); [lia| |].
  - unfold row_inv. cbn [fst snd]. split; [reflexivity|].
    split; [intros k Hk; left; intros f Hf; reflexivity|].
    split; [lia|reflexivity].
  - intros J s HJ IH. apply row_inv_step; try assumption; lia.
Qed.

(** What holds in addition when [max_output_size <= 0]: every pass has
    been run, the local count is the number of valid boxes met so far, and
    (with [return_indices]) the kept boxes are listed in order. *)
Definition row_inv_unlimited (c : nms_config) (sorted_index indices : buf Z)
    (i nkeep J : Z) (s : row_state) : Prop :=
  let base := i * num_anchors c * box_data_length c in
  (forall j k, 0 <= j < J -> j < k < nkeep ->
     Qgtb (fst (fst s) (base + j * box_data_length c + score_index c)) minus_one = true ->
     candidate_compared c (fst (fst s)) base j k = true ->
     Qgeb (candidate_iou c (fst (fst s)) base j k) (iou_threshold c) = false) /\
  snd s = count_alive c (fst (fst s)) base J /\
  (return_indices c = true ->
   forall j, 0 <= j < J ->
     Qgtb (fst (fst s) (base + j * box_data_length c + score_index c)) minus_one = true ->
     snd (fst s) (i * num_anchors c + count_alive c (fst (fst s)) base j)
     = indices (i * num_anchors c + sorted_index (i * num_anchors c + j))).

Lemma row_inv_unlimited_step c sorted_index indices i nkeep J s :
  0 < max_threads c -> record_ok c -> max_output_size c <= 0 ->
  nkeep < 2 ^ 31 -> 0 <= J < nkeep ->
  row_inv_unlimited c sorted_index indices i nkeep J s ->
  row_inv_unlimited c sorted_index indices i nkeep (J + 1)
    (nms_outer_step c sorted_index indices i nkeep J s).
Proof.
  intros Hmt Hrec Hmos Hnk HJ [S [C B]]. destruct s as [[o b] l]. cbn [fst snd] in *.
  rewrite nms_outer_step_unlimited by assumption.
  set (len := box_data_length c) in *.
  set (base := i * num_anchors c * len) in *.
  destruct (Qgtb (o (base + J * len + score_index c)) minus_one) eqn:Ha.
  2:{ unfold row_inv_unlimited. cbn [fst snd]. fold len. fold base.
      split; [|split].
      - intros j k Hj Hk Aj Cjk. destruct (Z.eq_dec j J) as [->|Hne]; [congruence|].
        apply S; try assumption; lia.
      - rewrite count_alive_succ by lia. fold len. fold base. rewrite Ha. lia.
      - intros Hret j Hj Aj. destruct (Z.eq_dec j J) as [->|Hne]; [congruence|].
        apply B; try assumption; lia. }
  assert (P1 : forall p, (forall k f, J < k < nkeep -> 0 <= f < len ->
                            p <> base + k * len + f) ->
            fst (fst (nms_inner_loop c sorted_index indices i nkeep J (o, b, l))) p = o p).
  { intros p Hp. apply nms_inner_loop_frame; try assumption; lia. }
  assert (P2 := fun k f => nms_inner_loop_candidate c sorted_index indices i nkeep J
                             o b l k f Hmt Hrec).
  fold len in P2. fold base in P2.
  unfold row_inv_unlimited. fold len. fold base.
  rewrite nms_inner_loop_indices, nms_inner_loop_count.
  set (o' := fst (fst (nms_inner_loop c sorted_index indices i nkeep J (o, b, l)))) in *.
  cbn [fst snd].
  assert (Hrec' := Hrec). destruct Hrec' as [Hs [Hid [Hc0 Hc3]]]. fold len in Hs, Hid, Hc3.
  assert (Low : forall k f, 0 <= k <= J -> 0 <= f < len ->
            o' (base + k * len + f) = o (base + k * len + f)).
  { intros k f Hk Hf. apply P1. intros k' f' Hk' Hf' E.
    assert (E' : k * len + f = k' * len + f') by lia.
    destruct (row_index_inj len _ _ f f' Hf Hf' E'). lia. }
  (* a later candidate that still has a positive score was not invalidated *)
  assert (High : forall k, J < k < nkeep ->
            Qgtb (o' (base + k * len + score_index c)) 0 = true ->
            (candidate_compared c o base J k
             && Qgeb (candidate_iou c o base J k) (iou_threshold c) = false) /\
            forall f, 0 <= f < len -> o' (base + k * len + f) = o (base + k * len + f)).
  { intros k Hk Hpos.
    destruct (candidate_compared c o base J k
              && Qgeb (candidate_iou c o base J k) (iou_threshold c)) eqn:Ecmp.
    - exfalso. rewrite P2 in Hpos by (try assumption; lia). rewrite Ecmp in Hpos.
      rewrite Z.eqb_refl, orb_true_r in Hpos. discriminate.
    - split; [reflexivity|]. intros f Hf. rewrite P2 by (try assumption; lia).
      now rewrite Ecmp. }
  assert (Hcount : forall j, 0 <= j <= J + 1 ->
            count_alive c o' base j = count_alive c o base j).
  { intros j Hj. apply count_alive_ext. fold len. intros k Hk. apply Low; lia. }
  assert (HlJ : 0 <= l <= J).
  { rewrite C. unfold count_alive. apply count_valid_bounds. lia. }
  split; [|split].
  - intros j k Hj Hk Aj Cjk.
    assert (Hposk : Qgtb (o' (base + k * len + score_index c)) 0 = true).
    { unfold candidate_compared in Cjk. fold len in Cjk.
      apply andb_true_iff in Cjk. apply Cjk. }
    assert (Samek : forall f, 0 <= f < len ->
              o' (base + k * len + f) = o (base + k * len + f)).
    { destruct (Z_le_gt_dec k J) as [Hle|Hgt].
      - intros f Hf. apply Low; lia.
      - apply High; [lia|exact Hposk]. }
    destruct (candidate_agree c o' o base j k Hrec) as [E1 E2].
    { exact Samek. }
    { intros f Hf. apply Low; lia. }
    fold len in E1, E2. rewrite E1 in Cjk. rewrite E2.
    rewrite Low in Aj by lia.
    destruct (Z.eq_dec j J) as [->|Hne].
    + destruct (High k ltac:(lia) Hposk) as [Ecmp _].
      rewrite Cjk in Ecmp. exact Ecmp.
    + apply S; try assumption; lia.
  - rewrite Hcount by lia. unfold add32. rewrite wrap32_small by lia.
    rewrite count_alive_succ by lia. fold len. rewrite Ha. lia.
  - intros Hret j Hj Aj. rewrite Hret.
    rewrite Low in Aj by lia. rewrite Hcount by lia.
    destruct (Z.eq_dec j J) as [->|Hne].
    + rewrite <- C. apply store_eq.
    + rewrite store_neq.
      * apply B; try assumption; lia.
      * pose proof (count_alive_lt c o base j J ltac:(lia) Aj). lia.
Qed.

Lemma row_inv_unlimited_final c sorted_index indices i nkeep out bi :
  0 < max_threads c -> record_ok c -> max_output_size c <= 0 -> 0 <= nkeep < 2 ^ 31 ->
  row_inv_unlimited c sorted_index indices i nkeep nkeep
    (for_range 0 nkeep (nms_outer_step c sorted_index indices i nkeep) (out, bi, 0)).
Proof.
  intros Hmt Hrec Hmos Hnk.
  apply (for_range_ind (row_inv_unlimited c sorted_index indices i nkeep)); [lia| |].
  - unfold row_inv_unlimited. cbn [fst snd].
    split; [intros; lia|]. split; [reflexivity|intros; lia].
  - intros J s HJ IH. apply row_inv_unlimited_step; try assumption; lia.
Qed.

(** *** From a row's loop to the whole of [nms_ir] *)

(** Two pairs of buffers agree on the part that belongs to row [i]. *)
Definition row_agree (c : nms_config) (i : Z) (x y : buf Q * buf Z) : Prop :=
  (forall j f, 0 <= j < num_anchors c -> 0 <= f < box_data_length c ->
     fst x (i * num_anchors c * box_data_length c + j * box_data_length c + f)
     = fst y (i * num_anchors c * box_data_length c + j * box_data_length c + f)) /\
  (forall j, 0 <= j < num_anchors c ->
     snd x (i * num_anchors c + j) = snd y (i * num_anchors c + j)).

Lemma row_agree_refl c i x : row_agree c i x x.
Proof. split; reflexivity. Qed.

Lemma row_agree_trans c i x y z :
  row_agree c i x y -> row_agree c i y z -> row_agree c i x z.
Proof.
  intros [A1 A2] [B1 B2]. split.
  - intros j f Hj Hf. rewrite A1 by assumption. now apply B1.
  - intros j Hj. rewrite A2 by assumption. now apply B2.
Qed.

Lemma row_agree_sym c i x y : row_agree c i x y -> row_agree c i y x.
Proof.
  intros [A B]. split.
  - intros j f Hj Hf. symmetry. now apply A.
  - intros j Hj. symmetry. now apply B.
Qed.

Lemma nms_row_enabled c sorted_index valid_count indices i out bi nvb :
  suppression_enabled c valid_count i = true ->
  nms_row c sorted_index valid_count indices i (out, bi, nvb)
  = (fst (for_range 0 (nkeep_of c valid_count i)
            (nms_outer_step c sorted_index indices i (nkeep_of c valid_count i))
            (out, bi, 0)),
     store nvb i
       (snd (for_range 0 (nkeep_of c valid_count i)
               (nms_outer_step c sorted_index indices i (nkeep_of c valid_count i))
               (out, bi, 0)))).
Proof.
  intros He. unfold nms_row. rewrite He.
  destruct (for_range 0 _ _ _) as [[o b] l]. reflexivity.
Qed.

Lemma enabled_nkeep_pos c valid_count i :
  suppression_enabled c valid_count i = true -> 0 < nkeep_of c valid_count i.
Proof.
  unfold suppression_enabled, nkeep_of. intros H.
  apply andb_true_iff in H. destruct H as [_ H]. apply Z.gtb_lt in H.
  destruct (top_k c >? 0) eqn:E; cbn [andb]; [|lia].
  apply Z.gtb_lt in E. destruct (top_k c <? valid_count i); lia.
Qed.

(** The thread block of a row writes [out] only inside the boxes
    [1 .. nkeep-1] of the row and [box_indices] only in the first [nkeep]
    slots of the row. *)
Lemma nms_row_frame c sorted_index valid_count indices i out bi nvb :
  0 < max_threads c -> record_ok c -> nkeep_of c valid_count i < 2 ^ 31 ->
  (forall p, (forall k f, 0 < k < nkeep_of c valid_count i -> 0 <= f < box_data_length c ->
                p <> i * num_anchors c * box_data_length c + k * box_data_length c + f) ->
     fst (fst (nms_row c sorted_index valid_count indices i (out, bi, nvb))) p = out p) /\
  (forall q, (forall c', 0 <= c' < nkeep_of c valid_count i -> q <> i * num_anchors c + c') ->
     snd (fst (nms_row c sorted_index valid_count indices i (out, bi, nvb))) q = bi q).
Proof.
  intros Hmt Hrec Hnk.
  destruct (suppression_enabled c valid_count i) eqn:He.
  - rewrite nms_row_enabled by assumption. cbn [fst snd].
    pose proof (enabled_nkeep_pos c valid_count i He) as Hpos.
    destruct (row_inv_final c sorted_index indices i (nkeep_of c valid_count i) out bi
                Hmt Hrec ltac:(lia)) as [F [_ [L B]]].
    split.
    + intros p Hp. apply F. exact Hp.
    + intros q Hq. apply B. intros c' Hc'. apply Hq. lia.
  - rewrite nms_row_skip by assumption. cbn [fst snd]. split; reflexivity.
Qed.

(** The thread block of another row leaves row [i] alone. *)
Lemma nms_row_other c sorted_index valid_count indices i i' s :
  0 < max_threads c -> record_ok c -> num_anchors c < 2 ^ 31 ->
  valid_count i' <= num_anchors c -> i' <> i ->
  row_agree c i (fst (nms_row c sorted_index valid_count indices i' s)) (fst s).
Proof.
  intros Hmt Hrec Hn Hvc Hne. destruct s as [[o b] nvb].
  pose proof (nkeep_of_le c valid_count i') as Hle.
  destruct (nms_row_frame c sorted_index valid_count indices i' o b nvb Hmt Hrec
              ltac:(lia)) as [F B].
  cbn [fst snd]. split.
  - intros j f Hj Hf. apply F. intros k f' Hk Hf' E.
    rewrite !record_pos in E.
    destruct (row_index_inj (box_data_length c) _ _ f f' Hf Hf' E) as [E' _].
    destruct (row_index_inj (num_anchors c) i i' j k Hj ltac:(lia) E'). congruence.
  - intros j Hj. apply B. intros c' Hc' E.
    destruct (row_index_inj (num_anchors c) i i' j c' Hj ltac:(lia) E). congruence.
Qed.

Lemma nms_ir_rows c data sorted_index valid_count indices out bi nvb :
  nms_ir c data sorted_index valid_count indices out bi nvb
  = for_range 0 (batch_size c) (nms_row c sorted_index valid_count indices)
      (launch (batch_size c) (ceil_div (num_anchors c) (max_threads c)) (max_threads c)
         (reorder_thread c data sorted_index valid_count) (out, bi), nvb).
Proof.
  unfold nms_ir. destruct (launch _ _ _ _ _) as [o b]. reflexivity.
Qed.

(** The part of the result of [nms_ir] that belongs to row [i] is what the
    row's thread block leaves, run from buffers that agree on the row with
    those the first launch leaves. *)
Lemma nms_ir_row_focus c data sorted_index valid_count indices out bi nvb i :
  0 < max_threads c -> record_ok c -> num_anchors c < 2 ^ 31 ->
  (forall i', 0 <= i' < batch_size c -> valid_count i' <= num_anchors c) ->
  0 <= i < batch_size c ->
  exists s_in,
    row_agree c i (fst s_in)
      (launch (batch_size c) (ceil_div (num_anchors c) (max_threads c)) (max_threads c)
         (reorder_thread c data sorted_index valid_count) (out, bi)) /\
    row_agree c i (fst (nms_row c sorted_index valid_count indices i s_in))
      (fst (nms_ir c data sorted_index valid_count indices out bi nvb)) /\
    snd (nms_row c sorted_index valid_count indices i s_in) i
    = snd (nms_ir c data sorted_index valid_count indices out bi nvb) i.
Proof.
  intros Hmt Hrec Hn Hvc Hi. rewrite nms_ir_rows.
  set (A := launch _ _ _ _ _).
  destruct (for_range_focus
              (fun s : buf Q * buf Z * buf Z => row_agree c i (fst s) A)
              (fun x s' : buf Q * buf Z * buf Z =>
                 row_agree c i (fst x) (fst s') /\ snd x i = snd s' i)
              0 (batch_size c) (nms_row c sorted_index valid_count indices) i (A, nvb) Hi)
    as [s_in [Pre Ag]].
  - cbn [fst]. apply row_agree_refl.
  - intros t' s' Ht' P. eapply row_agree_trans; [|exact P].
    apply nms_row_other; try assumption; [apply Hvc|]; lia.
  - intros x. split; [apply row_agree_refl|reflexivity].
  - intros t' x s' Ht' [P1 P2]. split.
    + eapply row_agree_trans; [exact P1|].
      split.
      * intros j f Hj Hf. symmetry.
        apply (nms_row_other c sorted_index valid_count indices i t' s'); try assumption;
          [apply Hvc|]; lia.
      * intros j Hj. symmetry.
        apply (nms_row_other c sorted_index valid_count indices i t' s'); try assumption;
          [apply Hvc|]; lia.
    + rewrite P2. symmetry. apply nms_row_count_other. lia.
  - exists s_in. split; [exact Pre|]. exact Ag.
Qed.

(** For a row on the suppression path, that is the result of the row's
    [j] loop. *)
Lemma nms_ir_row_loop c data sorted_index valid_count indices out bi nvb i :
  0 < max_threads c -> record_ok c -> num_anchors c < 2 ^ 31 ->
  (forall i', 0 <= i' < batch_size c -> valid_count i' <= num_anchors c) ->
  0 <= i < batch_size c ->
  suppression_enabled c valid_count i = true ->
  exists o_in b_in,
    row_agree c i (o_in, b_in)
      (launch (batch_size c) (ceil_div (num_anchors c) (max_threads c)) (max_threads c)
         (reorder_thread c data sorted_index valid_count) (out, bi)) /\
    row_agree c i
      (fst (for_range 0 (nkeep_of c valid_count i)
              (nms_outer_step c sorted_index indices i (nkeep_of c valid_count i))
              (o_in, b_in, 0)))
      (fst (nms_ir c data sorted_index valid_count indices out bi nvb)) /\
    snd (for_range 0 (nkeep_of c valid_count i)
           (nms_outer_step c sorted_index indices i (nkeep_of c valid_count i))
           (o_in, b_in, 0))
    = snd (nms_ir c data sorted_index valid_count indices out bi nvb) i.
Proof.
  intros Hmt Hrec Hn Hvc Hi He.
  destruct (nms_ir_row_focus c data sorted_index valid_count indices out bi nvb i
              Hmt Hrec Hn Hvc Hi) as ([[o_in b_in] nvb_in] & Pre & Ag1 & Ag2).
  cbn [fst] in Pre.
  rewrite nms_row_enabled in Ag1, Ag2 by assumption. cbn [fst snd] in Ag1, Ag2.
  rewrite store_eq in Ag2.
  exists o_in, b_in. split; [exact Pre|]. split; [exact Ag1|exact Ag2].
Qed.

(** For a row on the skip path, the first launch's buffers are final. *)
Lemma nms_ir_row_skipped c data sorted_index valid_count indices out bi nvb i :
  0 < max_threads c -> record_ok c -> num_anchors c < 2 ^ 31 ->
  (forall i', 0 <= i' < batch_size c -> valid_count i' <= num_anchors c) ->
  0 <= i < batch_size c ->
  suppression_enabled c valid_count i = false ->
  row_agree c i
    (launch (batch_size c) (ceil_div (num_anchors c) (max_threads c)) (max_threads c)
       (reorder_thread c data sorted_index valid_count) (out, bi))
    (fst (nms_ir c data sorted_index valid_count indices out bi nvb)).
Proof.
  intros Hmt Hrec Hn Hvc Hi He.
  destruct (nms_ir_row_focus c data sorted_index valid_count indices out bi nvb i
              Hmt Hrec Hn Hvc Hi) as ([[o_in b_in] nvb_in] & Pre & Ag1 & _).
  cbn [fst] in Pre.
  rewrite nms_row_skip in Ag1 by assumption. cbn [fst] in Ag1.
  eapply row_agree_trans; [|exact Ag1]. apply row_agree_sym. exact Pre.
Qed.

(** With [return_indices] off the [j] loop never writes [box_indices]. *)
Lemma row_loop_no_indices c sorted_index indices i nkeep out bi :
  return_indices c = false -> 0 <= nkeep ->
  snd (fst (for_range 0 nkeep (nms_outer_step c sorted_index indices i nkeep)
              (out, bi, 0))) = bi.
Proof.
  intros Hret Hnk.
  apply (for_range_ind (fun (_ : Z) (s : row_state) => snd (fst s) = bi)); [lia|reflexivity|].
  intros J [[o b] l] HJ IH. cbn [fst snd] in IH.
  destruct (nms_outer_step_cases c sorted_index indices i nkeep J o b l) as [E|[_ E]];
    rewrite E; [exact IH|].
  rewrite nms_inner_loop_indices, Hret. exact IH.
Qed.

(** Five boxes of one class in descending score order; the second overlaps
    the first with IoU 7/10, the others are apart. *)
Definition five_boxes : buf Q :=
  buffer_of 0%Q [0; 9 # 10; 0; 0; 10; 10;
                 0; 8 # 10; 0; 0; 10; 7;
                 0; 3 # 4; 20; 0; 30; 10;
                 0; 6 # 10; 40; 0; 50; 10;
                 0; 1 # 2; 60; 0; 70; 10]%Q.

Definition five_boxes_config : nms_config :=
  mkConfig 1 5 6 4 (-1) (1 # 2) false (-1) 2 0 1 true.

Ltac by_evaluation :=
  vm_compute; repeat split; intros; try discriminate; reflexivity.

(** X10: The output is a fixed point of the suppression.  With
    [max_output_size <= 0], in a row that takes the suppression path, the
    pass of the inner loop for any box [j] of the output that is still valid
    (score [> -1]), run again on the final [out], changes no entry of [out]:
    no comparison the kernel makes between a kept box and a later box would
    invalidate anything more. *)
Theorem nms_ir_suppression_fixed_point c data sorted_index valid_count indices out bi nvb
    i j (b : buf Z) (l p : Z) :
  0 < max_threads c -> record_ok c -> num_anchors c < 2 ^ 31 ->
  (forall i', 0 <= i' < batch_size c -> valid_count i' <= num_anchors c) ->
  max_output_size c <= 0 ->
  0 <= i < batch_size c -> suppression_enabled c valid_count i = true ->
  0 <= j < nkeep_of c valid_count i ->
  let o := fst (fst (nms_ir c data sorted_index valid_count indices out bi nvb)) in
  Qlt minus_one (o (i * num_anchors c * box_data_length c + j * box_data_length c
                    + score_index c)) ->
  fst (fst (nms_inner_loop c sorted_index indices i (nkeep_of c valid_count i) j (o, b, l))) p
  = o p.
Proof.
  intros Hmt Hrec Hn Hvc Hmos Hi He Hj o Aj.
  destruct (nms_ir_row_loop c data sorted_index valid_count indices out bi nvb i
              Hmt Hrec Hn Hvc Hi He) as (o_in & b_in & _ & [Ag _] & _).
  pose proof (nkeep_of_le c valid_count i) as Hle. pose proof (Hvc i Hi) as Hvi.
  destruct (row_inv_unlimited_final c sorted_index indices i (nkeep_of c valid_count i)
              o_in b_in Hmt Hrec Hmos ltac:(lia)) as [S _].
  fold o in Ag.
  set (len := box_data_length c) in *.
  set (base := i * num_anchors c * len) in *.
  set (nkeep := nkeep_of c valid_count i) in *.
  set (L := for_range 0 _ _ _) in *.
  assert (Hs : 0 <= score_index c < len) by apply Hrec.
  pose proof (Z.div_mod (p - base) len ltac:(lia)) as E.
  pose proof (Z.mod_pos_bound (p - base) len ltac:(lia)) as Hf.
  set (k := (p - base) / len) in *. set (f := (p - base) mod len) in *.
  destruct (Z_lt_dec j k) as [Hjk|Hjk]; [destruct (Z_lt_dec k nkeep) as [Hkn|Hkn]|].
  - replace p with (base + k * len + f) by lia.
    unfold base, len. rewrite nms_inner_loop_candidate by (try assumption; lia).
    fold len. fold base.
    destruct (candidate_compared c o base j k) eqn:Cjk; [|reflexivity].
    destruct (candidate_agree c (fst (fst L)) o base j k Hrec) as [E1 E2].
    { intros f' Hf'. apply Ag; lia. }
    { intros f' Hf'. apply Ag; lia. }
    rewrite <- E2. rewrite S; [reflexivity|lia|lia| |].
    + fold len. rewrite Ag by lia. apply Qgtb_true. exact Aj.
    + rewrite E1. exact Cjk.
  - apply nms_inner_loop_frame; try assumption; [lia|].
    fold len. fold base. intros k' f' Hk' Hf' C.
    assert (C' : k * len + f = k' * len + f') by lia.
    destruct (row_index_inj len _ _ f f' Hf Hf' C'). lia.
  - apply nms_inner_loop_frame; try assumption; [lia|].
    fold len. fold base. intros k' f' Hk' Hf' C.
    assert (C' : k * len + f = k' * len + f') by lia.
    destruct (row_index_inj len _ _ f f' Hf Hf' C'). lia.
Qed.

Lemma nms_ir_suppression_fixed_point_witness :
  fst (fst (nms_inner_loop five_boxes_config (fun k => k) (fun k => k) 0
              (nkeep_of five_boxes_config (fun _ => 5) 0) 0
              (fst (fst (nms_ir five_boxes_config five_boxes (fun k => k) (fun _ => 5)
                           (fun k => k) (fun _ => 0%Q) (fun _ => 0) (fun _ => 0))),
               (fun _ => 0), 0)))
    (0 * 5 * 6 + 2 * 6 + 1)
  = fst (fst (nms_ir five_boxes_config five_boxes (fun k => k) (fun _ => 5)
                (fun k => k) (fun _ => 0%Q) (fun _ => 0) (fun _ => 0)))
      (0 * 5 * 6 + 2 * 6 + 1).
Proof.
  refine (nms_ir_suppression_fixed_point five_boxes_config five_boxes (fun k => k)
            (fun _ => 5) (fun k => k) (fun _ => 0%Q) (fun _ => 0) (fun _ => 0)
            0 0 (fun _ => 0) 0 (0 * 5 * 6 + 2 * 6 + 1)
            _ _ _ _ _ _ _ _ _); by_evaluation.
Defined.

(** X11: The count of a suppressed row.  With [max_output_size <= 0], the
    value written to [num_valid_boxes[i]] on the suppression path is the
    number of boxes among the first [nkeep] of the row whose score in the
    output is [> -1]. *)
Theorem nms_ir_count_alive c data sorted_index valid_count indices out bi nvb i :
  0 < max_threads c -> record_ok c -> num_anchors c < 2 ^ 31 ->
  (forall i', 0 <= i' < batch_size c -> valid_count i' <= num_anchors c) ->
  max_output_size c <= 0 ->
  0 <= i < batch_size c -> suppression_enabled c valid_count i = true ->
  snd (nms_ir c data sorted_index valid_count indices out bi nvb) i
  = count_alive c (fst (fst (nms_ir c data sorted_index valid_count indices out bi nvb)))
      (i * num_anchors c * box_data_length c) (nkeep_of c valid_count i).
Proof.
  intros Hmt Hrec Hn Hvc Hmos Hi He.
  destruct (nms_ir_row_loop c data sorted_index valid_count indices out bi nvb i
              Hmt Hrec Hn Hvc Hi He) as (o_in & b_in & _ & [Ag _] & Cnt).
  pose proof (nkeep_of_le c valid_count i) as Hle. pose proof (Hvc i Hi) as Hvi.
  pose proof (enabled_nkeep_pos c valid_count i He) as Hpos.
  destruct (row_inv_unlimited_final c sorted_index indices i (nkeep_of c valid_count i)
              o_in b_in Hmt Hrec Hmos ltac:(lia)) as [_ [C _]].
  rewrite <- Cnt, C. apply count_alive_ext.
  intros k Hk. destruct Hrec as [Hs _]. apply Ag; lia.
Qed.

Lemma nms_ir_count_alive_witness :
  snd (nms_ir five_boxes_config five_boxes (fun k => k) (fun _ => 5)
         (fun k => k) (fun _ => 0%Q) (fun _ => 0) (fun _ => 0)) 0
  = count_alive five_boxes_config
      (fst (fst (nms_ir five_boxes_config five_boxes (fun k => k) (fun _ => 5)
                   (fun k => k) (fun _ => 0%Q) (fun _ => 0) (fun _ => 0))))
      (0 * 5 * 6) 5.
Proof.
  refine (nms_ir_count_alive five_boxes_config five_boxes (fun k => k) (fun _ => 5)
            (fun k => k) (fun _ => 0%Q) (fun _ => 0) (fun _ => 0) 0
            _ _ _ _ _ _ _); by_evaluation.
Defined.

(** X12: What the suppression path leaves in [out].  In a row that takes
    the suppression path, whatever [max_output_size] is: the top box is the
    box [sorted_index] puts first, unchanged; each other box among the first
    [nkeep] is either the sorted box in every field, or has its score (and
    its class id, when [id_index >= 0]) set to [-1] and every other field as
    in the sorted box; every box from [nkeep] on is [-1] in every field. *)
Theorem nms_ir_marks c data sorted_index valid_count indices out bi nvb i :
  0 < max_threads c -> record_ok c -> num_anchors c < 2 ^ 31 ->
  (forall i', 0 <= i' < batch_size c -> valid_count i' <= num_anchors c) ->
  0 <= i < batch_size c -> suppression_enabled c valid_count i = true ->
  let o := fst (fst (nms_ir c data sorted_index valid_count indices out bi nvb)) in
  let len := box_data_length c in
  let base := i * num_anchors c * len in
  let sorted k f := data (base + sorted_index (i * num_anchors c + k) * len + f) in
  (forall f, 0 <= f < len -> o (base + 0 * len + f) = sorted 0 f) /\
  (forall k, 0 < k < nkeep_of c valid_count i ->
     (forall f, 0 <= f < len -> o (base + k * len + f) = sorted k f) \/
     (o (base + k * len + score_index c) = minus_one /\
      (0 <= id_index c -> o (base + k * len + id_index c) = minus_one) /\
      (forall f, 0 <= f < len -> f <> score_index c -> f <> id_index c ->
         o (base + k * len + f) = sorted k f))) /\
  (forall k f, nkeep_of c valid_count i <= k < num_anchors c -> 0 <= f < len ->
     o (base + k * len + f) = minus_one).
Proof.
  intros Hmt Hrec Hn Hvc Hi He o len base sorted.
  destruct (nms_ir_row_loop c data sorted_index valid_count indices out bi nvb i
              Hmt Hrec Hn Hvc Hi He) as (o_in & b_in & [Pre _] & [Ag _] & _).
  pose proof (nkeep_of_le c valid_count i) as Hle. pose proof (Hvc i Hi) as Hvi.
  pose proof (enabled_nkeep_pos c valid_count i He) as Hpos.
  destruct (reorder_spec c data sorted_index valid_count out bi i Hmt ltac:(lia) Hvc Hi)
    as [Ro _].
  rewrite He in Ro. cbn [fst] in Pre.
  destruct (row_inv_final c sorted_index indices i (nkeep_of c valid_count i) o_in b_in
              Hmt Hrec ltac:(lia)) as [F [M _]].
  fold o in Ag. fold len in Ag, Pre, Ro, F, M. fold base in Ag, Pre, Ro, F, M.
  set (L := for_range 0 _ _ _) in *.
  set (nkeep := nkeep_of c valid_count i) in *.
  assert (Hrec' := Hrec). destruct Hrec' as [Hs [Hid _]]. fold len in Hs, Hid.
  (* the reordered buffer, box by box *)
  assert (In : forall k f, 0 <= k < nkeep -> 0 <= f < len ->
            o_in (base + k * len + f) = sorted k f).
  { intros k f Hk Hf. rewrite Pre, Ro by lia.
    replace (k <? nkeep) with true by (symmetry; apply Z.ltb_lt; lia). reflexivity. }
  (* a box the loop does not touch *)
  assert (Out : forall k f, 0 <= k < num_anchors c -> ~ 0 < k < nkeep -> 0 <= f < len ->
            o (base + k * len + f) = o_in (base + k * len + f)).
  { intros k f Hk Hnot Hf. rewrite <- Ag by lia. apply F.
    intros k' f' Hk' Hf' E.
    assert (E' : k * len + f = k' * len + f') by lia.
    destruct (row_index_inj len _ _ f f' Hf Hf' E'). lia. }
  split; [|split].
  - intros f Hf. rewrite Out by lia. apply In; lia.
  - intros k Hk. destruct (M k Hk) as [K|[I1 [I2 I3]]].
    + left. intros f Hf. rewrite <- Ag by lia. rewrite K by exact Hf. apply In; lia.
    + right. split; [|split].
      * rewrite <- Ag by lia. exact I1.
      * intros H0. rewrite <- Ag by lia. apply I2. exact H0.
      * intros f Hf N1 N2. rewrite <- Ag by lia. rewrite I3 by assumption. apply In; lia.
  - intros k f Hk Hf. rewrite Out by lia. rewrite Pre, Ro by lia.
    replace (k <? nkeep) with false by (symmetry; apply Z.ltb_ge; lia). reflexivity.
Qed.

Lemma nms_ir_marks_witness :
  fst (fst (nms_ir (mkConfig 1 5 6 4 (-1) (1 # 2) false 4 2 0 1 true) five_boxes
              (fun k => k) (fun _ => 5) (fun k => k)
              (fun _ => 0%Q) (fun _ => 0) (fun _ => 0)))
    (0 * 5 * 6 + 4 * 6 + 1)
  = minus_one.
Proof.
  refine (proj2 (proj2 (nms_ir_marks (mkConfig 1 5 6 4 (-1) (1 # 2) false 4 2 0 1 true)
                          five_boxes (fun k => k) (fun _ => 5) (fun k => k)
                          (fun _ => 0%Q) (fun _ => 0) (fun _ => 0) 0
                          _ _ _ _ _ _)) 4 1 _ _); by_evaluation.
Defined.

(** X13: The tail of [box_indices].  In a row that takes the suppression
    path, whatever [max_output_size] is, the count written to
    [num_valid_boxes[i]] lies between [0] and [nkeep], every slot of the
    row's [box_indices] from that count on is [-1], and with
    [return_indices] off every slot of the row is [-1]. *)
Theorem nms_ir_box_indices_padding c data sorted_index valid_count indices out bi nvb i :
  0 < max_threads c -> record_ok c -> num_anchors c < 2 ^ 31 ->
  (forall i', 0 <= i' < batch_size c -> valid_count i' <= num_anchors c) ->
  0 <= i < batch_size c -> suppression_enabled c valid_count i = true ->
  let r := nms_ir c data sorted_index valid_count indices out bi nvb in
  0 <= snd r i <= nkeep_of c valid_count i /\
  (forall q, snd r i <= q < num_anchors c -> snd (fst r) (i * num_anchors c + q) = -1) /\
  (return_indices c = false ->
   forall q, 0 <= q < num_anchors c -> snd (fst r) (i * num_anchors c + q) = -1).
Proof.
  intros Hmt Hrec Hn Hvc Hi He r.
  destruct (nms_ir_row_loop c data sorted_index valid_count indices out bi nvb i
              Hmt Hrec Hn Hvc Hi He) as (o_in & b_in & [_ Pre] & [_ Ag] & Cnt).
  pose proof (nkeep_of_le c valid_count i) as Hle. pose proof (Hvc i Hi) as Hvi.
  pose proof (enabled_nkeep_pos c valid_count i He) as Hpos.
  destruct (reorder_spec c data sorted_index valid_count out bi i Hmt ltac:(lia) Hvc Hi)
    as [_ Rb].
  rewrite He in Rb. cbn [snd] in Pre.
  destruct (row_inv_final c sorted_index indices i (nkeep_of c valid_count i) o_in b_in
              Hmt Hrec ltac:(lia)) as [_ [_ [Lc B]]].
  fold r in Ag, Cnt.
  pose proof (row_loop_no_indices c sorted_index indices i (nkeep_of c valid_count i)
                o_in b_in) as NI.
  set (L := for_range 0 _ _ _) in *.
  rewrite Cnt in Lc, B.
  split; [exact Lc|]. split.
  - intros q Hq. rewrite <- Ag by lia. rewrite B.
    + rewrite Pre by lia. apply Rb. lia.
    + intros c' Hc'. lia.
  - intros Hret q Hq. rewrite <- Ag by lia. rewrite NI by (try assumption; lia).
    rewrite Pre by lia. apply Rb. lia.
Qed.

Lemma nms_ir_box_indices_padding_witness :
  snd (fst (nms_ir five_boxes_config five_boxes (fun k => k) (fun _ => 5)
              (fun k => k) (fun _ => 0%Q) (fun _ => 0) (fun _ => 0)))
    (0 * 5 + 4)
  = -1.
Proof.
  refine (proj1 (proj2 (nms_ir_box_indices_padding five_boxes_config five_boxes
                          (fun k => k) (fun _ => 5) (fun k => k)
                          (fun _ => 0%Q) (fun _ => 0) (fun _ => 0) 0
                          _ _ _ _ _ _)) 4 _); by_evaluation.
Defined.

(** X14: The kept boxes in [box_indices].  With [max_output_size <= 0] and
    [return_indices] on, in a row that takes the suppression path, a box [j]
    among the first [nkeep] whose score in the output is [> -1] has its
    original index [indices[i, sorted_index[i, j]]] in the slot given by the
    number of such boxes before it. *)
Theorem nms_ir_box_indices_kept c data sorted_index valid_count indices out bi nvb i j :
  0 < max_threads c -> record_ok c -> num_anchors c < 2 ^ 31 ->
  (forall i', 0 <= i' < batch_size c -> valid_count i' <= num_anchors c) ->
  max_output_size c <= 0 -> return_indices c = true ->
  0 <= i < batch_size c -> suppression_enabled c valid_count i = true ->
  0 <= j < nkeep_of c valid_count i ->
  let r := nms_ir c data sorted_index valid_count indices out bi nvb in
  let base := i * num_anchors c * box_data_length c in
  Qlt minus_one (fst (fst r) (base + j * box_data_length c + score_index c)) ->
  snd (fst r) (i * num_anchors c + count_alive c (fst (fst r)) base j)
  = indices (i * num_anchors c + sorted_index (i * num_anchors c + j)).
Proof.
  intros Hmt Hrec Hn Hvc Hmos Hret Hi He Hj r base Aj.
  destruct (nms_ir_row_loop c data sorted_index valid_count indices out bi nvb i
              Hmt Hrec Hn Hvc Hi He) as (o_in & b_in & _ & [Ag Agb] & _).
  pose proof (nkeep_of_le c valid_count i) as Hle. pose proof (Hvc i Hi) as Hvi.
  destruct (row_inv_unlimited_final c sorted_index indices i (nkeep_of c valid_count i)
              o_in b_in Hmt Hrec Hmos ltac:(lia)) as [_ [_ B]].
  fold r in Ag, Agb. fold base in Ag, B.
  set (L := for_range 0 _ _ _) in *.
  assert (Hrec' := Hrec). destruct Hrec' as [Hs _].
  assert (Ec : count_alive c (fst (fst L)) base j = count_alive c (fst (fst r)) base j).
  { apply count_alive_ext. intros k Hk. apply Ag; lia. }
  pose proof (count_valid_bounds
                (fun k => if Qgtb (fst (fst r) (base + k * box_data_length c + score_index c))
                               minus_one then 1 else 0) j ltac:(lia)) as Hb.
  fold (count_alive c (fst (fst r)) base j) in Hb.
  rewrite <- Agb by lia. rewrite <- Ec. apply B; [exact Hret|lia|].
  rewrite Ag by lia. apply Qgtb_true. exact Aj.
Qed.

Lemma nms_ir_box_indices_kept_witness :
  snd (fst (nms_ir five_boxes_config five_boxes (fun k => k) (fun _ => 5)
              (fun k => k) (fun _ => 0%Q) (fun _ => 0) (fun _ => 0)))
    (0 * 5
     + count_alive five_boxes_config
         (fst (fst (nms_ir five_boxes_config five_boxes (fun k => k) (fun _ => 5)
                      (fun k => k) (fun _ => 0%Q) (fun _ => 0) (fun _ => 0))))
         (0 * 5 * 6) 2)
  = (fun k => k) (0 * 5 + (fun k => k) (0 * 5 + 2)).
Proof.
  refine (nms_ir_box_indices_kept five_boxes_config five_boxes (fun k => k) (fun _ => 5)
            (fun k => k) (fun _ => 0%Q) (fun _ => 0) (fun _ => 0) 0 2
            _ _ _ _ _ _ _ _ _ _); by_evaluation.
Defined.

(** *** The cap [max_output_size] against the run without it *)

Lemma for_range_rel {A B} (R : Z -> A -> B -> Prop) lo hi
    (f : Z -> A -> A) (g : Z -> B -> B) a b :
  lo <= hi -> R lo a b ->
  (forall i a' b', lo <= i < hi -> R i a' b' -> R (i + 1) (f i a') (g i b')) ->
  R hi (for_range lo hi f a) (for_range lo hi g b).
Proof.
  intros Hle H0 Hstep.
  pose proof (for_range_ind (fun i (p : A * B) => R i (fst p) (snd p)) lo hi
                (fun i p => (f i (fst p), g i (snd p))) (a, b) Hle H0) as G.
  rewrite (for_range_pair lo hi f g) in G by reflexivity.
  apply G. intros i [a' b'] Hi IH. apply Hstep; assumption.
Qed.

Definition with_max_output_size (c : nms_config) (m : Z) : nms_config :=
  mkConfig (batch_size c) (num_anchors c) (box_data_length c) (max_threads c)
    m (iou_threshold c) (force_suppress c) (top_k c) (coord_start c)
    (id_index c) (score_index c) (return_indices c).

(** [nms_inner_loop] does not read [max_output_size]. *)
Lemma nms_inner_loop_cap_free c m sorted_index indices i nkeep j s :
  nms_inner_loop (with_max_output_size c m) sorted_index indices i nkeep j s
  = nms_inner_loop c sorted_index indices i nkeep j s.
Proof. reflexivity. Qed.

(** Below the cap an iteration is the iteration of the loop without cap. *)
Lemma nms_outer_step_below c sorted_index indices i nkeep j o b l :
  l < max_output_size c ->
  nms_outer_step c sorted_index indices i nkeep j (o, b, l)
  = nms_outer_step (with_max_output_size c 0) sorted_index indices i nkeep j (o, b, l).
Proof.
  intros Hl. rewrite (nms_outer_step_unlimited (with_max_output_size c 0)) by (cbn; lia).
  unfold nms_outer_step.
  change (box_data_length (with_max_output_size c 0)) with (box_data_length c).
  change (num_anchors (with_max_output_size c 0)) with (num_anchors c).
  change (score_index (with_max_output_size c 0)) with (score_index c).
  destruct (Qgtb _ minus_one); [|reflexivity].
  replace (l <? max_output_size c) with true by (symmetry; apply Z.ltb_lt; lia).
  destruct (max_output_size c >? 0); reflexivity.
Qed.

(** The count of the capped [j] loop is the count of the loop without cap,
    cut at [max_output_size]. *)
Lemma row_loop_cap c sorted_index indices i nkeep o b :
  0 < max_output_size c -> 0 <= nkeep < 2 ^ 31 ->
  snd (for_range 0 nkeep (nms_outer_step c sorted_index indices i nkeep) (o, b, 0))
  = Z.min (max_output_size c)
      (snd (for_range 0 nkeep
              (nms_outer_step (with_max_output_size c 0) sorted_index indices i nkeep)
              (o, b, 0))).
Proof.
  intros Hmos Hnk.
  pose (R := fun (J : Z) (s u : row_state) =>
                0 <= snd u <= J /\
                ((snd s < max_output_size c /\ s = u) \/
                 (snd s = max_output_size c /\ max_output_size c <= snd u))).
  assert (G : R nkeep
              (for_range 0 nkeep (nms_outer_step c sorted_index indices i nkeep) (o, b, 0))
              (for_range 0 nkeep
                 (nms_outer_step (with_max_output_size c 0) sorted_index indices i nkeep)
                 (o, b, 0))).
  { apply (for_range_rel R); [lia| |]; unfold R.
    - cbn [snd]. split; [lia|]. left. split; [lia|reflexivity].
    - intros J s u HJ [Hu [[Hlt ->]|[Heq Hge]]].
      + destruct u as [[o' b'] l]. cbn [snd] in *.
        rewrite (nms_outer_step_below c) by exact Hlt.
        destruct (nms_outer_step_cases (with_max_output_size c 0) sorted_index indices
                    i nkeep J o' b' l) as [E|[_ E]]; rewrite E.
        * cbn [snd]. split; [lia|]. left. split; [lia|reflexivity].
        * rewrite nms_inner_loop_count. unfold add32. rewrite wrap32_small by lia.
          split; [lia|].
          destruct (Z.eq_dec (l + 1) (max_output_size c)) as [E'|E'].
          -- right. lia.
          -- left. split; [lia|reflexivity].
      + rewrite (nms_outer_step_full c) by lia.
        destruct u as [[o' b'] l]. cbn [snd] in *.
        destruct (nms_outer_step_cases (with_max_output_size c 0) sorted_index indices
                    i nkeep J o' b' l) as [E|[_ E]]; rewrite E.
        * cbn [snd]. split; [lia|]. right. lia.
        * rewrite nms_inner_loop_count. unfold add32. rewrite wrap32_small by lia.
          split; [lia|]. right. lia. }
  unfold R in G. destruct G as [_ [[Hlt E]|[Heq Hge]]].
  - rewrite <- E. lia.
  - lia.
Qed.

(** One pass of the inner loop on buffers that agree on the row. *)
Lemma nms_inner_loop_agree c sorted_index indices i nkeep j o b o' b' l :
  0 < max_threads c -> record_ok c -> 0 <= j < nkeep -> nkeep <= num_anchors c ->
  row_agree c i (o, b) (o', b') ->
  row_agree c i (fst (nms_inner_loop c sorted_index indices i nkeep j (o, b, l)))
    (fst (nms_inner_loop c sorted_index indices i nkeep j (o', b', l))).
Proof.
  intros Hmt Hrec Hj Hnk [Ao Ab]. cbn [fst snd] in Ao, Ab.
  assert (Hrec' := Hrec). destruct Hrec' as [Hs [Hid _]].
  split.
  - intros k f Hk Hf.
    destruct (Z_lt_dec j k) as [Hjk|Hjk]; [destruct (Z_lt_dec k nkeep) as [Hkn|Hkn]|].
    + rewrite !nms_inner_loop_candidate by (try assumption; lia).
      destruct (candidate_agree c o o' (i * num_anchors c * box_data_length c) j k Hrec)
        as [E1 E2].
      { intros f' Hf'. apply Ao; lia. }
      { intros f' Hf'. apply Ao; lia. }
      rewrite E1, E2, Ao by lia. reflexivity.
    + rewrite !nms_inner_loop_frame; try assumption; try lia; [apply Ao; lia| |].
      all: intros k' f' Hk' Hf' E;
        assert (E' : k * box_data_length c + f = k' * box_data_length c + f') by lia;
        destruct (row_index_inj (box_data_length c) _ _ f f' Hf Hf' E'); lia.
    + rewrite !nms_inner_loop_frame; try assumption; try lia; [apply Ao; lia| |].
      all: intros k' f' Hk' Hf' E;
        assert (E' : k * box_data_length c + f = k' * box_data_length c + f') by lia;
        destruct (row_index_inj (box_data_length c) _ _ f f' Hf Hf' E'); lia.
  - intros q Hq. rewrite !nms_inner_loop_indices.
    destruct (return_indices c); [|apply Ab; exact Hq].
    unfold store. destruct (_ =? _); [reflexivity|apply Ab; exact Hq].
Qed.

(** The [j] loop of a row reads nothing outside the row. *)
Lemma row_loop_agree c sorted_index indices i nkeep o b o' b' :
  0 < max_threads c -> record_ok c -> 0 <= nkeep <= num_anchors c ->
  row_agree c i (o, b) (o', b') ->
  row_agree c i
    (fst (for_range 0 nkeep (nms_outer_step c sorted_index indices i nkeep) (o, b, 0)))
    (fst (for_range 0 nkeep (nms_outer_step c sorted_index indices i nkeep) (o', b', 0)))
  /\ snd (for_range 0 nkeep (nms_outer_step c sorted_index indices i nkeep) (o, b, 0))
     = snd (for_range 0 nkeep (nms_outer_step c sorted_index indices i nkeep) (o', b', 0)).
Proof.
  intros Hmt Hrec Hnk Ag.
  apply (for_range_rel (fun (_ : Z) (s s' : row_state) =>
                          row_agree c i (fst s) (fst s') /\ snd s = snd s')); [lia| |].
  - cbn [fst snd]. split; [exact Ag|reflexivity].
  - intros J [[o1 b1] l1] [[o2 b2] l2] HJ [A E]. cbn [fst snd] in A, E. subst l2.
    assert (Hs : 0 <= score_index c < box_data_length c) by apply Hrec.
    pose proof (proj1 A J (score_index c) ltac:(lia) Hs) as Es. cbn [fst] in Es.
    unfold nms_outer_step. rewrite <- Es.
    destruct (Qgtb _ minus_one); [|split; [exact A|reflexivity]].
    destruct (max_output_size c >? 0).
    + destruct (l1 <? max_output_size c); [|split; [exact A|reflexivity]].
      split; [|reflexivity].
      apply nms_inner_loop_agree; try assumption; lia.
    + split; [|reflexivity].
      apply nms_inner_loop_agree; try assumption; lia.
Qed.

(** X15: The cap truncates the count.  With [max_output_size > 0], the
    count written to [num_valid_boxes[i]] on the suppression path is the
    count the same call writes without a cap ([max_output_size] set to [0]),
    cut at [max_output_size]. *)
Theorem nms_ir_cap_truncates c data sorted_index valid_count indices out bi nvb i :
  0 < max_threads c -> record_ok c -> num_anchors c < 2 ^ 31 ->
  (forall i', 0 <= i' < batch_size c -> valid_count i' <= num_anchors c) ->
  0 < max_output_size c ->
  0 <= i < batch_size c -> suppression_enabled c valid_count i = true ->
  snd (nms_ir c data sorted_index valid_count indices out bi nvb) i
  = Z.min (max_output_size c)
      (snd (nms_ir (with_max_output_size c 0) data sorted_index valid_count indices
              out bi nvb) i).
Proof.
  intros Hmt Hrec Hn Hvc Hmos Hi He.
  destruct (nms_ir_row_loop c data sorted_index valid_count indices out bi nvb i
              Hmt Hrec Hn Hvc Hi He) as (o1 & b1 & Pre1 & _ & Cnt1).
  destruct (nms_ir_row_loop (with_max_output_size c 0) data sorted_index valid_count
              indices out bi nvb i Hmt Hrec Hn Hvc Hi He) as (o2 & b2 & Pre2 & _ & Cnt2).
  change (nkeep_of (with_max_output_size c 0) valid_count i)
    with (nkeep_of c valid_count i) in Cnt2.
  assert (Pre2' : row_agree c i (o2, b2)
            (launch (batch_size c) (ceil_div (num_anchors c) (max_threads c)) (max_threads c)
               (reorder_thread c data sorted_index valid_count) (out, bi))) by exact Pre2.
  pose proof (nkeep_of_le c valid_count i) as Hle. pose proof (Hvc i Hi) as Hvi.
  pose proof (enabled_nkeep_pos c valid_count i He) as Hpos.
  rewrite <- Cnt1, <- Cnt2, row_loop_cap by lia.
  f_equal.
  apply (row_loop_agree (with_max_output_size c 0) sorted_index indices i
           (nkeep_of c valid_count i) o1 b1 o2 b2 Hmt Hrec); [cbn; lia|].
  apply (row_agree_trans c i _ _ _ Pre1). apply row_agree_sym. exact Pre2'.
Qed.

Lemma nms_ir_cap_truncates_witness :
  snd (nms_ir (mkConfig 1 5 6 4 3 (1 # 2) false (-1) 2 0 1 true) five_boxes
         (fun k => k) (fun _ => 5) (fun k => k) (fun _ => 0%Q) (fun _ => 0) (fun _ => 0)) 0
  = Z.min 3
      (snd (nms_ir (with_max_output_size (mkConfig 1 5 6 4 3 (1 # 2) false (-1) 2 0 1 true) 0)
              five_boxes (fun k => k) (fun _ => 5) (fun k => k)
              (fun _ => 0%Q) (fun _ => 0) (fun _ => 0)) 0).
Proof.
  refine (nms_ir_cap_truncates (mkConfig 1 5 6 4 3 (1 # 2) false (-1) 2 0 1 true) five_boxes
            (fun k => k) (fun _ => 5) (fun k => k) (fun _ => 0%Q) (fun _ => 0) (fun _ => 0) 0
            _ _ _ _ _ _ _); by_evaluation.
Defined.

(** The five boxes under a cap of three: the count is three, and the boxes
    after the third kept one are left as the first launch wrote them. *)
Example nms_ir_five_boxes_capped :
  let r := nms_ir (mkConfig 1 5 6 4 3 (1 # 2) false (-1) 2 0 1 true) five_boxes
             (fun k => k) (fun _ => 5) (fun k => k)
             (fun _ => 0%Q) (fun _ => 0) (fun _ => 0) in
  snd r 0 = 3
  /\ List.map (snd (fst r)) [0; 1; 2; 3; 4] = [0; 2; 3; -1; -1]
  /\ List.map (fun j => Qeq_bool (fst (fst r) (j * 6 + 1)) minus_one) [0; 1; 2; 3; 4]
     = [false; true; false; false; false].
Proof. vm_compute. repeat split; reflexivity. Qed.

(** ** The skip path of [nms_ir] *)

(** X16: What the skip path leaves.  In a row with [iou_threshold <= 0] or
    [valid_count[i] <= 0], [box_indices[i, j]] is [j] for every
    [j < valid_count[i]], and from [valid_count[i]] on both [out] and
    [box_indices] hold what they held before the call: the skip path writes
    no [-1] padding. *)
Theorem nms_ir_skip_row c data sorted_index valid_count indices out bi nvb i :
  0 < max_threads c -> record_ok c -> num_anchors c < 2 ^ 31 ->
  (forall i', 0 <= i' < batch_size c -> valid_count i' <= num_anchors c) ->
  0 <= i < batch_size c -> suppression_enabled c valid_count i = false ->
  let r := nms_ir c data sorted_index valid_count indices out bi nvb in
  let base := i * num_anchors c * box_data_length c in
  (forall j, 0 <= j < valid_count i -> snd (fst r) (i * num_anchors c + j) = j) /\
  (forall j f, valid_count i <= j < num_anchors c -> 0 <= j -> 0 <= f < box_data_length c ->
     fst (fst r) (base + j * box_data_length c + f) = out (base + j * box_data_length c + f)) /\
  (forall j, valid_count i <= j < num_anchors c -> 0 <= j ->
     snd (fst r) (i * num_anchors c + j) = bi (i * num_anchors c + j)).
Proof.
  intros Hmt Hrec Hn Hvc Hi He r base.
  destruct (nms_ir_row_skipped c data sorted_index valid_count indices out bi nvb i
              Hmt Hrec Hn Hvc Hi He) as [Ao Ab].
  fold r in Ao, Ab. fold base in Ao.
  pose proof (Hvc i Hi) as Hvi.
  split; [|split].
  - intros j Hj.
    destruct (reorder_spec c data sorted_index valid_count out bi i Hmt ltac:(lia) Hvc Hi)
      as [_ Rb].
    rewrite <- Ab, Rb, He by lia.
    replace (j <? valid_count i) with true by (symmetry; apply Z.ltb_lt; lia). reflexivity.
  - intros j f Hj Hj0 Hf.
    destruct (reorder_spec c data sorted_index valid_count out bi i Hmt ltac:(lia) Hvc Hi)
      as [Ro _].
    fold base in Ro. rewrite <- Ao, Ro, He by lia.
    replace (j <? valid_count i) with false by (symmetry; apply Z.ltb_ge; lia). reflexivity.
  - intros j Hj Hj0.
    destruct (reorder_spec c data sorted_index valid_count out bi i Hmt ltac:(lia) Hvc Hi)
      as [_ Rb].
    rewrite <- Ab, Rb, He by lia.
    replace (j <? valid_count i) with false by (symmetry; apply Z.ltb_ge; lia). reflexivity.
Qed.

Lemma nms_ir_skip_row_witness :
  snd (fst (nms_ir (mkConfig 1 5 6 4 (-1) 0 false (-1) 2 0 1 true) five_boxes
              (fun k => k) (fun _ => 3) (fun k => k)
              (fun _ => 0%Q) (fun _ => 7) (fun _ => 0)))
    (0 * 5 + 4)
  = (fun _ : Z => 7) (0 * 5 + 4).
Proof.
  refine (proj2 (proj2 (nms_ir_skip_row (mkConfig 1 5 6 4 (-1) 0 false (-1) 2 0 1 true)
                          five_boxes (fun k => k) (fun _ => 3) (fun k => k)
                          (fun _ => 0%Q) (fun _ => 7) (fun _ => 0) 0
                          _ _ _ _ _ _)) 4 _ _); by_evaluation.
Defined.

(** ** The footprint of [get_valid_boxes_ir] *)

(** X17: The mask is a 0/1 mask and nothing else is written.  Every entry
    of [valid_boxes] with a flat index below [batch_size * num_anchors] is
    [0] or [1] after the kernel, and every other entry is untouched. *)
Theorem get_valid_boxes_ir_footprint (data : buf Q) (valid_boxes : buf Z)
    (score_threshold : Q) (id_index score_index : Z)
    (batch_size num_anchors elem_length max_threads p : Z) :
  0 < max_threads -> 0 <= num_anchors ->
  let r := get_valid_boxes_ir data valid_boxes score_threshold id_index score_index
             batch_size num_anchors elem_length max_threads in
  (0 <= p < batch_size * num_anchors -> r p = 0 \/ r p = 1) /\
  (~ 0 <= p < batch_size * num_anchors -> r p = valid_boxes p).
Proof.
  intros Hmt Hn r. subst r. split.
  - intros Hp.
    assert (Hpos : 0 < num_anchors).
    { destruct (Z.eq_dec num_anchors 0) as [Hz|Hz]; [|lia].
      rewrite Hz, Z.mul_0_r in Hp. lia. }
    pose proof (Z.div_mod p num_anchors ltac:(lia)) as E.
    pose proof (Z.mod_pos_bound p num_anchors Hpos) as Hm.
    assert (Hq : 0 <= p / num_anchors < batch_size).
    { split; [apply Z.div_pos; lia|]. apply Z.div_lt_upper_bound; lia. }
    replace p with (p / num_anchors * num_anchors + p mod num_anchors) by lia.
    rewrite get_valid_boxes_ir_flag by assumption. apply valid_flag_01.
  - intros Hp. unfold get_valid_boxes_ir.
    rewrite (launch_ext _ _ _ _
               (elementwise num_anchors max_threads
                  (valid_flag data score_threshold id_index score_index
                     num_anchors elem_length))).
    + apply (proj2 (elementwise_launch batch_size num_anchors max_threads
                      (ceil_div num_anchors max_threads) _ valid_boxes Hmt
                      (ceil_div_nonneg num_anchors max_threads Hmt Hn)
                      (ceil_div_ge num_anchors max_threads Hmt))).
      intros i j Hi Hj E. apply Hp. nia.
    + intros by_ bx tx s'. unfold get_valid_boxes_thread, elementwise, valid_flag.
      destruct (bx * max_threads + tx <? num_anchors); [|reflexivity].
      match goal with |- context [if ?c then store _ _ 1 else _] => destruct c end;
        reflexivity.
Qed.

Lemma get_valid_boxes_ir_footprint_witness :
  get_valid_boxes_ir five_boxes (fun _ => 9) (1 # 2) 0 1 1 5 6 4 5
  = (fun _ : Z => 9) 5.
Proof.
  refine (proj2 (get_valid_boxes_ir_footprint five_boxes (fun _ => 9) (1 # 2) 0 1 1 5 6 4 5
                   _ _) _);
    [by_evaluation|by_evaluation|intros [_ H]; vm_compute in H; discriminate H].
Defined.

(** ** [atomic_add] and its lowering rules *)

Section AtomicAdd.

(** [y.dtype], as the framework has it for an expression. *)
Variable dtype_of : PrimExpr -> string.

(** [tvm.tir.call_intrin(y.dtype, "tir.atomic_add", x, y)]. *)
Definition atomic_add (x y : PrimExpr) : Call := mkCall (dtype_of y) [x; y].

(** X18: Lowering a call built by [atomic_add].  The call carries the dtype
    of the added value and exactly the two operands, so neither rule fails
    on [op.args]: the CUDA rule gives [atomicAdd] of that dtype on [x] and
    [y] when the dtype is [float32], [float64] or [int32] and raises
    [RuntimeError] otherwise; the OpenCL rule gives [atomic_add] for [int32]
    and raises [RuntimeError] otherwise. *)
Theorem atomic_add_lowering (x y : PrimExpr) :
  (In (dtype_of y) ["float32"; "float64"; "int32"]%string ->
   cuda_atomic_add_rule (atomic_add x y)
   = Ok (call_pure_extern (dtype_of y) "atomicAdd" x y)) /\
  (~ In (dtype_of y) ["float32"; "float64"; "int32"]%string ->
   cuda_atomic_add_rule (atomic_add x y)
   = Raise (RuntimeError "only support int32, float32 and float64")) /\
  (dtype_of y = "int32"%string ->
   opencl_atomic_add_rule (atomic_add x y)
   = Ok (call_pure_extern "int32" "atomic_add" x y)) /\
  (dtype_of y <> "int32"%string ->
   opencl_atomic_add_rule (atomic_add x y) = Raise (RuntimeError "only support int32")).
Proof.
  unfold atomic_add, cuda_atomic_add_rule, opencl_atomic_add_rule, extern_atomicAdd.
  cbn [call_dtype call_args nth_error].
  split; [|split; [|split]].
  - intros [E|[E|[E|[]]]]; rewrite <- E; reflexivity.
  - intros H.
    destruct (String.eqb_spec (dtype_of y) "float32") as [E|_];
      [exfalso; apply H; rewrite E; cbn; auto|].
    destruct (String.eqb_spec (dtype_of y) "float64") as [E|_];
      [exfalso; apply H; rewrite E; cbn; auto|].
    destruct (String.eqb_spec (dtype_of y) "int32") as [E|_];
      [exfalso; apply H; rewrite E; cbn; auto|].
    reflexivity.
  - intros E. rewrite E. reflexivity.
  - intros H. apply String.eqb_neq in H. rewrite H. reflexivity.
Qed.

End AtomicAdd.

Lemma atomic_add_lowering_witness :
  cuda_atomic_add_rule (atomic_add (fun _ => "float64"%string) (Var "x") (Var "y"))
  = Ok (call_pure_extern "float64" "atomicAdd" (Var "x") (Var "y"))
  /\ opencl_atomic_add_rule (atomic_add (fun _ => "float64"%string) (Var "x") (Var "y"))
     = Raise (RuntimeError "only support int32").
Proof.
  split.
  - apply (proj1 (atomic_add_lowering (fun _ => "float64"%string) (Var "x") (Var "y"))).
    cbn. auto.
  - apply (proj2 (proj2 (proj2 (atomic_add_lowering (fun _ => "float64"%string)
                                  (Var "x") (Var "y"))))).
    discriminate.
Defined.
